(** * Zillopoly: the batch-variant game ledger and the listing proxy

    A shallow embedding of the Solidity contract [Zillopoly] (the variant
    whose [startGame] creates a batch of ten empty games) and of the Express
    route [GET /api/random-listing], with the properties of the
    specification stated and proved over them.

    Conventions of the embedding.
    - [uint256], [bytes32] and [address] values are integers ([Z]); checked
      arithmetic of Solidity 0.8 is written out ([checkedAdd], [checkedSub]).
    - A contract function is a computation in the monad [M]: it threads the
      world (contract storage, token ledger, event log) and may revert.
    - A transaction ([transact]) commits the world a function returns and
      keeps the previous world when the function reverts, as the EVM does.
    - The ERC-20 token is an external contract: the interface [IERC20] gives
      its calls as functions on an abstract ledger state; a call may revert,
      or return a boolean.  The token does not call back into the game
      contract (the [nonReentrant] guard of the source forbids the
      re-entrant calls that would matter), and gas is not modelled. *)

From Stdlib Require Import ZArith Lia String List Bool DecimalString.
From stdpp Require Import base option list gmap strings relations.

Open Scope Z_scope.

(** ** The token interface *)

Abbreviation address := Z (only parsing).

(** [transferFrom spender from to amount] and [transfer caller to amount]:
    the first argument is the [msg.sender] the token sees.  [None] is a
    revert inside the token. *)
Class IERC20 (T : Type) := {
  transferFrom : address -> address -> address -> Z -> T -> option (bool * T);
  transfer : address -> address -> Z -> T -> option (bool * T);
  balanceOf : address -> T -> Z
}.

Definition MAX_UINT256 : Z := 2 ^ 256 - 1.

(** ** A reference token ledger

    [Hobo.sol] extends the imported ERC20 base contract, whose source is
    outside the repository.  The ledger below gives the standard behaviour
    of that base (a failed transfer reverts, a successful one returns
    [true]); it is used to run the game contract on concrete inputs. *)
Module Hobo.

Record Ledger : Type := mkLedger {
  balances : gmap Z Z;
  allowances : gmap (Z * Z) Z
}.

Definition balance (a : address) (t : Ledger) : Z :=
  default 0 (balances t !! a).

Definition allowance (holder spender : address) (t : Ledger) : Z :=
  default 0 (allowances t !! (holder, spender)).

(** Move [amount] from [from] to [to]; reverts on the zero address and on
    an insufficient balance. *)
Definition move (from to : address) (amount : Z) (t : Ledger) : option Ledger :=
  if decide (from = 0) then None
  else if decide (to = 0) then None
  else if balance from t <? amount then None
  else
    let b1 := <[from := balance from t - amount]> (balances t) in
    let b2 := <[to := default 0 (b1 !! to) + amount]> b1 in
    Some (mkLedger b2 (allowances t)).

(** Consume [amount] of the allowance [holder] gave to [spender]; an
    unlimited allowance is left as it is. *)
Definition spendAllowance (holder spender : address) (amount : Z) (t : Ledger)
    : option Ledger :=
  let a := allowance holder spender t in
  if a =? MAX_UINT256 then Some t
  else if a <? amount then None
  else Some (mkLedger (balances t)
               (<[(holder, spender) := a - amount]> (allowances t))).

#[global] Instance Ledger_IERC20 : IERC20 Ledger := {|
  transferFrom spender from to amount t :=
    match spendAllowance from spender amount t with
    | Some t1 =>
        match move from to amount t1 with
        | Some t2 => Some (true, t2)
        | None => None
        end
    | None => None
    end;
  transfer caller to amount t :=
    match move caller to amount t with
    | Some t1 => Some (true, t1)
    | None => None
    end;
  balanceOf a t := balance a t
|}.

End Hobo.

Module Zillopoly.

(** ** Constants *)

Definition GAME_COST : Z := 1000 * 10 ^ 18.
Definition BATCH_SIZE : Z := 10.
Definition BATCH_COST : Z := GAME_COST * BATCH_SIZE.

(** ** Data model *)

Inductive GameStage : Type :=
| NotStarted
| Initialized
| GuessSubmitted
| Settled.

#[global] Instance GameStage_eq_dec : EqDecision GameStage.
Proof. solve_decision. Defined.

(** Position of a stage in the enumeration. *)
Definition stageIndex (s : GameStage) : Z :=
  match s with
  | NotStarted => 0
  | Initialized => 1
  | GuessSubmitted => 2
  | Settled => 3
  end.

Record Listing : Type := mkListing {
  gameId : Z;
  displayedPrice : Z;
  actualPrice : Z;
  higherOrLower : bool;
  listingId : Z;
  player : address;
  timestamp : Z;
  stage : GameStage;
  won : bool;
  payout : Z
}.

(** The value a mapping slot holds before it is written. *)
Definition zeroListing : Listing :=
  mkListing 0 0 0 false 0 0 0 NotStarted false 0.

Definition set_displayedPrice (v : Z) (g : Listing) : Listing :=
  mkListing (gameId g) v (actualPrice g) (higherOrLower g) (listingId g)
    (player g) (timestamp g) (stage g) (won g) (payout g).

Definition set_actualPrice (v : Z) (g : Listing) : Listing :=
  mkListing (gameId g) (displayedPrice g) v (higherOrLower g) (listingId g)
    (player g) (timestamp g) (stage g) (won g) (payout g).

Definition set_higherOrLower (v : bool) (g : Listing) : Listing :=
  mkListing (gameId g) (displayedPrice g) (actualPrice g) v (listingId g)
    (player g) (timestamp g) (stage g) (won g) (payout g).

Definition set_listingId (v : Z) (g : Listing) : Listing :=
  mkListing (gameId g) (displayedPrice g) (actualPrice g) (higherOrLower g) v
    (player g) (timestamp g) (stage g) (won g) (payout g).

Definition set_stage (v : GameStage) (g : Listing) : Listing :=
  mkListing (gameId g) (displayedPrice g) (actualPrice g) (higherOrLower g)
    (listingId g) (player g) (timestamp g) v (won g) (payout g).

Definition set_won (v : bool) (g : Listing) : Listing :=
  mkListing (gameId g) (displayedPrice g) (actualPrice g) (higherOrLower g)
    (listingId g) (player g) (timestamp g) (stage g) v (payout g).

Definition set_payout (v : Z) (g : Listing) : Listing :=
  mkListing (gameId g) (displayedPrice g) (actualPrice g) (higherOrLower g)
    (listingId g) (player g) (timestamp g) (stage g) (won g) v.

Inductive Event : Type :=
| BatchGamesCreated (ePlayer : address) (eStart eEnd eTime : Z)
| GameInitialized (eId : Z) (ePlayer : address) (eListing ePrice eTime : Z)
| GuessMade (eId : Z) (ePlayer : address) (eGuess : bool)
| BetSettled (eId : Z) (ePlayer : address) (eDisplayed eActual : Z)
    (eGuess eWon : bool) (ePayout : Z).

(** Contract storage.  [owner] is the state variable of the inherited
    [Ownable] base. *)
Record Storage : Type := mkStorage {
  owner : address;
  nextGameId : Z;
  playerListings : gmap Z (list Listing);
  gameById : gmap Z Listing;
  allGames : list Listing
}.

Inductive Error : Type :=
| RequireFailed (msg : string)
| CalleeReverted
| ArithmeticPanic
| OwnableUnauthorizedAccount (account : address)
| OwnableInvalidOwner (account : address).

Inductive Result (A : Type) : Type :=
| Ok (a : A)
| Revert (e : Error).

Arguments Ok {A} a.
Arguments Revert {A} e.

(** [updateFirst id g l]: the scan of [_updateListingInArrays] over one
    array: the first entry whose [gameId] is [id] is overwritten with [g],
    then the loop breaks. *)
Fixpoint updateFirst (id : Z) (g : Listing) (l : list Listing) : list Listing :=
  match l with
  | [] => []
  | x :: r => if decide (gameId x = id) then g :: r else x :: updateFirst id g r
  end.

(** The counting loop of [getPlayerGamesByStage]. *)
Fixpoint countStage (st : GameStage) (l : list Listing) : Z :=
  match l with
  | [] => 0
  | x :: r => (if decide (stage x = st) then 1 else 0) + countStage st r
  end.

(** [gameById[id]]: a slot never written reads as the zero value. *)
Definition gameAt (s : Storage) (id : Z) : Listing :=
  default zeroListing (gameById s !! id).

(** [playerListings[p]]: an array never pushed to is empty. *)
Definition listingsOf (s : Storage) (p : address) : list Listing :=
  default [] (playerListings s !! p).

(** The storage after [gameById[id] = g]. *)
Definition setGame (id : Z) (g : Listing) (s : Storage) : Storage :=
  mkStorage (owner s) (nextGameId s) (playerListings s)
    (<[id := g]> (gameById s)) (allGames s).

(** The storage after [_updateListingInArrays(id, gameById[id])]: the two
    scans copy the record into the owner's array and into [allGames]. *)
Definition syncArrays (id : Z) (s : Storage) : Storage :=
  let updatedGame := gameAt s id in
  mkStorage (owner s) (nextGameId s)
    (alter (updateFirst id updatedGame) (player updatedGame) (playerListings s))
    (gameById s)
    (updateFirst id updatedGame (allGames s)).

Section Contract.

Context {T : Type} `{Tok : IERC20 T}.

(** The address of the game contract itself. *)
Variable self : address.

Record World : Type := mkWorld {
  store : Storage;
  token : T;
  events : list Event
}.

Definition M (A : Type) : Type := World -> Result (A * World).

Definition ret {A : Type} (a : A) : M A := fun w => Ok (a, w).

Definition bind {A B : Type} (m : M A) (k : A -> M B) : M B :=
  fun w => match m w with
           | Ok (a, w') => k a w'
           | Revert e => Revert e
           end.

Notation "x <- m ;; k" := (bind m (fun x => k))
  (at level 100, m at next level, right associativity).
Notation "m ;; k" := (bind m (fun _ => k))
  (at level 100, right associativity).

Definition revert {A : Type} (e : Error) : M A := fun _ => Revert e.

Definition require (b : bool) (msg : string) : M unit :=
  if b then ret tt else revert (RequireFailed msg).

Definition checkedAdd (a b : Z) : M Z :=
  if a + b <=? MAX_UINT256 then ret (a + b) else revert ArithmeticPanic.

Definition checkedSub (a b : Z) : M Z :=
  if b <=? a then ret (a - b) else revert ArithmeticPanic.

Definition getStore : M Storage := fun w => Ok (store w, w).

Definition putStore (s : Storage) : M unit :=
  fun w => Ok (tt, mkWorld s (token w) (events w)).

Definition emit (e : Event) : M unit :=
  fun w => Ok (tt, mkWorld (store w) (token w) (events w ++ [e])).

(** External calls to the token; the caller the token sees is [self]. *)
Definition callTransferFrom (from to : address) (amount : Z) : M bool :=
  fun w => match transferFrom self from to amount (token w) with
           | Some (b, t') => Ok (b, mkWorld (store w) t' (events w))
           | None => Revert CalleeReverted
           end.

Definition callTransfer (to : address) (amount : Z) : M bool :=
  fun w => match transfer self to amount (token w) with
           | Some (b, t') => Ok (b, mkWorld (store w) t' (events w))
           | None => Revert CalleeReverted
           end.

Definition callBalanceOf (a : address) : M Z :=
  fun w => Ok (balanceOf a (token w), w).

(** *** Storage accessors *)

Definition getNextGameId : M Z := s <- getStore ;; ret (nextGameId s).

Definition setNextGameId (n : Z) : M unit :=
  s <- getStore ;;
  putStore (mkStorage (owner s) n (playerListings s) (gameById s) (allGames s)).

(** [gameById[id]] read through a storage reference. *)
Definition readGame (id : Z) : M Listing := s <- getStore ;; ret (gameAt s id).

(** [gameById[id] = g]. *)
Definition writeGame (id : Z) (g : Listing) : M unit :=
  s <- getStore ;; putStore (setGame id g s).

(** One field assignment through the storage reference [game]. *)
Definition modifyGame (id : Z) (f : Listing -> Listing) : M unit :=
  g <- readGame id ;; writeGame id (f g).

(** [playerListings[p].push(g)]. *)
Definition pushPlayerListing (p : address) (g : Listing) : M unit :=
  s <- getStore ;;
  putStore (mkStorage (owner s) (nextGameId s)
              (<[p := listingsOf s p ++ [g]]> (playerListings s))
              (gameById s) (allGames s)).

(** [allGames.push(g)]. *)
Definition pushAllGames (g : Listing) : M unit :=
  s <- getStore ;;
  putStore (mkStorage (owner s) (nextGameId s) (playerListings s)
              (gameById s) (allGames s ++ [g])).

(** *** Modifiers *)

Definition onlyOwner (sender : address) : M unit :=
  s <- getStore ;;
  if decide (owner s = sender) then ret tt
  else revert (OwnableUnauthorizedAccount sender).

Definition requireValidId (id : Z) : M unit :=
  n <- getNextGameId ;;
  require ((0 <? id) && (id <? n)) "Invalid game ID".

(** *** startGame *)

Definition newListing (id : Z) (sender : address) (now : Z) : Listing :=
  mkListing id 0 0 false 0 sender now NotStarted false 0.

(** One iteration of the loop of [startGame]. *)
Definition createSlot (sender : address) (now : Z) : M unit :=
  id <- getNextGameId ;;
  pushPlayerListing sender (newListing id sender now) ;;
  writeGame id (newListing id sender now) ;;
  pushAllGames (newListing id sender now) ;;
  id' <- checkedAdd id 1 ;;
  setNextGameId id'.

Fixpoint repeatM (n : nat) (body : M unit) : M unit :=
  match n with
  | O => ret tt
  | S k => body ;; repeatM k body
  end.

Definition startGame (sender : address) (now : Z) : M (Z * Z) :=
  ok <- callTransferFrom sender self BATCH_COST ;;
  require ok "Transfer failed" ;;
  startGameId <- getNextGameId ;;
  repeatM (Z.to_nat BATCH_SIZE) (createSlot sender now) ;;
  n <- getNextGameId ;;
  endGameId <- checkedSub n 1 ;;
  emit (BatchGamesCreated sender startGameId endGameId now) ;;
  ret (startGameId, endGameId).

(** *** _updateListingInArrays *)

Definition _updateListingInArrays (id : Z) : M unit :=
  s <- getStore ;; putStore (syncArrays id s).

(** *** initializeGame *)

Definition initializeGame (sender : address) (now : Z)
    (id lid price : Z) : M unit :=
  onlyOwner sender ;;
  requireValidId id ;;
  require (negb (lid =? 0)) "Invalid listing ID" ;;
  require (0 <? price) "Displayed price must be > 0" ;;
  game <- readGame id ;;
  require (bool_decide (stage game = NotStarted)) "Game already initialized" ;;
  modifyGame id (set_listingId lid) ;;
  modifyGame id (set_displayedPrice price) ;;
  modifyGame id (set_stage Initialized) ;;
  _updateListingInArrays id ;;
  game <- readGame id ;;
  emit (GameInitialized id (player game) lid price now).

(** *** makeGuess *)

Definition makeGuess (sender : address) (id : Z) (isHigher : bool) : M unit :=
  requireValidId id ;;
  game <- readGame id ;;
  require (bool_decide (player game = sender)) "Not your game" ;;
  require (bool_decide (stage game = Initialized)) "Game not in guess stage" ;;
  modifyGame id (set_higherOrLower isHigher) ;;
  modifyGame id (set_stage GuessSubmitted) ;;
  _updateListingInArrays id ;;
  emit (GuessMade id sender isHigher).

(** *** settleBet *)

(** The if / else-if chain that decides the bet. *)
Definition playerWon (guess : bool) (actual displayed : Z) : bool :=
  if guess && (displayed <? actual) then true
  else if negb guess && (actual <? displayed) then true
  else if actual =? displayed then true
  else false.

Definition settleBet (sender : address) (id actual : Z) : M unit :=
  onlyOwner sender ;;
  requireValidId id ;;
  require (0 <? actual) "Actual price must be > 0" ;;
  game <- readGame id ;;
  require (bool_decide (stage game = GuessSubmitted))
    "Game not ready for settlement" ;;
  modifyGame id (set_actualPrice actual) ;;
  game <- readGame id ;;
  let w := playerWon (higherOrLower game) actual (displayedPrice game) in
  modifyGame id (set_won w) ;;
  modifyGame id (set_stage Settled) ;;
  (if w then
     modifyGame id (set_payout (GAME_COST * 2)) ;;
     game <- readGame id ;;
     ok <- callTransfer (player game) (payout game) ;;
     require ok "Payout failed"
   else
     modifyGame id (set_payout 0)) ;;
  _updateListingInArrays id ;;
  game <- readGame id ;;
  emit (BetSettled id (player game) (displayedPrice game) actual
          (higherOrLower game) w (payout game)).

(** *** Views *)

Definition getPlayerListings (p : address) : M (list Listing) :=
  s <- getStore ;; ret (listingsOf s p).

Definition getGame (id : Z) : M Listing :=
  requireValidId id ;;
  readGame id.

Definition getTotalGames : M Z :=
  s <- getStore ;; ret (Z.of_nat (length (allGames s))).

Definition getPlayerGamesByStage (p : address) (st : GameStage) : M Z :=
  s <- getStore ;; ret (countStage st (listingsOf s p)).

Definition getContractBalance : M Z := callBalanceOf self.

(** *** Owner operations *)

Definition withdrawFunds (sender : address) (amount : Z) : M unit :=
  onlyOwner sender ;;
  bal <- callBalanceOf self ;;
  require (amount <=? bal) "Insufficient balance" ;;
  ok <- callTransfer sender amount ;;
  require ok "Transfer failed".

Definition setOwner (a : address) : M unit :=
  s <- getStore ;;
  putStore (mkStorage a (nextGameId s) (playerListings s) (gameById s)
              (allGames s)).

(** [transferOwnership] and [renounceOwnership] are inherited from the
    imported [Ownable] base contract, whose source is outside the
    repository; they are given their standard behaviour so that the set of
    reachable states covers every external entry point of the contract. *)
Definition transferOwnership (sender newOwner : address) : M unit :=
  onlyOwner sender ;;
  if decide (newOwner = 0) then revert (OwnableInvalidOwner 0)
  else setOwner newOwner.

Definition renounceOwnership (sender : address) : M unit :=
  onlyOwner sender ;;
  setOwner 0.

(** ** Transactions *)

Inductive Call : Type :=
| CStartGame
| CInitializeGame (id lid price : Z)
| CMakeGuess (id : Z) (isHigher : bool)
| CSettleBet (id actual : Z)
| CWithdrawFunds (amount : Z)
| CTransferOwnership (newOwner : address)
| CRenounceOwnership.

Definition dispatch (c : Call) (sender : address) (now : Z) : M unit :=
  match c with
  | CStartGame => startGame sender now ;; ret tt
  | CInitializeGame id lid price => initializeGame sender now id lid price
  | CMakeGuess id isHigher => makeGuess sender id isHigher
  | CSettleBet id actual => settleBet sender id actual
  | CWithdrawFunds amount => withdrawFunds sender amount
  | CTransferOwnership newOwner => transferOwnership sender newOwner
  | CRenounceOwnership => renounceOwnership sender
  end.

(** The world after a transaction: the one the call returns, or the
    previous one when the call reverts. *)
Definition commit {A : Type} (m : M A) (w : World) : World :=
  match m w with
  | Ok (_, w') => w'
  | Revert _ => w
  end.

Definition transact (c : Call) (sender : address) (now : Z) (w : World) : World :=
  commit (dispatch c sender now) w.

(** A step of the system: a transaction sent to the game contract, or any
    change of the token ledger made by other parties. *)
Inductive step : World -> World -> Prop :=
| step_call (c : Call) (sender : address) (now : Z) (w : World) :
    step w (transact c sender now w)
| step_token (w : World) (t' : T) :
    step w (mkWorld (store w) t' (events w)).

(** The world right after deployment by [deployer]. *)
Definition initial (deployer : address) (t0 : T) : World :=
  mkWorld (mkStorage deployer 1 ∅ ∅ []) t0 [].

Definition reachable (w : World) : Prop :=
  exists (deployer : address) (t0 : T), rtc step (initial deployer t0) w.

End Contract.

(** ** Closed forms of the state changes *)

(** The record after the three assignments of [initializeGame]. *)
Definition initGame (lid price : Z) (g : Listing) : Listing :=
  set_stage Initialized (set_displayedPrice price (set_listingId lid g)).

(** The record after the two assignments of [makeGuess]. *)
Definition guessGame (isHigher : bool) (g : Listing) : Listing :=
  set_stage GuessSubmitted (set_higherOrLower isHigher g).

(** The record after the assignments of [settleBet]. *)
Definition settleGame (actual : Z) (g : Listing) : Listing :=
  let w := playerWon (higherOrLower g) actual (displayedPrice g) in
  set_payout (if w then GAME_COST * 2 else 0)
    (set_stage Settled (set_won w (set_actualPrice actual g))).

(** The storage after one iteration of the loop of [startGame]. *)
Definition addSlot (sender : address) (now : Z) (s : Storage) : Storage :=
  let g := newListing (nextGameId s) sender now in
  mkStorage (owner s) (nextGameId s + 1)
    (<[sender := listingsOf s sender ++ [g]]> (playerListings s))
    (<[nextGameId s := g]> (gameById s))
    (allGames s ++ [g]).

Fixpoint addSlots (k : nat) (sender : address) (now : Z) (s : Storage) : Storage :=
  match k with
  | O => s
  | S k' => addSlots k' sender now (addSlot sender now s)
  end.

(** Whether the arithmetic of [startGame] stays in range: the ten
    increments of the counter, and the final [nextGameId - 1]. *)
Definition batchFits (n : Z) : bool :=
  (n + BATCH_SIZE <=? MAX_UINT256) && (1 <=? n + BATCH_SIZE).

(** The records of a batch of [k] games starting at id [first]. *)
Definition batch (first k : Z) (sender : address) (now : Z) : list Listing :=
  (fun id => newListing id sender now) <$> seqZ first k.

(** The change one committed call makes to one game record. *)
Inductive gameStep : Listing -> Listing -> Prop :=
| gs_initialize (g : Listing) (lid price : Z) :
    stage g = NotStarted -> lid <> 0 -> 0 < price ->
    gameStep g (initGame lid price g)
| gs_guess (g : Listing) (isHigher : bool) :
    stage g = Initialized ->
    gameStep g (guessGame isHigher g)
| gs_settle (g : Listing) (actual : Z) :
    stage g = GuessSubmitted -> 0 < actual ->
    gameStep g (settleGame actual g).

(** The storage before and after a call that creates no game: nothing
    changes, or one record moves one stage and is copied to the arrays, or
    the owner changes. *)
Inductive quietStep : Storage -> Storage -> Prop :=
| qs_same (s : Storage) : quietStep s s
| qs_game (s : Storage) (id : Z) (g' : Listing) :
    0 < id < nextGameId s ->
    gameStep (gameAt s id) g' ->
    quietStep s (syncArrays id (setGame id g' s))
| qs_owner (s : Storage) (o : address) :
    quietStep s (mkStorage o (nextGameId s) (playerListings s) (gameById s)
                   (allGames s)).

(** The storage before and after any call. *)
Inductive storeStep : Storage -> Storage -> Prop :=
| ss_quiet (s s' : Storage) : quietStep s s' -> storeStep s s'
| ss_batch (s : Storage) (sender now : Z) :
    nextGameId s + BATCH_SIZE <= MAX_UINT256 ->
    storeStep s (addSlots (Z.to_nat BATCH_SIZE) sender now s).

(** The payout a settled record must carry. *)
Definition payoutRule (g : Listing) : Prop :=
  stage g = Settled -> payout g = if won g then GAME_COST * 2 else 0.

(** Consistency of the three storage locations, with the id counter. *)
Record consistent (s : Storage) : Prop := mkConsistent {
  cons_next : 1 <= nextGameId s <= MAX_UINT256;
  cons_all : allGames s = gameAt s <$> seqZ 1 (nextGameId s - 1);
  cons_id : forall id, 1 <= id < nextGameId s -> gameId (gameAt s id) = id;
  cons_fresh : forall id, ~ (1 <= id < nextGameId s) -> gameById s !! id = None;
  cons_player : forall p,
    listingsOf s p = filter (fun g => player g = p) (allGames s)
}.

End Zillopoly.

(** ** A concrete run

    The scenario of the specification on the reference ledger: player [7]
    holds 50,000 HOBO and has approved the game contract (address [99])
    without limit; the operator [1] deployed the contract. *)
Module Scenario.

Import Hobo Zillopoly.

Definition operator : address := 1.
Definition gamer : address := 7.
Definition stranger : address := 8.
Definition contract : address := 99.

Definition ledger0 : Ledger :=
  mkLedger {[ gamer := 50000 * 10 ^ 18 ]} {[ (gamer, contract) := MAX_UINT256 ]}.

(** A ledger on which the player has nothing to spend. *)
Definition ledgerEmpty : Ledger := mkLedger ∅ ∅.

Definition w0 : World := initial operator ledger0.
Definition w1 : World := transact contract CStartGame gamer 1000 w0.
Definition w2 : World :=
  transact contract (CInitializeGame 3 12345 500000) operator 1001 w1.
Definition w3 : World := transact contract (CMakeGuess 3 true) gamer 1002 w2.
Definition w4 : World := transact contract (CSettleBet 3 600000) operator 1003 w3.
Definition w5 : World :=
  transact contract (CInitializeGame 4 777 250000) operator 1004 w4.
Definition w6 : World := transact contract (CMakeGuess 4 false) gamer 1005 w5.
Definition w7 : World := transact contract (CSettleBet 4 250000) operator 1006 w6.

(** The contract holds the stakes of a batch, after a payout is due but
    the contract's balance was moved away by the operator. *)
Definition w3drained : World :=
  transact contract (CWithdrawFunds (10000 * 10 ^ 18)) operator 1003 w3.

End Scenario.

(** * The listing proxy ([api/src/index.js])

    JSON values are a small inductive type; beside the values JSON carries
    it has [undefined] and the numbers that are not finite, which the
    handler can hold in an object and [res.json] does not send as they
    are.  A string holds the UTF-8 bytes of the text.  What the source
    computes with floating-point numbers or through methods of the values
    (the price adjustment, [toString], [toLocaleString], the text of a
    [TypeError]) is taken from a [Runtime] record; the random choices and
    the answer of the upstream service are the [Env] of one request.  The
    upstream body, when it has a [props], has an array there.  The [body]
    of a [Response] is the value a client parses from the text that
    [res.json] sends. *)
Module Api.

#[local] Set Warnings "-register-all".

Inductive JsVal : Type :=
| JUndefined
| JNull
| JBool (b : bool)
| JNum (n : Z)
| JNaN
| JInfinity (negative : bool)
| JStr (s : string)
| JArr (items : list JsVal)
| JObj (fields : list (string * JsVal)).

(** What [Math.round] returns. *)
Inductive JsNumber : Type :=
| Finite (n : Z)
| NotANumber
| Infinite (negative : bool).

Definition ofNumber (x : JsNumber) : JsVal :=
  match x with
  | Finite n => JNum n
  | NotANumber => JNaN
  | Infinite negative => JInfinity negative
  end.

Fixpoint assoc (k : string) (fields : list (string * JsVal)) : option JsVal :=
  match fields with
  | [] => None
  | (k', v) :: r => if String.eqb k' k then Some v else assoc k r
  end.

(** [v.k] on a value that is an object (or a primitive other than
    [undefined] and [null]): a missing property reads as [undefined]. *)
Definition field (v : JsVal) (k : string) : JsVal :=
  match v with
  | JObj fields => default JUndefined (assoc k fields)
  | _ => JUndefined
  end.

(** [k in v] for an object [v]. *)
Definition hasKey (v : JsVal) (k : string) : bool :=
  match v with
  | JObj fields => bool_decide (is_Some (assoc k fields))
  | _ => false
  end.

Definition truthy (v : JsVal) : bool :=
  match v with
  | JUndefined | JNull | JNaN => false
  | JBool b => b
  | JNum n => negb (n =? 0)
  | JStr s => negb (String.eqb s "")
  | JInfinity _ | JArr _ | JObj _ => true
  end.

(** [v || 0]. *)
Definition orZero (v : JsVal) : JsVal := if truthy v then v else JNum 0.

(** The properties [JSON.stringify] writes: one whose value is
    [undefined] is left out. *)
Definition keepDefined (w : JsVal -> JsVal)
    : list (string * JsVal) -> list (string * JsVal) :=
  fix go fields :=
    match fields with
    | [] => []
    | (k, x) :: r =>
        match x with
        | JUndefined => go r
        | _ => (k, w x) :: go r
        end
    end.

(** [JSON.stringify(v)], as the value a client parses from the text: a
    property whose value is [undefined] is left out, an [undefined] in an
    array and a number that is not finite become [null]. *)
Fixpoint stringify (v : JsVal) : JsVal :=
  match v with
  | JNaN | JInfinity _ => JNull
  | JArr items =>
      JArr (map (fun x => match x with
                          | JUndefined => JNull
                          | _ => stringify x
                          end) items)
  | JObj fields => JObj (keepDefined stringify fields)
  | _ => v
  end.

(** The UTF-16 code units of the character that starts with the byte [c]
    of a UTF-8 text: one for a character of up to three bytes, two for a
    character of four bytes, none for a continuation byte. *)
Definition utf16Units (c : Ascii.ascii) : nat :=
  let n := Ascii.nat_of_ascii c in
  if (n <? 128)%nat then 1%nat
  else if (n <? 192)%nat then 0%nat
  else if (n <? 240)%nat then 1%nat
  else 2%nat.

(** [s.length]: the number of UTF-16 code units of the text. *)
Fixpoint jsLength (s : string) : nat :=
  match s with
  | EmptyString => 0%nat
  | String c r => (utf16Units c + jsLength r)%nat
  end.

Fixpoint zeros (n : nat) : string :=
  match n with
  | O => ""
  | S k => String.append "0" (zeros k)
  end.

(** [s.padStart(64, '0')]. *)
Definition padStart64 (s : string) : string :=
  String.append (zeros (64 - jsLength s)) s.

Definition MAJOR_CITIES : list string :=
  [ "Los Angeles, CA"; "New York, NY"; "Chicago, IL"; "Houston, TX";
    "Phoenix, AZ"; "Philadelphia, PA"; "San Antonio, TX"; "San Diego, CA";
    "Dallas, TX"; "San Jose, CA"; "Austin, TX"; "Jacksonville, FL";
    "Fort Worth, TX"; "Columbus, OH"; "Charlotte, NC"; "San Francisco, CA";
    "Indianapolis, IN"; "Seattle, WA"; "Denver, CO"; "Boston, MA";
    "Miami, FL"; "Atlanta, GA"; "Detroit, MI"; "Portland, OR";
    "Las Vegas, NV" ]%string.

Record Runtime : Type := mkRuntime {
  (** the type of the adjustment, a floating-point number *)
  Adj : Type;
  (** [Math.round(actualPrice * (1 + adjustment))] *)
  roundAdjusted : JsVal -> Adj -> JsNumber;
  (** [(adjustment * 100).toFixed(2)] *)
  percentFixed : Adj -> string;
  (** [v.toString()] and [v.toLocaleString()] on a value other than
      [undefined] and [null]; [None] when the call throws *)
  toStringOf : JsVal -> option string;
  toLocaleStringOf : JsVal -> option string;
  (** the message of the [TypeError] raised at a property or method *)
  typeErrorMessage : string -> string;
  (** the decimal text of an HTTP status *)
  showStatus : Z -> string
}.

(** What the upstream service did with the request. *)
Inductive Upstream : Type :=
| FetchThrows (message : string)
| HttpStatus (code : Z)
| BodyNotJson (message : string)
| Body (props : option (list JsVal)).

Record Env (rt : Runtime) : Type := mkEnv {
  cityIndex : nat;
  upstream : Upstream;
  listingIndex : nat;
  adjustment : Adj rt
}.

Arguments mkEnv {rt} _ _ _ _.
Arguments cityIndex {rt} _.
Arguments upstream {rt} _.
Arguments listingIndex {rt} _.
Arguments adjustment {rt} _.

Inductive Outcome (A : Type) : Type :=
| Returned (a : A)
| Thrown (message : string).

Arguments Returned {A} a.
Arguments Thrown {A} message.

Record Response : Type := mkResponse {
  status : Z;
  body : JsVal
}.

(** The fields of [listing] that are copied from the upstream listing. *)
Definition copiedFields : list string :=
  [ "zpid"; "address"; "imgSrc"; "bedrooms"; "bathrooms"; "livingArea";
    "homeType"; "latitude"; "longitude" ]%string.

Section Route.

Variable rt : Runtime.

(** A method call on a value: a [TypeError] on [undefined] and [null]. *)
Definition callToString (v : JsVal) : option string :=
  match v with
  | JUndefined | JNull => None
  | _ => toStringOf rt v
  end.

(** [MAJOR_CITIES[Math.floor(Math.random() * MAJOR_CITIES.length)]]. *)
Definition randomCity (e : Env rt) : JsVal :=
  match MAJOR_CITIES !! cityIndex e with
  | Some c => JStr c
  | None => JUndefined
  end.

(** The object of the [return] statement, with [z] the text of
    [randomListing.zpid.toString()]. *)
Definition successObject (e : Env rt) (randomListing : JsVal) (z : string)
    : JsVal :=
  let actualPrice := orZero (field randomListing "price") in
  let displayedPrice := ofNumber (roundAdjusted rt actualPrice (adjustment e)) in
  JObj
    [ ("success", JBool true);
      ("city", randomCity e);
      ("listing", JObj
         [ ("zpid", field randomListing "zpid");
           ("address", field randomListing "address");
           ("price", actualPrice);
           ("imgSrc", field randomListing "imgSrc");
           ("bedrooms", field randomListing "bedrooms");
           ("bathrooms", field randomListing "bathrooms");
           ("livingArea", field randomListing "livingArea");
           ("homeType", field randomListing "homeType");
           ("latitude", field randomListing "latitude");
           ("longitude", field randomListing "longitude") ]%string);
      ("contractData", JObj
         [ ("listingId", JStr (String.append "0x" (padStart64 z)));
           ("displayedPrice", displayedPrice);
           ("actualPrice", actualPrice) ]%string);
      ("priceInfo", JObj
         [ ("actual", actualPrice);
           ("displayed", displayedPrice);
           ("adjustmentPercent",
            JStr (percentFixed rt (adjustment e))) ]%string)
    ]%string.

(** The part of the [try] block after a listing was picked: reading
    [randomListing.price] throws on [undefined] and [null], then
    [actualPrice.toLocaleString()] is called for the log, then
    [randomListing.zpid.toString()] for the listing id. *)
Definition formatListing (e : Env rt) (randomListing : JsVal) : Outcome JsVal :=
  match randomListing with
  | JUndefined | JNull => Thrown (typeErrorMessage rt "price")
  | _ =>
      let actualPrice := orZero (field randomListing "price") in
      match toLocaleStringOf rt actualPrice with
      | None => Thrown (typeErrorMessage rt "toLocaleString")
      | Some _ =>
          match callToString (field randomListing "zpid") with
          | None => Thrown (typeErrorMessage rt "toString")
          | Some z => Returned (successObject e randomListing z)
          end
      end
  end.

(** The [try] block of [fetchRandomListing]. *)
Definition tryFetch (e : Env rt) : Outcome JsVal :=
  match upstream e with
  | FetchThrows m => Thrown m
  | HttpStatus code =>
      Thrown (String.append "RapidAPI responded with status: "
                (showStatus rt code))
  | BodyNotJson m => Thrown m
  | Body (Some (x :: r)) =>
      formatListing e (default JUndefined ((x :: r) !! listingIndex e))
  | Body _ => Thrown "No listings found in the response"
  end.

(** [fetchRandomListing]: the [catch] turns a throw into a failure object. *)
Definition fetchRandomListing (e : Env rt) : JsVal :=
  match tryFetch e with
  | Returned v => v
  | Thrown m => JObj [ ("success", JBool false); ("error", JStr m) ]%string
  end.

(** The handler of [GET /api/random-listing]; [res.json] sends its
    argument through [JSON.stringify]. *)
Definition randomListingRoute (e : Env rt) : Response :=
  let listing := fetchRandomListing e in
  if negb (truthy (field listing "success")) then
    mkResponse 500
      (stringify
         (JObj [ ("error", JStr "Failed to fetch listing");
                 ("details", field listing "error") ]%string))
  else mkResponse 200 (stringify listing).


End Route.



(** A text does not start with the digit 0. *)
Definition noLeadingZero (s : string) : Prop :=
  forall r, s <> String.append "0" r.

(** A runtime and some requests for concrete runs.  A method call throws
    on an object that has a property of the method's name, which a value
    parsed from JSON cannot call; the texts of numbers are plain decimal
    and those of arrays are left empty. *)
Definition showZ (n : Z) : string := NilZero.string_of_int (Z.to_int n).

Definition callMethod (name : string) (v : JsVal) : option string :=
  match v with
  | JStr s => Some s
  | JNum n => Some (showZ n)
  | JBool b => Some (if b then "true" else "false")%string
  | JNaN => Some "NaN"%string
  | JInfinity negative =>
      Some (if negative then "-Infinity" else "Infinity")%string
  | JObj fields =>
      match assoc name fields with
      | Some _ => None
      | None => Some "[object Object]"%string
      end
  | _ => Some ""%string
  end.

Definition plainRuntime : Runtime :=
  mkRuntime Z
    (fun v _ => match v with JNum n => Finite n | _ => NotANumber end)
    (fun _ => "0.00"%string)
    (callMethod "toString")
    (callMethod "toLocaleString")
    (fun k => String.append "Cannot read properties of undefined: " k)
    showZ.


Definition unavailable : Env plainRuntime :=
  mkEnv (rt := plainRuntime) 0%nat (HttpStatus 503) 0%nat 0.

Definition oneHouse : Env plainRuntime :=
  mkEnv (rt := plainRuntime) 2%nat
    (Body (Some [ JObj [ ("zpid", JNum 2077); ("price", JNum 450000);
                         ("address", JStr "1 Main St") ]%string ]))
    0%nat 0.

End Api.

(** * Further definitions: what the records and the event log look like *)
Module Lifecycle.

Import Zillopoly.

(** The field values a record can have at each stage. *)
Definition stageFields (g : Listing) : Prop :=
  match stage g with
  | NotStarted =>
      displayedPrice g = 0 /\ listingId g = 0 /\ actualPrice g = 0
      /\ higherOrLower g = false /\ won g = false /\ payout g = 0
  | Initialized =>
      0 < displayedPrice g /\ listingId g <> 0 /\ actualPrice g = 0
      /\ higherOrLower g = false /\ won g = false /\ payout g = 0
  | GuessSubmitted =>
      0 < displayedPrice g /\ listingId g <> 0 /\ actualPrice g = 0
      /\ won g = false /\ payout g = 0
  | Settled =>
      0 < displayedPrice g /\ listingId g <> 0 /\ 0 < actualPrice g
      /\ won g = playerWon (higherOrLower g) (actualPrice g) (displayedPrice g)
      /\ payout g = (if won g then GAME_COST * 2 else 0)
  end.

(** The id ranges announced by the [BatchGamesCreated] events of a log, in
    the order of emission. *)
Fixpoint batchRanges (evs : list Event) : list (Z * Z) :=
  match evs with
  | [] => []
  | BatchGamesCreated _ a b _ :: r => (a, b) :: batchRanges r
  | _ :: r => batchRanges r
  end.

(** The range of the batch number [k], counted from zero. *)
Definition nthRange (k : Z) : Z * Z :=
  (BATCH_SIZE * k + 1, BATCH_SIZE * k + BATCH_SIZE).

End Lifecycle.

(** * The HOBO token ([contracts/Hobo.sol])

    The constructor, [mint] and [burn] are those of the source; what they
    inherit from the imported ERC20 and Ownable bases ([_mint], [_burn],
    [approve], the transfers of module [Hobo], the owner) has the standard
    behaviour of those bases.  Amounts are [uint256] values. *)
Module HoboToken.

Import Hobo.

Definition MAX_SUPPLY : Z := 100000000 * 10 ^ 18.

Inductive Failure : Type :=
| RequireFailed (msg : string)
| ArithmeticPanic
| Unauthorized (account : address)
| InvalidOwner
| Erc20Error.

Inductive Res (A : Type) : Type :=
| Done (a : A)
| Failed (e : Failure).

Arguments Done {A} a.
Arguments Failed {A} e.

Record State : Type := mkState {
  ledger : Ledger;
  totalSupply : Z;
  tokenOwner : address
}.

(** [_mint] of the base: the total is increased with a checked addition. *)
Definition mintBase (to : address) (amount : Z) (st : State) : Res State :=
  if decide (to = 0) then Failed Erc20Error
  else if totalSupply st + amount <=? MAX_UINT256 then
    Done (mkState
            (mkLedger (<[to := balance to (ledger st) + amount]>
                         (balances (ledger st)))
               (allowances (ledger st)))
            (totalSupply st + amount) (tokenOwner st))
  else Failed ArithmeticPanic.

(** [_burn] of the base. *)
Definition burnBase (from : address) (amount : Z) (st : State) : Res State :=
  if decide (from = 0) then Failed Erc20Error
  else if balance from (ledger st) <? amount then Failed Erc20Error
  else
    Done (mkState
            (mkLedger (<[from := balance from (ledger st) - amount]>
                         (balances (ledger st)))
               (allowances (ledger st)))
            (totalSupply st - amount) (tokenOwner st)).

(** [approve] of the base. *)
Definition approveBase (holder spender : address) (amount : Z) (t : Ledger)
    : option Ledger :=
  if decide (holder = 0) then None
  else if decide (spender = 0) then None
  else Some (mkLedger (balances t)
               (<[(holder, spender) := amount]> (allowances t))).

(** [constructor(initialSupply)], sent by [deployer]. *)
Definition deploy (deployer : address) (initialSupply : Z) : Res State :=
  if decide (deployer = 0) then Failed InvalidOwner
  else if initialSupply <=? MAX_SUPPLY then
    mintBase deployer initialSupply (mkState (mkLedger ∅ ∅) 0 deployer)
  else Failed (RequireFailed "Initial supply exceeds max supply").

Definition mint (sender to : address) (amount : Z) (st : State) : Res State :=
  if decide (tokenOwner st = sender) then
    if totalSupply st + amount <=? MAX_UINT256 then
      if totalSupply st + amount <=? MAX_SUPPLY then mintBase to amount st
      else Failed (RequireFailed "Minting would exceed max supply")
    else Failed ArithmeticPanic
  else Failed (Unauthorized sender).

Definition burn (sender from : address) (amount : Z) (st : State) : Res State :=
  if decide (tokenOwner st = sender) then burnBase from amount st
  else Failed (Unauthorized sender).

Definition onLedger (st : State) (r : option Ledger) : Res State :=
  match r with
  | Some t => Done (mkState t (totalSupply st) (tokenOwner st))
  | None => Failed Erc20Error
  end.

Inductive Call : Type :=
| CMint (to : address) (amount : Z)
| CBurn (from : address) (amount : Z)
| CTransfer (to : address) (amount : Z)
| CTransferFrom (from to : address) (amount : Z)
| CApprove (spender : address) (amount : Z)
| CTransferOwnership (newOwner : address)
| CRenounceOwnership.

Definition amountOf (c : Call) : Z :=
  match c with
  | CMint _ a | CBurn _ a | CTransfer _ a | CTransferFrom _ _ a
  | CApprove _ a => a
  | _ => 0
  end.

Definition exec (c : Call) (sender : address) (st : State) : Res State :=
  match c with
  | CMint to amount => mint sender to amount st
  | CBurn from amount => burn sender from amount st
  | CTransfer to amount =>
      onLedger st (snd <$> transfer sender to amount (ledger st))
  | CTransferFrom from to amount =>
      onLedger st (snd <$> transferFrom sender from to amount (ledger st))
  | CApprove spender amount =>
      onLedger st (approveBase sender spender amount (ledger st))
  | CTransferOwnership newOwner =>
      if decide (tokenOwner st = sender) then
        if decide (newOwner = 0) then Failed InvalidOwner
        else Done (mkState (ledger st) (totalSupply st) newOwner)
      else Failed (Unauthorized sender)
  | CRenounceOwnership =>
      if decide (tokenOwner st = sender) then
        Done (mkState (ledger st) (totalSupply st) 0)
      else Failed (Unauthorized sender)
  end.

Definition run (c : Call) (sender : address) (st : State) : State :=
  match exec c sender st with
  | Done st' => st'
  | Failed _ => st
  end.

(** A transaction with a [uint256] amount. *)
Inductive step : State -> State -> Prop :=
| step_call (c : Call) (sender : address) (st : State) :
    0 <= amountOf c <= MAX_UINT256 ->
    step st (run c sender st).

Definition reachable (st : State) : Prop :=
  exists deployer initialSupply st0,
    0 <= initialSupply <= MAX_UINT256
    /\ deploy deployer initialSupply = Done st0
    /\ rtc step st0 st.

(** The sum of all balances. *)
Definition sumBalances (m : gmap Z Z) : Z :=
  map_fold (fun _ v acc => v + acc) 0 m.

(** The supply invariant: the total is the sum of the balances, no
    balance is negative, and the total is within the cap. *)
Record supplyOk (st : State) : Prop := mkSupplyOk {
  so_sum : totalSupply st = sumBalances (balances (ledger st));
  so_pos : forall a x, balances (ledger st) !! a = Some x -> 0 <= x;
  so_cap : totalSupply st <= MAX_SUPPLY
}.

(** A token after a few transactions: 1,000 minted at deployment, 500
    more minted to account [7], 200 of them burnt. *)
Definition sample : State :=
  run (CBurn 7 200) 1 (run (CMint 7 500) 1
    (match deploy 1 1000 with Done st => st | Failed _ => mkState (mkLedger ∅ ∅) 0 0 end)).

End HoboToken.

(** * The player's start script ([scripts/player-start-game.js])

    The transactions the script sends, on the reference ledger: an
    unlimited approval when the current allowance is below 10,000 HOBO,
    then [startGame], then one [getGame] per id of the announced range.
    A transaction that reverts makes the script throw ([None]). *)
Module StartScript.

Import Hobo HoboToken Zillopoly.

(** [hre.ethers.parseEther("10000")]. *)
Definition TEN_THOUSAND : Z := 10000 * 10 ^ 18.

Record Report : Type := mkReport {
  startGameId : Z;
  endGameId : Z;
  games : list Listing;
  spent : Z;
  after : @World Ledger
}.

(** Step 1: approve when the allowance is too small. *)
Definition approveStep (zillopoly player : address) (w : @World Ledger)
    : option (@World Ledger) :=
  if allowance player zillopoly (token w) <? TEN_THOUSAND then
    match approveBase player zillopoly MAX_UINT256 (token w) with
    | Some t => Some (mkWorld (store w) t (events w))
    | None => None
    end
  else Some w.

(** Step 3: [getGame(i)] for [i] from the first to the last id. *)
Fixpoint readGames (ids : list Z) (w : @World Ledger) : option (list Listing) :=
  match ids with
  | [] => Some []
  | i :: r =>
      match getGame i w with
      | Ok (g, _) =>
          match readGames r w with
          | Some gs => Some (g :: gs)
          | None => None
          end
      | Revert _ => None
      end
  end.

Definition playerStartGame (zillopoly player : address) (now : Z)
    (w : @World Ledger) : option Report :=
  let hoboBalance := balance player (token w) in
  match approveStep zillopoly player w with
  | None => None
  | Some w1 =>
      match startGame zillopoly player now w1 with
      | Revert _ => None
      | Ok ((first, last), w2) =>
          match readGames (seqZ first (last - first + 1)) w2 with
          | None => None
          | Some gs =>
              Some (mkReport first last gs
                      (hoboBalance - balance player (token w2)) w2)
          end
      end
  end.

End StartScript.

(** * The installer ([install-cre.sh])

    The retry loop of the script.  [install i] says whether the download
    and install command of attempt [i] succeeds; the result is the exit
    code, the number of attempts made and the seconds slept in between. *)
Module Installer.

Definition MAX_RETRIES : nat := 5.

Record Exit : Type := mkExit {
  code : Z;
  tries : nat;
  waited : Z
}.

(** The [for] loop over the attempt numbers [nums], with the current
    [RETRY_DELAY]. *)
Fixpoint attempts (nums : list nat) (made : nat) (delay slept : Z)
    (install : nat -> bool) : Exit :=
  match nums with
  | [] => mkExit 0 made slept
  | i :: rest =>
      if install i then mkExit 0 i slept
      else if (i <? MAX_RETRIES)%nat then
        attempts rest i (delay * 2) (slept + delay) install
      else mkExit 1 i slept
  end.

Definition installCre (install : nat -> bool) : Exit :=
  attempts (seq 1 MAX_RETRIES) 0 10 0 install.

End Installer.

(** * The single-game variant of the contract ([unnamed/part_000])

    The earlier contract, whose [startGame(listingId, displayedPrice)]
    takes the stake of one game and creates it already initialized.  Its
    records and storage are those of the batch variant; its functions are
    written out again, as they are in the source, over its own event
    type. *)
Module ZillopolySingle.

Import Zillopoly.

Inductive Event : Type :=
| GameStarted (eId : Z) (ePlayer : address) (eListing ePrice eTime : Z)
| GuessMade (eId : Z) (ePlayer : address) (eGuess : bool)
| BetSettled (eId : Z) (ePlayer : address) (eDisplayed eActual : Z)
    (eGuess eWon : bool) (ePayout : Z).

(** The storage after the three pushes of [startGame] and the increment
    of the counter. *)
Definition pushGame (g : Listing) (s : Storage) : Storage :=
  mkStorage (owner s) (nextGameId s + 1)
    (<[player g := listingsOf s (player g) ++ [g]]> (playerListings s))
    (<[nextGameId s := g]> (gameById s))
    (allGames s ++ [g]).

(** The storage before and after any call of this variant. *)
Inductive storeStep : Storage -> Storage -> Prop :=
| ss_quiet (s s' : Storage) : quietStep s s' -> storeStep s s'
| ss_start (s : Storage) (sender now lid price : Z) :
    lid <> 0 -> 0 < price -> nextGameId s + 1 <= MAX_UINT256 ->
    storeStep s
      (pushGame (mkListing (nextGameId s) price 0 false lid sender now
                   Initialized false 0) s).

Section Contract.

Context {T : Type} `{Tok : IERC20 T}.

Variable self : address.

Record World : Type := mkWorld {
  store : Storage;
  token : T;
  events : list Event
}.

Definition M (A : Type) : Type := World -> Result (A * World).

Definition ret {A : Type} (a : A) : M A := fun w => Ok (a, w).

Definition bind {A B : Type} (m : M A) (k : A -> M B) : M B :=
  fun w => match m w with
           | Ok (a, w') => k a w'
           | Revert e => Revert e
           end.

Notation "x <- m ;; k" := (bind m (fun x => k))
  (at level 100, m at next level, right associativity).
Notation "m ;; k" := (bind m (fun _ => k))
  (at level 100, right associativity).

Definition revert {A : Type} (e : Error) : M A := fun _ => Revert e.

Definition require (b : bool) (msg : string) : M unit :=
  if b then ret tt else revert (RequireFailed msg).

Definition checkedAdd (a b : Z) : M Z :=
  if a + b <=? MAX_UINT256 then ret (a + b) else revert ArithmeticPanic.

Definition getStore : M Storage := fun w => Ok (store w, w).

Definition putStore (s : Storage) : M unit :=
  fun w => Ok (tt, mkWorld s (token w) (events w)).

Definition emit (e : Event) : M unit :=
  fun w => Ok (tt, mkWorld (store w) (token w) (events w ++ [e])).

Definition callTransferFrom (from to : address) (amount : Z) : M bool :=
  fun w => match transferFrom self from to amount (token w) with
           | Some (b, t') => Ok (b, mkWorld (store w) t' (events w))
           | None => Revert CalleeReverted
           end.

Definition callTransfer (to : address) (amount : Z) : M bool :=
  fun w => match transfer self to amount (token w) with
           | Some (b, t') => Ok (b, mkWorld (store w) t' (events w))
           | None => Revert CalleeReverted
           end.

Definition callBalanceOf (a : address) : M Z :=
  fun w => Ok (balanceOf a (token w), w).

Definition getNextGameId : M Z := s <- getStore ;; ret (nextGameId s).

Definition setNextGameId (n : Z) : M unit :=
  s <- getStore ;;
  putStore (mkStorage (owner s) n (playerListings s) (gameById s) (allGames s)).

Definition readGame (id : Z) : M Listing := s <- getStore ;; ret (gameAt s id).

Definition writeGame (id : Z) (g : Listing) : M unit :=
  s <- getStore ;; putStore (setGame id g s).

Definition modifyGame (id : Z) (f : Listing -> Listing) : M unit :=
  g <- readGame id ;; writeGame id (f g).

Definition pushPlayerListing (p : address) (g : Listing) : M unit :=
  s <- getStore ;;
  putStore (mkStorage (owner s) (nextGameId s)
              (<[p := listingsOf s p ++ [g]]> (playerListings s))
              (gameById s) (allGames s)).

Definition pushAllGames (g : Listing) : M unit :=
  s <- getStore ;;
  putStore (mkStorage (owner s) (nextGameId s) (playerListings s)
              (gameById s) (allGames s ++ [g])).

Definition onlyOwner (sender : address) : M unit :=
  s <- getStore ;;
  if decide (owner s = sender) then ret tt
  else revert (OwnableUnauthorizedAccount sender).

Definition requireValidId (id : Z) : M unit :=
  n <- getNextGameId ;;
  require ((0 <? id) && (id <? n)) "Invalid game ID".

(** *** startGame *)

Definition startGame (sender : address) (now lid price : Z) : M Z :=
  require (negb (lid =? 0)) "Invalid listing ID" ;;
  require (0 <? price) "Displayed price must be > 0" ;;
  ok <- callTransferFrom sender self GAME_COST ;;
  require ok "Transfer failed" ;;
  id <- getNextGameId ;;
  let newListing :=
    mkListing id price 0 false lid sender now Initialized false 0 in
  pushPlayerListing sender newListing ;;
  writeGame id newListing ;;
  pushAllGames newListing ;;
  emit (GameStarted id sender lid price now) ;;
  currentGameId <- getNextGameId ;;
  next <- checkedAdd currentGameId 1 ;;
  setNextGameId next ;;
  ret currentGameId.

Definition _updateListingInArrays (id : Z) : M unit :=
  s <- getStore ;; putStore (syncArrays id s).

(** *** makeGuess *)

Definition makeGuess (sender : address) (id : Z) (isHigher : bool) : M unit :=
  requireValidId id ;;
  game <- readGame id ;;
  require (bool_decide (player game = sender)) "Not your game" ;;
  require (bool_decide (stage game = Initialized)) "Game not in guess stage" ;;
  modifyGame id (set_higherOrLower isHigher) ;;
  modifyGame id (set_stage GuessSubmitted) ;;
  _updateListingInArrays id ;;
  emit (GuessMade id sender isHigher).

(** *** settleBet *)

Definition settleBet (sender : address) (id actual : Z) : M unit :=
  onlyOwner sender ;;
  requireValidId id ;;
  require (0 <? actual) "Actual price must be > 0" ;;
  game <- readGame id ;;
  require (bool_decide (stage game = GuessSubmitted))
    "Game not ready for settlement" ;;
  modifyGame id (set_actualPrice actual) ;;
  game <- readGame id ;;
  let w := playerWon (higherOrLower game) actual (displayedPrice game) in
  modifyGame id (set_won w) ;;
  modifyGame id (set_stage Settled) ;;
  (if w then
     modifyGame id (set_payout (GAME_COST * 2)) ;;
     game <- readGame id ;;
     ok <- callTransfer (player game) (payout game) ;;
     require ok "Payout failed"
   else
     modifyGame id (set_payout 0)) ;;
  _updateListingInArrays id ;;
  game <- readGame id ;;
  emit (BetSettled id (player game) (displayedPrice game) actual
          (higherOrLower game) w (payout game)).

(** *** Views and owner operations *)

Definition getGame (id : Z) : M Listing :=
  requireValidId id ;;
  readGame id.

Definition getTotalGames : M Z :=
  s <- getStore ;; ret (Z.of_nat (length (allGames s))).

Definition getPlayerListings (p : address) : M (list Listing) :=
  s <- getStore ;; ret (listingsOf s p).

Definition withdrawFunds (sender : address) (amount : Z) : M unit :=
  onlyOwner sender ;;
  bal <- callBalanceOf self ;;
  require (amount <=? bal) "Insufficient balance" ;;
  ok <- callTransfer sender amount ;;
  require ok "Transfer failed".

Definition setOwner (a : address) : M unit :=
  s <- getStore ;;
  putStore (mkStorage a (nextGameId s) (playerListings s) (gameById s)
              (allGames s)).

(** Inherited from the imported [Ownable] base, as in the batch variant. *)
Definition transferOwnership (sender newOwner : address) : M unit :=
  onlyOwner sender ;;
  if decide (newOwner = 0) then revert (OwnableInvalidOwner 0)
  else setOwner newOwner.

Definition renounceOwnership (sender : address) : M unit :=
  onlyOwner sender ;;
  setOwner 0.

(** ** Transactions *)

Inductive Call : Type :=
| CStartGame (lid price : Z)
| CMakeGuess (id : Z) (isHigher : bool)
| CSettleBet (id actual : Z)
| CWithdrawFunds (amount : Z)
| CTransferOwnership (newOwner : address)
| CRenounceOwnership.

Definition dispatch (c : Call) (sender : address) (now : Z) : M unit :=
  match c with
  | CStartGame lid price => startGame sender now lid price ;; ret tt
  | CMakeGuess id isHigher => makeGuess sender id isHigher
  | CSettleBet id actual => settleBet sender id actual
  | CWithdrawFunds amount => withdrawFunds sender amount
  | CTransferOwnership newOwner => transferOwnership sender newOwner
  | CRenounceOwnership => renounceOwnership sender
  end.

Definition transact (c : Call) (sender : address) (now : Z) (w : World) : World :=
  match dispatch c sender now w with
  | Ok (_, w') => w'
  | Revert _ => w
  end.

Inductive step : World -> World -> Prop :=
| step_call (c : Call) (sender : address) (now : Z) (w : World) :
    step w (transact c sender now w)
| step_token (w : World) (t' : T) :
    step w (mkWorld (store w) t' (events w)).

Definition initial (deployer : address) (t0 : T) : World :=
  mkWorld (mkStorage deployer 1 ∅ ∅ []) t0 [].

Definition reachable (w : World) : Prop :=
  exists (deployer : address) (t0 : T), rtc step (initial deployer t0) w.

End Contract.

(** A run of this variant on the reference ledger: two games started by
    player [7], the first guessed and settled as a win. *)
Definition v0 : @World Hobo.Ledger :=
  initial 1 (Hobo.mkLedger {[ 7 := 5000 * 10 ^ 18 ]}
               {[ (7, 99) := MAX_UINT256 ]}).
Definition v1 : @World Hobo.Ledger := transact 99 (CStartGame 555 300000) 7 1000 v0.
Definition v2 : @World Hobo.Ledger := transact 99 (CStartGame 556 410000) 7 1001 v1.
Definition v3 : @World Hobo.Ledger := transact 99 (CMakeGuess 1 false) 7 1002 v2.
Definition v4 : @World Hobo.Ledger := transact 99 (CSettleBet 1 250000) 1 1003 v3.

End ZillopolySingle.

(** * More requests for concrete runs of the proxy *)
Module ApiSamples.

Import Api.

(** An upstream answer whose only listing has no [zpid]. *)
Definition noZpid : Env plainRuntime :=
  mkEnv (rt := plainRuntime) 1%nat
    (Body (Some [ JObj [ ("price", JNum 450000) ]%string ]))
    0%nat 0.




(** An upstream answer whose only listing has a text as [price]. *)
Definition textPrice : Env plainRuntime :=
  mkEnv (rt := plainRuntime) 1%nat
    (Body (Some [ JObj [ ("zpid", JNum 31);
                         ("price", JStr "on request") ]%string ]))
    0%nat 0.

End ApiSamples.

Import Zillopoly.

(** * Properties of the game contract *)

(** ** Storage lemmas *)

Lemma gameAt_setGame_eq (id : Z) (g : Listing) (s : Storage) :
  gameAt (setGame id g s) id = g.
Proof. unfold gameAt, setGame; simpl. by rewrite lookup_insert_eq. Qed.

Lemma gameAt_setGame_ne (id j : Z) (g : Listing) (s : Storage) :
  id <> j -> gameAt (setGame id g s) j = gameAt s j.
Proof. intros Hne. unfold gameAt, setGame; simpl. by rewrite lookup_insert_ne. Qed.

Lemma setGame_setGame (id : Z) (g1 g2 : Listing) (s : Storage) :
  setGame id g2 (setGame id g1 s) = setGame id g2 s.
Proof. unfold setGame; simpl. by rewrite insert_insert_eq. Qed.

Lemma gameAt_syncArrays (id j : Z) (s : Storage) :
  gameAt (syncArrays id s) j = gameAt s j.
Proof. reflexivity. Qed.

Lemma nextGameId_sync_set (id : Z) (g : Listing) (s : Storage) :
  nextGameId (syncArrays id (setGame id g s)) = nextGameId s.
Proof. reflexivity. Qed.

Lemma owner_sync_set (id : Z) (g : Listing) (s : Storage) :
  owner (syncArrays id (setGame id g s)) = owner s.
Proof. reflexivity. Qed.

Lemma gameAt_sync_set (id j : Z) (g : Listing) (s : Storage) :
  gameAt (syncArrays id (setGame id g s)) j =
  if decide (id = j) then g else gameAt s j.
Proof.
  rewrite gameAt_syncArrays. destruct (decide (id = j)) as [->|Hne].
  - apply gameAt_setGame_eq.
  - by apply gameAt_setGame_ne.
Qed.

(** ** The scan of [_updateListingInArrays] *)

Lemma updateFirst_fmap (id : Z) (g' : Listing) (f : Z -> Listing) (ids : list Z) :
  NoDup ids ->
  (forall i, i ∈ ids -> gameId (f i) = i) ->
  updateFirst id g' (f <$> ids) =
  (fun i => if decide (i = id) then g' else f i) <$> ids.
Proof.
  induction ids as [|a ids IH]; intros Hnd Hid; [done|].
  apply NoDup_cons in Hnd as [Hnotin Hnd].
  rewrite !fmap_cons. cbn [updateFirst].
  rewrite (Hid a) by set_solver.
  destruct (decide (a = id)) as [->|Hne].
  - f_equal. apply list_fmap_ext. intros i x Hx.
    destruct (decide (x = id)) as [->|]; [|done].
    exfalso. apply Hnotin. by eapply list_elem_of_lookup_2.
  - f_equal. apply IH; [done|]. intros i Hi. apply Hid. set_solver.
Qed.

Lemma updateFirst_filter_in (P : Listing -> Prop) `{!forall x, Decision (P x)}
    (id : Z) (g' : Listing) (l : list Listing) :
  P g' ->
  (forall x, x ∈ l -> gameId x = id -> P x) ->
  filter P (updateFirst id g' l) = updateFirst id g' (filter P l).
Proof.
  intros Hg'. induction l as [|x l IH]; intros Hl; [done|].
  cbn [updateFirst]. destruct (decide (gameId x = id)) as [Hx|Hx].
  - rewrite filter_cons_True by done.
    rewrite (filter_cons_True P x) by (apply Hl; [set_solver|done]).
    cbn [updateFirst]. by rewrite decide_True.
  - rewrite !filter_cons. destruct (decide (P x)).
    + cbn [updateFirst]. rewrite decide_False by done.
      f_equal. apply IH. intros y Hy. apply Hl. set_solver.
    + apply IH. intros y Hy. apply Hl. set_solver.
Qed.

Lemma updateFirst_filter_out (P : Listing -> Prop) `{!forall x, Decision (P x)}
    (id : Z) (g' : Listing) (l : list Listing) :
  ~ P g' ->
  (forall x, x ∈ l -> gameId x = id -> ~ P x) ->
  filter P (updateFirst id g' l) = filter P l.
Proof.
  intros Hg'. induction l as [|x l IH]; intros Hl; [done|].
  cbn [updateFirst]. destruct (decide (gameId x = id)) as [Hx|Hx].
  - rewrite filter_cons_False by done.
    rewrite filter_cons_False; [done|]. apply Hl; [set_solver|done].
  - rewrite !filter_cons. destruct (decide (P x)).
    + f_equal. apply IH. intros y Hy. apply Hl. set_solver.
    + apply IH. intros y Hy. apply Hl. set_solver.
Qed.

Lemma length_updateFirst (id : Z) (g' : Listing) (l : list Listing) :
  length (updateFirst id g' l) = length l.
Proof.
  induction l as [|x l IH]; [done|]. cbn [updateFirst].
  destruct (decide (gameId x = id)); simpl; congruence.
Qed.

(** ** What a committed call does to a record and to the storage *)

Lemma gameStep_gameId (g g' : Listing) : gameStep g g' -> gameId g' = gameId g.
Proof. by intros []. Qed.

Lemma gameStep_player (g g' : Listing) : gameStep g g' -> player g' = player g.
Proof. by intros []. Qed.

Lemma gameStep_stage (g g' : Listing) :
  gameStep g g' -> stageIndex (stage g') = stageIndex (stage g) + 1.
Proof. intros [g0 ? ? ->|g0 ? ->|g0 ? -> ?]; reflexivity. Qed.

(** ** The consistency invariant *)

Lemma consistent_addSlot (sender now : Z) (s : Storage) :
  consistent s ->
  nextGameId s + 1 <= MAX_UINT256 ->
  consistent (addSlot sender now s).
Proof.
  intros [Hn Hall Hid Hfresh Hpl] Hle.
  set (n := nextGameId s) in *.
  assert (Hold : forall j, j <> n -> gameAt (addSlot sender now s) j = gameAt s j).
  { intros j Hj. unfold gameAt, addSlot; simpl. by rewrite lookup_insert_ne. }
  assert (Hnew : gameAt (addSlot sender now s) n = newListing n sender now).
  { unfold gameAt, addSlot; simpl. by rewrite lookup_insert_eq. }
  split.
  - simpl. lia.
  - simpl. fold n. rewrite Hall.
    replace (n + 1 - 1) with ((n - 1) + 1) by lia.
    rewrite seqZ_app by lia. rewrite fmap_app.
    replace (1 + (n - 1)) with n by lia.
    rewrite (seqZ_cons n 1) by lia. rewrite (seqZ_nil (Z.succ n)) by lia.
    rewrite fmap_cons, fmap_nil, Hnew. f_equal.
    apply list_fmap_ext. intros i x Hx. symmetry. apply Hold.
    apply list_elem_of_lookup_2, elem_of_seqZ in Hx. lia.
  - simpl. fold n. intros j Hj. destruct (decide (j = n)) as [->|Hne].
    + by rewrite Hnew.
    + rewrite Hold by done. apply Hid. fold n. lia.
  - simpl. fold n. intros j Hj. rewrite lookup_insert_ne by lia.
    apply Hfresh. fold n. lia.
  - intros p. unfold listingsOf at 1. simpl. fold n.
    rewrite filter_app. destruct (decide (sender = p)) as [->|Hne].
    + rewrite lookup_insert_eq. simpl. rewrite Hpl.
      by rewrite (filter_cons_True _ (newListing n p now)).
    + rewrite lookup_insert_ne by done.
      rewrite (filter_cons_False _ (newListing n sender now)) by done.
      rewrite filter_nil, app_nil_r. apply Hpl.
Qed.

Lemma consistent_addSlots (k : nat) (sender now : Z) (s : Storage) :
  consistent s ->
  nextGameId s + Z.of_nat k <= MAX_UINT256 ->
  consistent (addSlots k sender now s).
Proof.
  revert s. induction k as [|k IH]; intros s Hc Hle; [done|].
  simpl. apply IH.
  - apply consistent_addSlot; [done|lia].
  - simpl. lia.
Qed.

Lemma consistent_sync_set (id : Z) (g' : Listing) (s : Storage) :
  consistent s ->
  0 < id < nextGameId s ->
  gameId g' = gameId (gameAt s id) ->
  player g' = player (gameAt s id) ->
  consistent (syncArrays id (setGame id g' s)).
Proof.
  intros [Hn Hall Hid Hfresh Hpl] Hrange Hgid Hgp.
  rewrite (Hid id) in Hgid by lia.
  assert (Hin : forall x, x ∈ allGames s -> gameId x = id -> x = gameAt s id).
  { intros x Hx Hxid. rewrite Hall in Hx.
    apply list_elem_of_fmap in Hx as (j & -> & Hj).
    apply elem_of_seqZ in Hj. rewrite Hid in Hxid by lia. by subst. }
  assert (Hall' : allGames (syncArrays id (setGame id g' s)) =
                  updateFirst id g' (allGames s)).
  { unfold syncArrays. cbn [allGames]. by rewrite gameAt_setGame_eq. }
  split.
  - rewrite nextGameId_sync_set. done.
  - rewrite nextGameId_sync_set, Hall', Hall.
    rewrite updateFirst_fmap.
    + apply list_fmap_ext. intros i x Hx. rewrite gameAt_sync_set.
      destruct (decide (x = id)), (decide (id = x)); congruence.
    + apply NoDup_seqZ.
    + intros i Hi. apply elem_of_seqZ in Hi. apply Hid. lia.
  - rewrite nextGameId_sync_set. intros j Hj. rewrite gameAt_sync_set.
    destruct (decide (id = j)) as [<-|]; [done|by apply Hid].
  - rewrite nextGameId_sync_set. intros j Hj.
    unfold syncArrays, setGame. cbn [gameById].
    rewrite lookup_insert_ne by lia. by apply Hfresh.
  - intros p. rewrite Hall'. unfold listingsOf, syncArrays at 1.
    cbn [playerListings]. rewrite gameAt_setGame_eq.
    unfold setGame at 1. cbn [playerListings].
    destruct (decide (player g' = p)) as [Hp|Hp].
    + rewrite Hp, lookup_alter_eq.
      rewrite updateFirst_filter_in.
      * rewrite <- Hpl. unfold listingsOf.
        by destruct (playerListings s !! p).
      * done.
      * intros x Hx Hxid. rewrite (Hin x Hx Hxid). congruence.
    + rewrite lookup_alter_ne by done.
      rewrite updateFirst_filter_out; [apply Hpl|done|].
      intros x Hx Hxid. rewrite (Hin x Hx Hxid). congruence.
Qed.

Lemma consistent_storeStep (s s' : Storage) :
  storeStep s s' -> consistent s -> consistent s'.
Proof.
  intros [s0 s1 [s2|s2 id g' Hid Hg|s2 o]|s0 sender now Hfit] Hc.
  - done.
  - apply consistent_sync_set; [done|done|..].
    + by apply gameStep_gameId.
    + by apply gameStep_player.
  - destruct Hc as [Hn Hall Hid Hfresh Hpl]. by split.
  - apply consistent_addSlots; [done|].
    change (Z.of_nat (Z.to_nat BATCH_SIZE)) with BATCH_SIZE. lia.
Qed.

(** ** The batch loop *)

Lemma batch_cons (n : Z) (k : nat) (sender now : Z) :
  batch n (Z.of_nat (S k)) sender now =
  newListing n sender now :: batch (n + 1) (Z.of_nat k) sender now.
Proof.
  unfold batch. rewrite seqZ_cons by lia. rewrite fmap_cons.
  by replace (Z.pred (Z.of_nat (S k))) with (Z.of_nat k) by lia.
Qed.

Lemma nextGameId_addSlots (k : nat) (sender now : Z) (s : Storage) :
  nextGameId (addSlots k sender now s) = nextGameId s + Z.of_nat k.
Proof.
  revert s. induction k as [|k IH]; intros s; simpl; [lia|].
  rewrite IH. simpl. lia.
Qed.

Lemma owner_addSlots (k : nat) (sender now : Z) (s : Storage) :
  owner (addSlots k sender now s) = owner s.
Proof. revert s. induction k as [|k IH]; intros s; [done|]. simpl. by rewrite IH. Qed.

Lemma allGames_addSlots (k : nat) (sender now : Z) (s : Storage) :
  allGames (addSlots k sender now s) =
  allGames s ++ batch (nextGameId s) (Z.of_nat k) sender now.
Proof.
  revert s. induction k as [|k IH]; intros s.
  - simpl. by rewrite app_nil_r.
  - cbn [addSlots]. rewrite IH, batch_cons. simpl. by rewrite <- app_assoc.
Qed.

Lemma gameById_addSlots (k : nat) (sender now : Z) (s : Storage) (id : Z) :
  gameById (addSlots k sender now s) !! id =
  if decide (nextGameId s <= id < nextGameId s + Z.of_nat k)
  then Some (newListing id sender now)
  else gameById s !! id.
Proof.
  revert s. induction k as [|k IH]; intros s.
  - simpl. rewrite decide_False by lia. done.
  - cbn [addSlots]. rewrite IH. simpl.
    destruct (decide (nextGameId s = id)) as [<-|Hne].
    + rewrite decide_False by lia. rewrite decide_True by lia.
      by rewrite lookup_insert_eq.
    + rewrite lookup_insert_ne by done.
      destruct (decide (nextGameId s + 1 <= id < _)),
               (decide (nextGameId s <= id < _)); first [done|lia].
Qed.

Lemma listingsOf_addSlots (k : nat) (sender now : Z) (s : Storage) :
  listingsOf (addSlots k sender now s) sender =
  listingsOf s sender ++ batch (nextGameId s) (Z.of_nat k) sender now.
Proof.
  revert s. induction k as [|k IH]; intros s.
  - simpl. by rewrite app_nil_r.
  - cbn [addSlots]. rewrite IH, batch_cons. unfold listingsOf at 1. simpl.
    rewrite lookup_insert_eq. simpl. by rewrite <- app_assoc.
Qed.

Lemma playerListings_addSlots (k : nat) (sender now : Z) (s : Storage) (p : Z) :
  p <> sender ->
  playerListings (addSlots k sender now s) !! p = playerListings s !! p.
Proof.
  intros Hne. revert s. induction k as [|k IH]; intros s; [done|].
  cbn [addSlots]. rewrite IH. simpl. by rewrite lookup_insert_ne.
Qed.

Lemma gameAt_addSlots_old (k : nat) (sender now : Z) (s : Storage) (id : Z) :
  id < nextGameId s ->
  gameAt (addSlots k sender now s) id = gameAt s id.
Proof.
  intros Hlt. unfold gameAt. rewrite gameById_addSlots.
  by rewrite decide_False by lia.
Qed.

(** ** The life cycle of one record *)

Lemma quietStep_next (s s' : Storage) :
  quietStep s s' ->
  nextGameId s' = nextGameId s /\ length (allGames s') = length (allGames s).
Proof.
  intros [s0|s0 id g' Hid Hg|s0 o]; [done| |done].
  split; [done|]. unfold syncArrays. cbn [allGames].
  by rewrite length_updateFirst.
Qed.

Lemma storeStep_next (s s' : Storage) :
  storeStep s s' ->
  nextGameId s' = nextGameId s \/ nextGameId s' = nextGameId s + BATCH_SIZE.
Proof.
  intros [s0 s1 Hq|s0 sender now Hfit].
  - left. by apply quietStep_next.
  - right. by rewrite nextGameId_addSlots.
Qed.

Lemma storeStep_existing (s s' : Storage) (id : Z) :
  storeStep s s' ->
  id < nextGameId s ->
  gameAt s' id = gameAt s id \/ gameStep (gameAt s id) (gameAt s' id).
Proof.
  intros [s0 s1 [s2|s2 j g' Hj Hg|s2 o]|s0 sender now Hfit] Hid.
  - by left.
  - rewrite gameAt_sync_set. destruct (decide (j = id)) as [->|]; [by right|by left].
  - by left.
  - left. by apply gameAt_addSlots_old.
Qed.

Lemma gameStep_not_settled (g g' : Listing) : gameStep g g' -> stage g <> Settled.
Proof. intros [g0 ? ? H|g0 ? H|g0 ? H ?]; rewrite H; discriminate. Qed.

Lemma gameStep_started (g g' : Listing) : gameStep g g' -> stage g' <> NotStarted.
Proof. by intros []. Qed.

Lemma gameStep_displayedPrice (g g' : Listing) :
  gameStep g g' -> stage g <> NotStarted ->
  displayedPrice g' = displayedPrice g /\ listingId g' = listingId g.
Proof. by intros []. Qed.

Lemma gameAt_addSlots (k : nat) (sender now : Z) (s : Storage) (id : Z) :
  gameAt (addSlots k sender now s) id =
  if decide (nextGameId s <= id < nextGameId s + Z.of_nat k)
  then newListing id sender now
  else gameAt s id.
Proof.
  unfold gameAt. rewrite gameById_addSlots. by destruct (decide _).
Qed.

Lemma payoutRule_storeStep (s s' : Storage) :
  storeStep s s' ->
  (forall id, payoutRule (gameAt s id)) ->
  forall id, payoutRule (gameAt s' id).
Proof.
  intros [s0 s1 [s2|s2 j g' Hj Hg|s2 o]|s0 sender now Hfit] Hall id.
  - apply Hall.
  - rewrite gameAt_sync_set. destruct (decide (j = id)) as [->|]; [|apply Hall].
    inversion Hg as [g0 lid price|g0 h|g0 actual]; subst; unfold payoutRule.
    + discriminate.
    + discriminate.
    + intros _. reflexivity.
  - apply Hall.
  - rewrite gameAt_addSlots. destruct (decide _); [|apply Hall].
    unfold payoutRule. discriminate.
Qed.

(** ** Lists read off the ledger *)

Lemma filter_fmap_comm {A B : Type} (f : A -> B) (P : B -> Prop)
    `{!forall y, Decision (P y)} (l : list A) :
  filter P (f <$> l) = f <$> filter (fun x => P (f x)) l.
Proof.
  induction l as [|x l IH]; [done|].
  rewrite fmap_cons, !filter_cons. destruct (decide (P (f x))).
  - by rewrite fmap_cons, IH.
  - done.
Qed.

Lemma countStage_filter (st : GameStage) (l : list Listing) :
  countStage st l = Z.of_nat (length (filter (fun g => stage g = st) l)).
Proof.
  induction l as [|x l IH]; [done|].
  cbn [countStage]. rewrite filter_cons, IH.
  destruct (decide (stage x = st)); cbn [length]; lia.
Qed.

Lemma consistent_lookup (s : Storage) (id : Z) :
  consistent s -> 0 < id < nextGameId s ->
  gameById s !! id = Some (gameAt s id).
Proof.
  intros Hc Hid. pose proof (cons_id _ Hc id) as Hgid.
  unfold gameAt in *. destruct (gameById s !! id); [done|].
  simpl in Hgid. lia.
Qed.

Lemma consistent_ids (s : Storage) :
  consistent s -> gameId <$> allGames s = seqZ 1 (nextGameId s - 1).
Proof.
  intros Hc. rewrite (cons_all _ Hc), <- list_fmap_compose.
  rewrite <- (list_fmap_id (seqZ 1 _)) at 2.
  apply list_fmap_ext. intros i x Hx. simpl.
  apply list_elem_of_lookup_2, elem_of_seqZ in Hx.
  apply (cons_id _ Hc). lia.
Qed.

Lemma consistent_elem (s : Storage) (g : Listing) :
  consistent s -> g ∈ allGames s ->
  g = gameAt s (gameId g) /\ 0 < gameId g < nextGameId s.
Proof.
  intros Hc Hg. rewrite (cons_all _ Hc) in Hg.
  apply list_elem_of_fmap in Hg as (j & -> & Hj). apply elem_of_seqZ in Hj.
  rewrite (cons_id _ Hc) by lia. split; [done|lia].
Qed.

Section Properties.

Context {T : Type} `{Tok : IERC20 T}.
Variable self : address.

(** ** What each function computes *)

Lemma initializeGame_run (sender now id lid price : Z) (w : @World T) :
  initializeGame sender now id lid price w =
  let s := store w in
  let g := gameAt s id in
  if decide (owner s = sender) then
    if (0 <? id) && (id <? nextGameId s) then
      if negb (lid =? 0) then
        if 0 <? price then
          if bool_decide (stage g = NotStarted) then
            Ok (tt, mkWorld (syncArrays id (setGame id (initGame lid price g) s))
                      (token w)
                      (events w ++ [GameInitialized id (player g) lid price now]))
          else Revert (RequireFailed "Game already initialized")
        else Revert (RequireFailed "Displayed price must be > 0")
      else Revert (RequireFailed "Invalid listing ID")
    else Revert (RequireFailed "Invalid game ID")
  else Revert (OwnableUnauthorizedAccount sender).
Proof.
  unfold initializeGame, onlyOwner, requireValidId, getNextGameId, readGame,
    modifyGame, readGame, writeGame, _updateListingInArrays, emit, require,
    getStore, putStore, revert, bind, ret; simpl.
  destruct (decide (owner (store w) = sender)); simpl; [|done].
  destruct ((0 <? id) && (id <? nextGameId (store w))); simpl; [|done].
  destruct (negb (lid =? 0)); simpl; [|done].
  destruct (0 <? price); simpl; [|done].
  destruct (bool_decide (stage (gameAt (store w) id) = NotStarted)); simpl; [|done].
  rewrite !gameAt_setGame_eq, !setGame_setGame.
  rewrite gameAt_syncArrays, gameAt_setGame_eq.
  reflexivity.
Qed.

Lemma makeGuess_run (sender id : Z) (isHigher : bool) (w : @World T) :
  makeGuess sender id isHigher w =
  let s := store w in
  let g := gameAt s id in
  if (0 <? id) && (id <? nextGameId s) then
    if bool_decide (player g = sender) then
      if bool_decide (stage g = Initialized) then
        Ok (tt, mkWorld (syncArrays id (setGame id (guessGame isHigher g) s))
                  (token w)
                  (events w ++ [GuessMade id sender isHigher]))
      else Revert (RequireFailed "Game not in guess stage")
    else Revert (RequireFailed "Not your game")
  else Revert (RequireFailed "Invalid game ID").
Proof.
  unfold makeGuess, requireValidId, getNextGameId, readGame,
    modifyGame, readGame, writeGame, _updateListingInArrays, emit, require,
    getStore, putStore, revert, bind, ret; simpl.
  destruct ((0 <? id) && (id <? nextGameId (store w))); simpl; [|done].
  destruct (bool_decide (player (gameAt (store w) id) = sender)); simpl; [|done].
  destruct (bool_decide (stage (gameAt (store w) id) = Initialized)); simpl; [|done].
  rewrite !gameAt_setGame_eq, !setGame_setGame.
  reflexivity.
Qed.

Lemma settleBet_run (sender id actual : Z) (w : @World T) :
  settleBet self sender id actual w =
  let s := store w in
  let g := gameAt s id in
  let s' := syncArrays id (setGame id (settleGame actual g) s) in
  if decide (owner s = sender) then
    if (0 <? id) && (id <? nextGameId s) then
      if 0 <? actual then
        if bool_decide (stage g = GuessSubmitted) then
          if playerWon (higherOrLower g) actual (displayedPrice g) then
            match transfer self (player g) (GAME_COST * 2) (token w) with
            | Some (true, t') =>
                Ok (tt, mkWorld s' t'
                          (events w ++
                           [BetSettled id (player g) (displayedPrice g) actual
                              (higherOrLower g) true (GAME_COST * 2)]))
            | Some (false, _) => Revert (RequireFailed "Payout failed")
            | None => Revert CalleeReverted
            end
          else
            Ok (tt, mkWorld s' (token w)
                      (events w ++
                       [BetSettled id (player g) (displayedPrice g) actual
                          (higherOrLower g) false 0]))
        else Revert (RequireFailed "Game not ready for settlement")
      else Revert (RequireFailed "Actual price must be > 0")
    else Revert (RequireFailed "Invalid game ID")
  else Revert (OwnableUnauthorizedAccount sender).
Proof.
  unfold settleBet, onlyOwner, requireValidId, getNextGameId, readGame,
    modifyGame, readGame, writeGame, _updateListingInArrays, emit, require,
    callTransfer, getStore, putStore, revert, bind, ret; simpl.
  destruct (decide (owner (store w) = sender)); simpl; [|done].
  destruct ((0 <? id) && (id <? nextGameId (store w))); simpl; [|done].
  destruct (0 <? actual); simpl; [|done].
  destruct (bool_decide (stage (gameAt (store w) id) = GuessSubmitted)); simpl; [|done].
  rewrite !gameAt_setGame_eq, !setGame_setGame. simpl.
  unfold settleGame.
  destruct (playerWon _ _ _) eqn:Hw; simpl.
  - rewrite !gameAt_setGame_eq, !setGame_setGame. simpl.
    destruct (transfer _ _ _ _) as [[[] t']|]; simpl; try done.
    by rewrite gameAt_syncArrays, gameAt_setGame_eq.
  - rewrite !gameAt_setGame_eq, !setGame_setGame. simpl.
    by rewrite gameAt_syncArrays, gameAt_setGame_eq.
Qed.

Lemma createSlot_run (sender now : Z) (w : @World T) :
  createSlot sender now w =
  if nextGameId (store w) + 1 <=? MAX_UINT256 then
    Ok (tt, mkWorld (addSlot sender now (store w)) (token w) (events w))
  else Revert ArithmeticPanic.
Proof.
  unfold createSlot, getNextGameId, pushPlayerListing, writeGame, pushAllGames,
    checkedAdd, setNextGameId, getStore, putStore, revert, bind, ret; simpl.
  by destruct (nextGameId (store w) + 1 <=? MAX_UINT256).
Qed.

Lemma repeatM_createSlot_ok (k : nat) (sender now : Z) (w : @World T) :
  nextGameId (store w) + Z.of_nat k <= MAX_UINT256 ->
  repeatM k (createSlot sender now) w =
  Ok (tt, mkWorld (addSlots k sender now (store w)) (token w) (events w)).
Proof.
  revert w. induction k as [|k IH]; intros w Hle; simpl.
  - by destruct w.
  - unfold bind. rewrite createSlot_run.
    destruct (Z.leb_spec (nextGameId (store w) + 1) MAX_UINT256); [|lia].
    rewrite IH; simpl; [done|lia].
Qed.

Lemma repeatM_createSlot_overflow (k : nat) (sender now : Z) (w : @World T) :
  (0 < k)%nat ->
  MAX_UINT256 < nextGameId (store w) + Z.of_nat k ->
  repeatM k (createSlot sender now) w = Revert ArithmeticPanic.
Proof.
  revert w. induction k as [|k IH]; intros w Hk Hgt; simpl; [lia|].
  unfold bind. rewrite createSlot_run.
  destruct (Z.leb_spec (nextGameId (store w) + 1) MAX_UINT256); [|done].
  destruct k as [|k']; [lia|].
  rewrite IH; simpl; [done|lia|lia].
Qed.

Lemma startGame_run (sender now : Z) (w : @World T) :
  startGame self sender now w =
  let s := store w in
  match transferFrom self sender self BATCH_COST (token w) with
  | Some (true, t') =>
      if batchFits (nextGameId s) then
        Ok ((nextGameId s, nextGameId s + BATCH_SIZE - 1),
            mkWorld (addSlots (Z.to_nat BATCH_SIZE) sender now s) t'
              (events w ++
               [BatchGamesCreated sender (nextGameId s)
                  (nextGameId s + BATCH_SIZE - 1) now]))
      else Revert ArithmeticPanic
  | Some (false, _) => Revert (RequireFailed "Transfer failed")
  | None => Revert CalleeReverted
  end.
Proof.
  unfold startGame, batchFits.
  assert (Hk : Z.of_nat (Z.to_nat BATCH_SIZE) = BATCH_SIZE) by reflexivity.
  assert (Hpos : (0 < Z.to_nat BATCH_SIZE)%nat) by (unfold BATCH_SIZE; lia).
  generalize dependent (Z.to_nat BATCH_SIZE). intros k Hk Hpos.
  unfold callTransferFrom, bind at 1.
  destruct (transferFrom _ _ _ _ _) as [[[] t']|]; [|done..].
  unfold bind at 1, require, ret at 1.
  unfold bind at 1, getNextGameId at 1, getStore at 1, bind at 1, ret at 1.
  unfold bind at 1. cbn [store token events].
  destruct (Z.leb_spec (nextGameId (store w) + BATCH_SIZE) MAX_UINT256) as [Hle|Hgt].
  - rewrite repeatM_createSlot_ok by (cbn [store]; lia).
    unfold getNextGameId, checkedSub, emit, getStore, revert, bind, ret.
    cbn [store token events]. rewrite nextGameId_addSlots, Hk.
    by destruct (Z.leb_spec 1 (nextGameId (store w) + BATCH_SIZE)).
  - rewrite repeatM_createSlot_overflow; [done|done|cbn [store]; lia].
Qed.

(** ** Every step is one of four storage changes *)

Lemma commit_revert {A : Type} (m : M A) (w : @World T) (e : Error) :
  m w = Revert e -> commit m w = w.
Proof. unfold commit. by intros ->. Qed.

Lemma commit_ok {A : Type} (m : M A) (w w' : @World T) (a : A) :
  m w = Ok (a, w') -> commit m w = w'.
Proof. unfold commit. by intros ->. Qed.

Lemma transact_quietStep (c : Call) (sender now : Z) (w : @World T) :
  c <> CStartGame ->
  quietStep (store w) (store (transact self c sender now w)).
Proof.
  intros Hc. unfold transact, commit.
  destruct c as [|id lid price|id h|id actual|amount|o|]; cbn [dispatch].
  - done.
  - rewrite initializeGame_run. cbn zeta.
    destruct (decide _); [|apply qs_same].
    destruct (andb _ _) eqn:Hid; [|apply qs_same].
    destruct (negb _) eqn:Hlid; [|apply qs_same].
    destruct (Z.ltb_spec 0 price); [|apply qs_same].
    destruct (bool_decide _) eqn:Hst; [|apply qs_same].
    apply bool_decide_eq_true in Hst. apply andb_true_iff in Hid as [H1 H2].
    apply Z.ltb_lt in H1, H2. apply negb_true_iff, Z.eqb_neq in Hlid.
    cbn [store]. apply qs_game; [lia|]. by apply gs_initialize.
  - rewrite makeGuess_run. cbn zeta.
    destruct (andb _ _) eqn:Hid; [|apply qs_same].
    destruct (bool_decide (player _ = _)); [|apply qs_same].
    destruct (bool_decide _) eqn:Hst; [|apply qs_same].
    apply bool_decide_eq_true in Hst. apply andb_true_iff in Hid as [H1 H2].
    apply Z.ltb_lt in H1, H2.
    cbn [store]. apply qs_game; [lia|]. by apply gs_guess.
  - rewrite settleBet_run. cbn zeta.
    destruct (decide _); [|apply qs_same].
    destruct (andb _ _) eqn:Hid; [|apply qs_same].
    destruct (Z.ltb_spec 0 actual); [|apply qs_same].
    destruct (bool_decide _) eqn:Hst; [|apply qs_same].
    apply bool_decide_eq_true in Hst. apply andb_true_iff in Hid as [H1 H2].
    apply Z.ltb_lt in H1, H2.
    assert (quietStep (store w)
              (syncArrays id (setGame id (settleGame actual (gameAt (store w) id))
                                (store w)))) as Hss.
    { apply qs_game; [lia|]. by apply gs_settle. }
    destruct (playerWon _ _ _); [|done].
    destruct (transfer _ _ _ _) as [[[] t']|]; first [done|apply qs_same].
  - unfold withdrawFunds, onlyOwner, callBalanceOf, callTransfer, require,
      getStore, revert, bind, ret. cbn [store token events].
    destruct (decide _); [|apply qs_same].
    destruct (amount <=? _); [|apply qs_same].
    destruct (transfer _ _ _ _) as [[[] t']|]; apply qs_same.
  - unfold transferOwnership, onlyOwner, setOwner, getStore, putStore, revert,
      bind, ret. cbn [store token events].
    destruct (decide (owner _ = _)); [|apply qs_same].
    destruct (decide (o = 0)); [apply qs_same|apply qs_owner].
  - unfold renounceOwnership, onlyOwner, setOwner, getStore, putStore, revert,
      bind, ret. cbn [store token events].
    destruct (decide (owner _ = _)); [apply qs_owner|apply qs_same].
Qed.

Lemma transact_storeStep (c : Call) (sender now : Z) (w : @World T) :
  storeStep (store w) (store (transact self c sender now w)).
Proof.
  destruct c as [|id lid price|id h|id actual|amount|o|];
    try (by apply ss_quiet, transact_quietStep).
  unfold transact, commit. cbn [dispatch].
  unfold bind at 1. rewrite startGame_run. cbn zeta.
  destruct (transferFrom _ _ _ _ _) as [[[] t']|]; try apply ss_quiet, qs_same.
  unfold batchFits.
  destruct (Z.leb_spec (nextGameId (store w) + BATCH_SIZE) MAX_UINT256);
    cbn [andb]; [|apply ss_quiet, qs_same].
  destruct (1 <=? _); [|apply ss_quiet, qs_same].
  cbn [ret store]. by apply ss_batch.
Qed.

Lemma step_storeStep (w w' : @World T) :
  step self w w' -> storeStep (store w) (store w').
Proof.
  intros [c sender now w0|w0 t'].
  - apply transact_storeStep.
  - apply ss_quiet, qs_same.
Qed.

Lemma consistent_initial (deployer : Z) (t0 : T) :
  consistent (store (initial deployer t0)).
Proof.
  split; simpl.
  - unfold MAX_UINT256. lia.
  - done.
  - lia.
  - intros. apply lookup_empty.
  - intros p. unfold listingsOf. simpl. by rewrite lookup_empty.
Qed.

Lemma reachable_consistent (w : @World T) :
  reachable self w -> consistent (store w).
Proof.
  intros (deployer & t0 & Hsteps). revert w Hsteps.
  apply rtc_ind_r.
  - apply consistent_initial.
  - intros w1 w2 _ Hstep IH.
    eapply consistent_storeStep; [by apply step_storeStep|done].
Qed.

(** ** startGame *)

(** C1.  A call of [startGame] in a reachable state either returns the
    inclusive id range [(n, n + 9)], with [n] the counter before the call:
    the token's [transferFrom] of the full [BATCH_COST] from the caller to
    the contract returned [true] and its effect on the ledger is kept, the
    ten ids were unused before, each now holds a record with that id, stage
    [NotStarted], the caller as player and zero price fields, no other
    record changed, and [allGames] and the caller's array grew by exactly
    these ten records in ascending order; or it reverts and the
    transaction leaves the whole world as it was.  A failed debit (the
    token reverts or returns [false]) always gives the second case. *)
Theorem startGame_all_or_nothing (sender now : Z) (w : @World T) :
  reachable self w ->
  let n := nextGameId (store w) in
  match startGame self sender now w with
  | Ok ((firstId, lastId), w') =>
      transferFrom self sender self BATCH_COST (token w) = Some (true, token w')
      /\ firstId = n /\ lastId = n + BATCH_SIZE - 1
      /\ nextGameId (store w') = lastId + 1
      /\ (forall id, firstId <= id <= lastId ->
            let g := gameAt (store w') id in
            gameById (store w) !! id = None
            /\ gameById (store w') !! id = Some g
            /\ gameId g = id /\ stage g = NotStarted /\ player g = sender
            /\ displayedPrice g = 0 /\ actualPrice g = 0 /\ payout g = 0)
      /\ (forall id, ~ (firstId <= id <= lastId) ->
            gameById (store w') !! id = gameById (store w) !! id)
      /\ allGames (store w') =
           allGames (store w) ++ batch firstId BATCH_SIZE sender now
      /\ listingsOf (store w') sender =
           listingsOf (store w) sender ++ batch firstId BATCH_SIZE sender now
      /\ (forall p, p <> sender ->
            playerListings (store w') !! p = playerListings (store w) !! p)
      /\ length (batch firstId BATCH_SIZE sender now) = Z.to_nat BATCH_SIZE
      /\ transact self CStartGame sender now w = w'
  | Revert _ => transact self CStartGame sender now w = w
  end
  /\ ((forall t', transferFrom self sender self BATCH_COST (token w)
                  <> Some (true, t')) ->
      exists e, startGame self sender now w = Revert e).
Proof.
  intros Hreach n. apply reachable_consistent in Hreach as Hc.
  assert (Htx : transact self CStartGame sender now w =
                commit (startGame self sender now) w).
  { unfold transact, commit. cbn [dispatch]. unfold bind, ret.
    by destruct (startGame self sender now w) as [[r w']|e]. }
  rewrite Htx. unfold commit. rewrite startGame_run. cbn zeta. fold n.
  split.
  - destruct (transferFrom _ _ _ _ _) as [[[] t']|]; [|done..].
    unfold batchFits. destruct (andb _ _) eqn:Hfit; [|done].
    cbn [store token].
    assert (HkZ : Z.of_nat (Z.to_nat BATCH_SIZE) = BATCH_SIZE) by reflexivity.
    split; [done|]. split; [done|]. split; [done|].
    split; [rewrite nextGameId_addSlots; fold n; lia|].
    split.
    { intros id Hid. unfold gameAt.
      rewrite gameById_addSlots, HkZ. fold n.
      rewrite decide_True by lia. cbn [default].
      split; [apply (cons_fresh _ Hc); fold n; lia|done]. }
    split.
    { intros id Hid. rewrite gameById_addSlots, HkZ. fold n.
      by rewrite decide_False by lia. }
    split; [by rewrite allGames_addSlots, HkZ|].
    split; [by rewrite listingsOf_addSlots, HkZ|].
    split; [intros p Hp; by apply playerListings_addSlots|].
    split; [|done].
    unfold batch. by rewrite length_fmap, length_seqZ.
  - intros Hfail.
    destruct (transferFrom _ _ _ _ _) as [[[] t']|]; [|by eauto..].
    by destruct (Hfail t').
Qed.

(** ** The stage order *)

Lemma steps_record (w w' : @World T) (id : Z) :
  rtc (step self) w w' ->
  id < nextGameId (store w) ->
  let g := gameAt (store w) id in
  let g' := gameAt (store w') id in
  id < nextGameId (store w')
  /\ stageIndex (stage g) <= stageIndex (stage g')
  /\ (stage g = Settled -> g' = g)
  /\ (stage g <> NotStarted ->
      stage g' <> NotStarted /\ displayedPrice g' = displayedPrice g
      /\ listingId g' = listingId g).
Proof.
  intros Hsteps Hid. cbn zeta. revert w' Hsteps. apply rtc_ind_r.
  - repeat split; [done|lia|done].
  - intros w1 w2 _ Hstep (Hid1 & Hle & Hset & Hstart).
    apply step_storeStep in Hstep.
    pose proof (storeStep_next _ _ Hstep) as Hnext.
    split; [unfold BATCH_SIZE in Hnext; lia|].
    destruct (storeStep_existing _ _ id Hstep Hid1) as [->|Hg]; [done|].
    pose proof (gameStep_stage _ _ Hg) as Hidx.
    pose proof (gameStep_not_settled _ _ Hg) as Hns.
    split; [lia|]. split.
    + intros Hs. apply Hset in Hs as Heq. rewrite Heq in Hns. done.
    + intros Hs. destruct (Hstart Hs) as (Hs1 & Hd & Hl).
      destruct (gameStep_displayedPrice _ _ Hg Hs1) as [Hd2 Hl2].
      split; [by eapply gameStep_started|]. split; congruence.
Qed.

(** C2.  For a created game (an id the counter has passed): one step of
    the system leaves its record as it is or moves its stage to the next
    one in the order NotStarted, Initialized, GuessSubmitted, Settled; over
    any sequence of steps the stage never goes back; [initializeGame],
    [makeGuess] and [settleBet] revert, leaving the world unchanged, when
    the stage is not the one they expect; and once the stage is Settled
    every later [getGame] returns the same record. *)
Theorem stage_lifecycle (w : @World T) (id : Z) :
  0 < id < nextGameId (store w) ->
  let g := gameAt (store w) id in
  (forall w', step self w w' ->
     let g' := gameAt (store w') id in
     g' = g \/ stageIndex (stage g') = stageIndex (stage g) + 1)
  /\ (forall w', rtc (step self) w w' ->
        stageIndex (stage g) <= stageIndex (stage (gameAt (store w') id)))
  /\ (forall sender now lid price, stage g <> NotStarted ->
        (exists e, initializeGame sender now id lid price w = Revert e)
        /\ transact self (CInitializeGame id lid price) sender now w = w)
  /\ (forall sender now isHigher, stage g <> Initialized ->
        (exists e, makeGuess sender id isHigher w = Revert e)
        /\ transact self (CMakeGuess id isHigher) sender now w = w)
  /\ (forall sender now actual, stage g <> GuessSubmitted ->
        (exists e, settleBet self sender id actual w = Revert e)
        /\ transact self (CSettleBet id actual) sender now w = w)
  /\ (stage g = Settled ->
      forall w', rtc (step self) w w' -> getGame id w' = Ok (g, w')).
Proof.
  intros Hid. cbn zeta. repeat apply conj.
  - intros w' Hstep. apply step_storeStep in Hstep.
    destruct (storeStep_existing _ _ id Hstep) as [->|Hg]; [lia|by left|].
    right. by apply gameStep_stage.
  - intros w' Hsteps.
    by destruct (steps_record w w' id Hsteps) as (_ & Hle & _); [lia|].
  - intros sender now lid price Hst.
    assert (exists e, initializeGame sender now id lid price w = Revert e) as [e He].
    { rewrite initializeGame_run. cbn zeta.
      rewrite (bool_decide_eq_false_2 _ Hst).
      repeat case_match; eauto. }
    split; [by eauto|]. unfold transact. cbn [dispatch].
    by eapply commit_revert.
  - intros sender now isHigher Hst.
    assert (exists e, makeGuess sender id isHigher w = Revert e) as [e He].
    { rewrite makeGuess_run. cbn zeta.
      rewrite (bool_decide_eq_false_2 (stage _ = _) Hst).
      repeat case_match; eauto. }
    split; [by eauto|]. unfold transact. cbn [dispatch].
    by eapply commit_revert.
  - intros sender now actual Hst.
    assert (exists e, settleBet self sender id actual w = Revert e) as [e He].
    { rewrite settleBet_run. cbn zeta.
      rewrite (bool_decide_eq_false_2 _ Hst).
      repeat case_match; eauto. }
    split; [by eauto|]. unfold transact. cbn [dispatch].
    by eapply commit_revert.
  - intros Hst w' Hsteps.
    destruct (steps_record w w' id Hsteps) as (Hid' & _ & Hset & _); [lia|].
    unfold getGame, requireValidId, getNextGameId, readGame, require,
      getStore, bind, ret. cbn [store].
    destruct (Z.ltb_spec 0 id); [|lia].
    destruct (Z.ltb_spec id (nextGameId (store w'))); [|lia].
    cbn [andb]. by rewrite (Hset Hst).
Qed.

(** ** settleBet *)

(** C3.  When [settleBet] succeeds, the record's [won] is true exactly
    when the guess was higher and the actual price is above the displayed
    one, or the guess was lower and the actual price is below it, or the
    two prices are equal; in particular equal prices always win. *)
Theorem settleBet_won (sender id actual : Z) (w w' : @World T) :
  settleBet self sender id actual w = Ok (tt, w') ->
  let g := gameAt (store w) id in
  let g' := gameAt (store w') id in
  (won g' = true <->
     (higherOrLower g = true /\ displayedPrice g < actual)
     \/ (higherOrLower g = false /\ actual < displayedPrice g)
     \/ actual = displayedPrice g)
  /\ (actual = displayedPrice g -> won g' = true)
  /\ actualPrice g' = actual
  /\ displayedPrice g' = displayedPrice g
  /\ higherOrLower g' = higherOrLower g.
Proof.
  intros Hok. cbn zeta.
  assert (gameAt (store w') id = settleGame actual (gameAt (store w) id)) as ->.
  { rewrite settleBet_run in Hok. cbn zeta in Hok.
    repeat case_match; simplify_eq; cbn [store];
      by rewrite gameAt_sync_set, decide_True. }
  set (g := gameAt (store w) id).
  assert (Hrule : won (settleGame actual g) = true <->
     (higherOrLower g = true /\ displayedPrice g < actual)
     \/ (higherOrLower g = false /\ actual < displayedPrice g)
     \/ actual = displayedPrice g).
  { unfold settleGame. cbn [won set_payout set_stage set_won]. unfold playerWon.
    destruct (higherOrLower g); cbn [andb negb];
      destruct (Z.ltb_spec (displayedPrice g) actual);
      destruct (Z.ltb_spec actual (displayedPrice g));
      destruct (Z.eqb_spec actual (displayedPrice g));
      split; intros; try done; try lia; intuition (first [discriminate|lia]). }
  split; [exact Hrule|]. split; [|done].
  intros Heq. apply Hrule. by right; right.
Qed.

Lemma reachable_payoutRule (w : @World T) :
  reachable self w -> forall id, payoutRule (gameAt (store w) id).
Proof.
  intros (deployer & t0 & Hsteps). revert w Hsteps.
  apply (rtc_ind_r (fun w : @World T => forall id, payoutRule (gameAt (store w) id))).
  - intros id. unfold payoutRule, gameAt. simpl. rewrite lookup_empty. discriminate.
  - intros w1 w2 _ Hstep IH.
    eapply payoutRule_storeStep; [by apply step_storeStep|done].
Qed.

(** What a successful [settleBet] leaves behind. *)
Lemma settleBet_ok (sender id actual : Z) (w w' : @World T) :
  settleBet self sender id actual w = Ok (tt, w') ->
  let g := gameAt (store w) id in
  owner (store w) = sender /\ 0 < id < nextGameId (store w) /\ 0 < actual
  /\ stage g = GuessSubmitted
  /\ store w' = syncArrays id (setGame id (settleGame actual g) (store w))
  /\ (if playerWon (higherOrLower g) actual (displayedPrice g)
      then transfer self (player g) (GAME_COST * 2) (token w)
           = Some (true, token w')
      else token w' = token w).
Proof.
  intros Hok. cbn zeta. rewrite settleBet_run in Hok. cbn zeta in Hok.
  destruct (decide _) as [Ho|]; [|done].
  destruct (andb _ _) eqn:Hid; [|done].
  destruct (Z.ltb_spec 0 actual); [|done].
  destruct (bool_decide _) eqn:Hst; [|done].
  apply bool_decide_eq_true in Hst. apply andb_true_iff in Hid as [H1 H2].
  apply Z.ltb_lt in H1, H2.
  do 4 (split; [done || lia|]).
  destruct (playerWon _ _ _).
  - destruct (transfer _ _ _ _) as [[[] t']|]; [|done..]. by simplify_eq.
  - by simplify_eq.
Qed.

(** C4.  In every reachable state a settled record has a positive payout
    exactly when [won] is true; the payout is then twice [GAME_COST], and
    it is zero otherwise.  A successful [settleBet] that sets [won] to true
    has made the token transfer of that payout to the player; one that sets
    it to false has left the token ledger untouched. *)
Theorem settled_payout (w : @World T) :
  reachable self w ->
  (forall id, let g := gameAt (store w) id in
     stage g = Settled ->
     (0 < payout g <-> won g = true)
     /\ (won g = true -> payout g = 2 * GAME_COST)
     /\ (won g = false -> payout g = 0))
  /\ (forall sender id actual w',
        settleBet self sender id actual w = Ok (tt, w') ->
        let g' := gameAt (store w') id in
        stage g' = Settled
        /\ if won g'
           then payout g' = 2 * GAME_COST
                /\ transfer self (player g') (payout g') (token w)
                   = Some (true, token w')
           else payout g' = 0 /\ token w' = token w).
Proof.
  intros Hreach. split.
  - intros id g Hst. pose proof (reachable_payoutRule w Hreach id Hst) as Hp.
    fold g in Hp. rewrite Hp. unfold GAME_COST.
    destruct (won g); repeat split; intros; first [done|lia].
  - intros sender id actual w' Hok. cbn zeta.
    destruct (settleBet_ok _ _ _ _ _ Hok) as (_ & _ & _ & _ & -> & Htok).
    rewrite gameAt_sync_set, decide_True by done.
    split; [done|]. unfold settleGame at 1.
    cbn [won set_payout set_stage set_won set_actualPrice].
    destruct (playerWon _ _ _) eqn:Hw.
    + unfold settleGame. rewrite Hw.
      cbn [payout player set_payout set_stage set_won set_actualPrice].
      split; [lia|done].
    + unfold settleGame. rewrite Hw. by cbn.
Qed.

(** C5.  A [settleBet] transaction either commits the whole settlement
    (actual price, outcome, stage Settled and, for a win, the token
    transfer of the payout to the player) or reverts and leaves the world,
    game record and token ledger included, exactly as it was.  When every
    precondition holds and the player has won, a payout transfer that
    returns [false] or reverts makes the call revert; a bad id, a stage
    other than GuessSubmitted, a price that is not positive or a caller
    that is not the owner also makes it revert. *)
Theorem settleBet_atomic (sender now id actual : Z) (w : @World T) :
  let g := gameAt (store w) id in
  let w' := transact self (CSettleBet id actual) sender now w in
  let g' := gameAt (store w') id in
  ((settleBet self sender id actual w = Ok (tt, w')
    /\ stage g' = Settled /\ actualPrice g' = actual
    /\ won g' = playerWon (higherOrLower g) actual (displayedPrice g)
    /\ if won g'
       then transfer self (player g) (GAME_COST * 2) (token w)
            = Some (true, token w')
       else token w' = token w)
   \/ ((exists e, settleBet self sender id actual w = Revert e) /\ w' = w))
  /\ (owner (store w) = sender -> 0 < id < nextGameId (store w) ->
      0 < actual -> stage g = GuessSubmitted ->
      playerWon (higherOrLower g) actual (displayedPrice g) = true ->
      match transfer self (player g) (GAME_COST * 2) (token w) with
      | Some (true, _) => settleBet self sender id actual w = Ok (tt, w')
      | Some (false, _) =>
          settleBet self sender id actual w
          = Revert (RequireFailed "Payout failed") /\ w' = w
      | None => settleBet self sender id actual w = Revert CalleeReverted
                /\ w' = w
      end)
  /\ (~ (0 < id < nextGameId (store w)) \/ stage g <> GuessSubmitted
      \/ actual <= 0 \/ owner (store w) <> sender ->
      (exists e, settleBet self sender id actual w = Revert e) /\ w' = w).
Proof.
  cbn zeta. unfold transact. cbn [dispatch].
  destruct (settleBet self sender id actual w) as [[[] w1]|e] eqn:Hrun.
  - rewrite (commit_ok _ _ _ _ Hrun).
    destruct (settleBet_ok _ _ _ _ _ Hrun) as (Ho & Hid & Hact & Hst & Hs & Htok).
    split; [left|split].
    + rewrite Hs, gameAt_sync_set, decide_True by done.
      split; [done|]. split; [done|]. split; [done|]. split; [done|].
      unfold settleGame at 1.
      by cbn [won set_payout set_stage set_won set_actualPrice].
    + intros _ _ _ _ Hw. rewrite Hw in Htok. by rewrite Htok.
    + intros [H|[H|[H|H]]]; [lia|done|lia|done].
  - rewrite (commit_revert _ _ _ Hrun).
    split; [right; by eauto|]. split; [|by eauto].
    intros Ho Hid Hact Hst Hw.
    rewrite settleBet_run in Hrun. cbn zeta in Hrun.
    rewrite decide_True in Hrun by done.
    destruct (Z.ltb_spec 0 id); [|lia].
    destruct (Z.ltb_spec id (nextGameId (store w))); [|lia].
    destruct (Z.ltb_spec 0 actual); [|lia].
    rewrite bool_decide_eq_true_2 in Hrun by done.
    cbn [andb] in Hrun. rewrite Hw in Hrun.
    by destruct (transfer _ _ _ _) as [[[] t']|].
Qed.

(** ** makeGuess *)

(** C6.  [makeGuess] on an existing game by a caller other than the
    game's player reverts with "Not your game", and the transaction leaves
    the world (guess, stage and everything else) as it was. *)
Theorem makeGuess_unauthorized (sender now id : Z) (isHigher : bool) (w : @World T) :
  0 < id < nextGameId (store w) ->
  player (gameAt (store w) id) <> sender ->
  makeGuess sender id isHigher w = Revert (RequireFailed "Not your game")
  /\ transact self (CMakeGuess id isHigher) sender now w = w.
Proof.
  intros Hid Hp.
  assert (makeGuess sender id isHigher w = Revert (RequireFailed "Not your game"))
    as Hrun.
  { rewrite makeGuess_run. cbn zeta.
    destruct (Z.ltb_spec 0 id); [|lia].
    destruct (Z.ltb_spec id (nextGameId (store w))); [|lia].
    cbn [andb]. by rewrite bool_decide_eq_false_2. }
  split; [done|]. unfold transact. cbn [dispatch]. by eapply commit_revert.
Qed.

(** ** initializeGame *)

Lemma initializeGame_ok (sender now id lid price : Z) (w w' : @World T) :
  initializeGame sender now id lid price w = Ok (tt, w') ->
  let g := gameAt (store w) id in
  owner (store w) = sender /\ 0 < id < nextGameId (store w) /\ lid <> 0
  /\ 0 < price /\ stage g = NotStarted
  /\ store w' = syncArrays id (setGame id (initGame lid price g) (store w))
  /\ token w' = token w.
Proof.
  intros Hok. cbn zeta. rewrite initializeGame_run in Hok. cbn zeta in Hok.
  destruct (decide _) as [Ho|]; [|done].
  destruct (andb _ _) eqn:Hid; [|done].
  destruct (negb _) eqn:Hlid; [|done].
  destruct (Z.ltb_spec 0 price); [|done].
  destruct (bool_decide _) eqn:Hst; [|done].
  apply bool_decide_eq_true in Hst. apply andb_true_iff in Hid as [H1 H2].
  apply Z.ltb_lt in H1, H2. apply negb_true_iff, Z.eqb_neq in Hlid.
  simplify_eq. repeat split; first [done|lia].
Qed.

(** C7.  [initializeGame] succeeds exactly when the caller is the
    contract owner (the operator role; the game's player is not
    consulted), the id is that of a created game, the game's stage is
    NotStarted, the listing id is not zero and the displayed price is
    positive.  On success the record gets that listing id and displayed
    price and stage Initialized, its other fields are kept, and after any
    further steps the displayed price is still that value, which is not
    zero.  When the call fails the transaction leaves the world unchanged. *)
Theorem initializeGame_spec (sender now id lid price : Z) (w : @World T) :
  let g := gameAt (store w) id in
  ((exists w', initializeGame sender now id lid price w = Ok (tt, w')) <->
     sender = owner (store w) /\ 0 < id < nextGameId (store w)
     /\ stage g = NotStarted /\ lid <> 0 /\ 0 < price)
  /\ (forall w', initializeGame sender now id lid price w = Ok (tt, w') ->
        let g' := gameAt (store w') id in
        listingId g' = lid /\ displayedPrice g' = price
        /\ stage g' = Initialized
        /\ gameId g' = gameId g /\ player g' = player g
        /\ timestamp g' = timestamp g /\ actualPrice g' = actualPrice g
        /\ higherOrLower g' = higherOrLower g /\ won g' = won g
        /\ payout g' = payout g
        /\ transact self (CInitializeGame id lid price) sender now w = w'
        /\ forall w'', rtc (step self) w' w'' ->
             displayedPrice (gameAt (store w'') id) = price
             /\ displayedPrice (gameAt (store w'') id) <> 0)
  /\ (forall e, initializeGame sender now id lid price w = Revert e ->
        transact self (CInitializeGame id lid price) sender now w = w).
Proof.
  cbn zeta. repeat apply conj.
  - intros [w' Hok].
    destruct (initializeGame_ok _ _ _ _ _ _ _ Hok) as (? & ? & ? & ? & ? & _).
    done.
  - intros (-> & Hid & Hst & Hlid & Hprice). rewrite initializeGame_run.
    cbn zeta. rewrite decide_True by done.
    destruct (Z.ltb_spec 0 id); [|lia].
    destruct (Z.ltb_spec id (nextGameId (store w))); [|lia].
    destruct (Z.eqb_spec lid 0); [done|].
    destruct (Z.ltb_spec 0 price); [|lia].
    rewrite bool_decide_eq_true_2 by done. cbn. eauto.
  - intros w' Hok.
    destruct (initializeGame_ok _ _ _ _ _ _ _ Hok)
      as (Ho & Hid & Hlid & Hprice & Hst & Hs & Htok).
    assert (Hg' : gameAt (store w') id = initGame lid price (gameAt (store w) id)).
    { by rewrite Hs, gameAt_sync_set, decide_True. }
    rewrite Hg'. do 10 (split; [done|]). split.
    + unfold transact. cbn [dispatch]. by eapply commit_ok.
    + intros w'' Hsteps.
      destruct (steps_record w' w'' id Hsteps) as (_ & _ & _ & Hkeep).
      { rewrite Hs, nextGameId_sync_set. lia. }
      destruct Hkeep as (_ & Hd & _); [by rewrite Hg'|].
      rewrite Hd, Hg'. cbn. lia.
  - intros e He. unfold transact. cbn [dispatch]. by eapply commit_revert.
Qed.

(** ** The storage copies and the views *)

(** C8.  In every reachable state [allGames] is the ledger [gameById] read
    in id order over the created ids, and each player's array is the
    sub-list of that player's records: a created game appears with the
    field values of the ledger at its place in [allGames] and in its
    player's array, no array holds an entry that differs from the ledger
    or repeats an id, and [getGame], [getTotalGames], [getPlayerListings]
    and [getPlayerGamesByStage] return what the ledger holds. *)
Theorem storage_copies_agree (w : @World T) :
  reachable self w ->
  let s := store w in
  let ids := seqZ 1 (nextGameId s - 1) in
  allGames s = gameAt s <$> ids
  /\ (forall p, listingsOf s p
                = gameAt s <$> filter (fun id => player (gameAt s id) = p) ids)
  /\ (forall id, 0 < id < nextGameId s ->
        let g := gameAt s id in
        gameById s !! id = Some g
        /\ allGames s !! Z.to_nat (id - 1) = Some g
        /\ g ∈ listingsOf s (player g))
  /\ (forall g, g ∈ allGames s -> g = gameAt s (gameId g))
  /\ (forall p g, g ∈ listingsOf s p -> g = gameAt s (gameId g) /\ player g = p)
  /\ NoDup (gameId <$> allGames s)
  /\ (forall p, NoDup (gameId <$> listingsOf s p))
  /\ (forall id, 0 < id < nextGameId s -> getGame id w = Ok (gameAt s id, w))
  /\ getTotalGames w = Ok (Z.of_nat (length ids), w)
  /\ (forall p, getPlayerListings p w
                = Ok (gameAt s <$> filter (fun id => player (gameAt s id) = p) ids, w))
  /\ (forall p st,
        getPlayerGamesByStage p st w
        = Ok (Z.of_nat (length (filter
                 (fun id => stage (gameAt s id) = st /\ player (gameAt s id) = p)
                 ids)), w)).
Proof.
  intros Hreach. apply reachable_consistent in Hreach as Hc. cbn zeta.
  set (s := store w). fold s in Hc.
  set (ids := seqZ 1 (nextGameId s - 1)).
  assert (Hpl : forall p, listingsOf s p
      = gameAt s <$> filter (fun id => player (gameAt s id) = p) ids).
  { intros p. rewrite (cons_player _ Hc), (cons_all _ Hc).
    apply filter_fmap_comm. }
  assert (Hmem : forall p g, g ∈ listingsOf s p -> g ∈ allGames s /\ player g = p).
  { intros p g. rewrite (cons_player _ Hc), list_elem_of_filter. tauto. }
  repeat apply conj.
  - apply (cons_all _ Hc).
  - exact Hpl.
  - intros id Hid. repeat apply conj.
    + apply consistent_lookup; [done|lia].
    + rewrite (cons_all _ Hc), list_lookup_fmap.
      rewrite lookup_seqZ_lt by lia. simpl. f_equal. f_equal. lia.
    + rewrite (cons_player _ Hc), list_elem_of_filter. split; [done|].
      rewrite (cons_all _ Hc). apply list_elem_of_fmap_2, elem_of_seqZ. lia.
  - intros g Hg. by apply consistent_elem.
  - intros p g Hg. destruct (Hmem p g Hg) as [Hin Hp].
    split; [by apply consistent_elem|done].
  - rewrite consistent_ids by done. apply NoDup_seqZ.
  - intros p. rewrite Hpl, <- list_fmap_compose.
    rewrite (list_fmap_ext _ id (filter _ ids)).
    + rewrite list_fmap_id. apply NoDup_filter, NoDup_seqZ.
    + intros i x Hx. simpl.
      apply list_elem_of_lookup_2, list_elem_of_filter in Hx as [_ Hx].
      apply elem_of_seqZ in Hx. apply (cons_id _ Hc). lia.
  - intros id Hid. unfold getGame, requireValidId, getNextGameId, readGame,
      require, getStore, bind, ret. fold s.
    destruct (Z.ltb_spec 0 id); [|lia].
    destruct (Z.ltb_spec id (nextGameId s)); [|lia]. done.
  - unfold getTotalGames, getStore, bind, ret. fold s.
    by rewrite (cons_all _ Hc), length_fmap.
  - intros p. unfold getPlayerListings, getStore, bind, ret. fold s.
    by rewrite Hpl.
  - intros p st. unfold getPlayerGamesByStage, getStore, bind, ret. fold s.
    rewrite countStage_filter, Hpl, filter_fmap_comm, length_fmap.
    by rewrite list_filter_filter.
Qed.

(** C10.  In every reachable state [getTotalGames] returns
    [nextGameId - 1]; every id from 1 to [nextGameId - 1] holds a record
    whose [gameId] is that id, and no other id holds one; a transaction
    other than [startGame] changes neither the counter nor the number of
    games, and a step of the system leaves the counter as it is or adds
    [BATCH_SIZE] to it. *)
Theorem total_games_counter (w : @World T) :
  reachable self w ->
  let s := store w in
  getTotalGames w = Ok (nextGameId s - 1, w)
  /\ 1 <= nextGameId s
  /\ (forall id, 1 <= id <= nextGameId s - 1 ->
        exists g, gameById s !! id = Some g /\ gameId g = id)
  /\ (forall id, ~ (1 <= id <= nextGameId s - 1) -> gameById s !! id = None)
  /\ gameId <$> allGames s = seqZ 1 (nextGameId s - 1)
  /\ (forall c sender now, c <> CStartGame ->
        let s' := store (transact self c sender now w) in
        nextGameId s' = nextGameId s
        /\ length (allGames s') = length (allGames s))
  /\ (forall w', step self w w' ->
        nextGameId (store w') = nextGameId s
        \/ nextGameId (store w') = nextGameId s + BATCH_SIZE).
Proof.
  intros Hreach. apply reachable_consistent in Hreach as Hc. cbn zeta.
  pose proof (cons_next _ Hc) as Hn.
  repeat apply conj.
  - unfold getTotalGames, getStore, bind, ret.
    rewrite (cons_all _ Hc), length_fmap, length_seqZ.
    do 2 f_equal. lia.
  - lia.
  - intros id Hid. exists (gameAt (store w) id). split.
    + apply consistent_lookup; [done|lia].
    + apply (cons_id _ Hc). lia.
  - intros id Hid. apply (cons_fresh _ Hc). lia.
  - by apply consistent_ids.
  - intros c sender now Hne. by apply quietStep_next, transact_quietStep.
  - intros w' Hstep. by apply storeStep_next, step_storeStep.
Qed.

End Properties.

(** * The properties on the concrete run *)

Import Scenario.

Lemma reachable_transact {T : Type} `{Tok : IERC20 T} (self : Z) (c : Call)
    (sender now : Z) (w : @World T) :
  reachable self w -> reachable self (transact self c sender now w).
Proof.
  intros (deployer & t0 & Hsteps). exists deployer, t0.
  eapply rtc_r; [exact Hsteps|apply step_call].
Qed.

Lemma reachable_w0 : reachable contract w0.
Proof. exists operator, ledger0. apply rtc_refl. Qed.

Lemma reachable_w7 : reachable contract w7.
Proof. do 7 apply reachable_transact. exact reachable_w0. Qed.

Lemma steps_w4_w7 : rtc (step contract) w4 w7.
Proof.
  eapply rtc_l; [apply step_call|].
  eapply rtc_l; [apply step_call|].
  eapply rtc_l; [apply step_call|]. apply rtc_refl.
Qed.

(** The run does what the scenario of the specification says. *)
Example scenario_run :
  startGame contract gamer 1000 w0 = Ok ((1, 10), w1)
  /\ Hobo.balance gamer (token w1) = Hobo.balance gamer (token w0) - BATCH_COST
  /\ Hobo.balance contract (token w1) = BATCH_COST
  /\ Forall (fun g => stage g = NotStarted) (allGames (store w1))
  /\ stage (gameAt (store w2) 3) = Initialized
  /\ stage (gameAt (store w3) 3) = GuessSubmitted
  /\ won (gameAt (store w4) 3) = true
  /\ payout (gameAt (store w4) 3) = 2 * GAME_COST
  /\ Hobo.balance gamer (token w4) = Hobo.balance gamer (token w3) + 2 * GAME_COST
  /\ won (gameAt (store w7) 4) = true.
Proof. vm_compute. repeat split; repeat constructor. Qed.

(** A payout the contract cannot make: the whole settlement is undone. *)
Example settleBet_rollback :
  settleBet contract operator 3 600000 w3drained = Revert CalleeReverted
  /\ transact contract (CSettleBet 3 600000) operator 1004 w3drained = w3drained
  /\ stage (gameAt (store w3drained) 3) = GuessSubmitted.
Proof. vm_compute. repeat split. Qed.

(** [startGame_all_or_nothing] on the first batch of the scenario. *)
Lemma startGame_all_or_nothing_witness :
  reachable contract w0 /\
  match startGame contract gamer 1000 w0 with
  | Ok (r, w') => r = (1, 10) /\ w' = w1
  | Revert _ => False
  end.
Proof.
  split; [exact reachable_w0|].
  pose proof (startGame_all_or_nothing contract gamer 1000 w0 reachable_w0) as [H _].
  destruct (startGame contract gamer 1000 w0) as [[[f l] w']|e] eqn:E.
  - destruct H as (_ & -> & -> & _ & _ & _ & _ & _ & _ & _ & Htx).
    split; [reflexivity|]. symmetry. exact Htx.
  - vm_compute in E. discriminate E.
Defined.

(** [stage_lifecycle] on game 3, settled in [w4]: later reads agree. *)
Lemma stage_lifecycle_witness :
  0 < 3 < nextGameId (store w4)
  /\ getGame 3 w7 = Ok (gameAt (store w4) 3, w7).
Proof.
  assert (Hid : 0 < 3 < nextGameId (store w4)) by (vm_compute; split; reflexivity).
  split; [exact Hid|].
  destruct (stage_lifecycle contract w4 3 Hid) as (_ & _ & _ & _ & _ & Hterm).
  apply Hterm; [reflexivity|exact steps_w4_w7].
Defined.

(** [settleBet_won] on the tie of game 4: the guess was "lower". *)
Lemma settleBet_won_witness :
  settleBet contract operator 4 250000 w6 = Ok (tt, w7)
  /\ higherOrLower (gameAt (store w6) 4) = false
  /\ won (gameAt (store w7) 4) = true.
Proof.
  assert (Hrun : settleBet contract operator 4 250000 w6 = Ok (tt, w7))
    by (vm_compute; reflexivity).
  split; [exact Hrun|]. split; [reflexivity|].
  destruct (settleBet_won contract operator 4 250000 w6 w7 Hrun) as (_ & Htie & _).
  apply Htie. reflexivity.
Defined.

(** [settled_payout] on the won game 3 at the end of the run. *)
Lemma settled_payout_witness :
  reachable contract w7 /\ payout (gameAt (store w7) 3) = 2 * GAME_COST.
Proof.
  split; [exact reachable_w7|].
  destruct (settled_payout contract w7 reachable_w7) as [Hinv _].
  destruct (Hinv 3) as (_ & Hwon & _); [reflexivity|].
  apply Hwon. reflexivity.
Defined.

(** [makeGuess_unauthorized]: a stranger guesses on the player's game 3. *)
Lemma makeGuess_unauthorized_witness :
  0 < 3 < nextGameId (store w2)
  /\ player (gameAt (store w2) 3) <> stranger
  /\ transact contract (CMakeGuess 3 true) stranger 1002 w2 = w2.
Proof.
  assert (Hid : 0 < 3 < nextGameId (store w2)) by (vm_compute; split; reflexivity).
  assert (Hp : player (gameAt (store w2) 3) <> stranger) by (vm_compute; discriminate).
  split; [exact Hid|]. split; [exact Hp|].
  apply (makeGuess_unauthorized contract stranger 1002 3 true w2 Hid Hp).
Defined.

(** [storage_copies_agree] at the end of the run. *)
Lemma storage_copies_agree_witness :
  reachable contract w7
  /\ allGames (store w7) = gameAt (store w7) <$> seqZ 1 10
  /\ getPlayerGamesByStage gamer Settled w7 = Ok (2, w7).
Proof.
  split; [exact reachable_w7|].
  destruct (storage_copies_agree contract w7 reachable_w7)
    as (Hall & _ & _ & _ & _ & _ & _ & _ & _ & _ & Hcount).
  split; [exact Hall|]. rewrite (Hcount gamer Settled). reflexivity.
Defined.

(** [total_games_counter] at the end of the run. *)
Lemma total_games_counter_witness :
  reachable contract w7 /\ getTotalGames w7 = Ok (10, w7).
Proof.
  split; [exact reachable_w7|].
  destruct (total_games_counter contract w7 reachable_w7) as (Htotal & _).
  exact Htotal.
Defined.

(** * Properties of the listing proxy *)

Import Api ApiSamples.

Section RouteProperties.

Variable rt : Runtime.

(** What [JSON.stringify] keeps of an object with distinct keys. *)
Lemma assoc_keepDefined_notin (w : JsVal -> JsVal)
    (fs : list (string * JsVal)) (k : string) :
  k ∉ fst <$> fs -> assoc k (keepDefined w fs) = None.
Proof.
  induction fs as [|[k' x] fs IH]; [done|]. cbn [fmap list_fmap fst].
  intros Hk. apply not_elem_of_cons in Hk as [Hne Hk].
  assert (Hrest : assoc k (keepDefined w fs) = None) by auto.
  assert (Heqb : String.eqb k' k = false)
    by (apply String.eqb_neq; congruence).
  destruct x; cbn; rewrite ?Heqb; exact Hrest.
Qed.

Lemma assoc_keepDefined (w : JsVal -> JsVal)
    (fs : list (string * JsVal)) (k : string) :
  NoDup (fst <$> fs) ->
  assoc k (keepDefined w fs)
  = match assoc k fs with
    | Some JUndefined | None => None
    | Some x => Some (w x)
    end.
Proof.
  induction fs as [|[k' x] fs IH]; [done|]. cbn [fmap list_fmap fst].
  intros Hnd. apply NoDup_cons in Hnd as [Hk' Hnd].
  specialize (IH Hnd). cbn [assoc].
  destruct (String.eqb_spec k' k) as [->|Hne].
  - destruct x; cbn; rewrite ?String.eqb_refl; try reflexivity.
    by apply assoc_keepDefined_notin.
  - assert (Heqb : String.eqb k' k = false) by (by apply String.eqb_neq).
    destruct x; cbn; rewrite ?Heqb; exact IH.
Qed.

Lemma stringify_undefined (v : JsVal) :
  stringify v = JUndefined <-> v = JUndefined.
Proof. destruct v; cbn; split; congruence. Qed.

Lemma field_stringify (fs : list (string * JsVal)) (k : string) :
  NoDup (fst <$> fs) ->
  field (stringify (JObj fs)) k = stringify (field (JObj fs) k).
Proof.
  intros Hnd. cbn [stringify field]. rewrite assoc_keepDefined by done.
  destruct (assoc k fs) as [[]|]; reflexivity.
Qed.

Lemma hasKey_stringify (fs : list (string * JsVal)) (k : string) :
  NoDup (fst <$> fs) ->
  hasKey (stringify (JObj fs)) k = true <-> field (JObj fs) k <> JUndefined.
Proof.
  intros Hnd. cbn [stringify hasKey field].
  rewrite assoc_keepDefined by done. rewrite bool_decide_eq_true.
  destruct (assoc k fs) as [[]|]; cbn; split;
    first [done | by intros [? ?] | by eauto].
Qed.


(** And only then. *)
Lemma formatListing_inv (e : Env rt) (l v : JsVal) :
  formatListing rt e l = Returned v ->
  exists z,
    callToString rt (field l "zpid") = Some z
    /\ l <> JUndefined /\ l <> JNull
    /\ toLocaleStringOf rt (orZero (field l "price")) <> None
    /\ v = successObject rt e l z.
Proof.
  unfold formatListing. intros H.
  destruct l; try discriminate H;
    destruct (toLocaleStringOf rt _) eqn:Hloc; try discriminate H;
    destruct (callToString _) as [z|] eqn:Hz; try discriminate H;
    injection H as <-; exists z; by repeat split.
Qed.

Lemma tryFetch_inv (e : Env rt) (v : JsVal) :
  tryFetch rt e = Returned v ->
  exists x r,
    upstream e = Body (Some (x :: r))
    /\ formatListing rt e (default JUndefined ((x :: r) !! listingIndex e))
       = Returned v.
Proof.
  unfold tryFetch. intros H.
  destruct (upstream e) as [m|c|m|[[|x r]|]]; try discriminate H.
  by exists x, r.
Qed.

(** The answer of the route to either outcome of the [try] block. *)
Lemma route_thrown (e : Env rt) (m : string) :
  tryFetch rt e = Thrown m ->
  randomListingRoute rt e
  = mkResponse 500
      (JObj [ ("error", JStr "Failed to fetch listing");
              ("details", JStr m) ]%string).
Proof.
  intros Hm. unfold randomListingRoute, fetchRandomListing. by rewrite Hm.
Qed.

Lemma route_returned (e : Env rt) (l : JsVal) (z : string) :
  tryFetch rt e = Returned (successObject rt e l z) ->
  randomListingRoute rt e
  = mkResponse 200 (stringify (successObject rt e l z)).
Proof.
  intros Hv. unfold randomListingRoute, fetchRandomListing. by rewrite Hv.
Qed.

Lemma successObject_keys :
  NoDup [ "success"; "city"; "listing"; "contractData"; "priceInfo" ]%string
  /\ NoDup [ "zpid"; "address"; "price"; "imgSrc"; "bedrooms"; "bathrooms";
             "livingArea"; "homeType"; "latitude"; "longitude" ]%string
  /\ NoDup [ "listingId"; "displayedPrice"; "actualPrice" ]%string
  /\ NoDup [ "actual"; "displayed"; "adjustmentPercent" ]%string.
Proof.
  repeat split; apply (bool_decide_unpack _); vm_compute; exact I.
Qed.

(** The body that is sent for the success object, field by field. *)
Lemma successObject_body (e : Env rt) (l : JsVal) (z : string) :
  let b := stringify (successObject rt e l z) in
  let p := orZero (field l "price") in
  let d := stringify (ofNumber (roundAdjusted rt p (adjustment e))) in
  field b "success" = JBool true
  /\ field b "city" = randomCity rt e
  /\ field (field b "listing") "price" = stringify p
  /\ (forall k, k ∈ copiedFields ->
        field (field b "listing") k = stringify (field l k))
  /\ (forall k, hasKey (field b "listing") k = true
        <-> k = "price"%string
            \/ (k ∈ copiedFields /\ field l k <> JUndefined))
  /\ field (field b "contractData") "listingId"
     = JStr (String.append "0x" (padStart64 z))
  /\ field (field b "contractData") "displayedPrice" = d
  /\ field (field b "contractData") "actualPrice" = stringify p
  /\ field (field b "priceInfo") "actual" = stringify p
  /\ field (field b "priceInfo") "displayed" = d.
Proof.
  destruct successObject_keys as (Htop & Hlist & Hcd & Hpi).
  intros b p d. subst b. unfold successObject. fold p.
  set (dp := ofNumber (roundAdjusted rt p (adjustment e))).
  assert (Hp : p <> JUndefined).
  { subst p. unfold orZero. destruct (truthy _) eqn:Ht; [|done].
    intros Hu. by rewrite Hu in Ht. }
  assert (Hd : dp <> JUndefined) by (subst dp; by destruct (roundAdjusted _ _ _)).
  rewrite !field_stringify by exact Htop. cbn [field assoc String.eqb
    Ascii.eqb Bool.eqb default from_option id].
  split; [done|].
  split; [unfold randomCity; by destruct (MAJOR_CITIES !! cityIndex e)|].
  split; [by rewrite field_stringify by exact Hlist|].
  split.
  { intros k Hk. rewrite field_stringify by exact Hlist.
    unfold copiedFields in Hk.
    repeat (apply elem_of_cons in Hk as [->|Hk]; [reflexivity|]).
    by apply elem_of_nil in Hk. }
  split.
  { intros k. rewrite hasKey_stringify by exact Hlist. split.
    - intros Hdef.
      destruct (decide (k = "price"%string)) as [->|Hkp]; [by left|right].
      assert (Hin : k ∈ copiedFields).
      { unfold copiedFields. revert Hdef. cbn [field assoc].
        repeat match goal with
               | |- context [String.eqb ?a k] =>
                   destruct (String.eqb_spec a k) as [<-|?];
                   [intros _;
                    first [done
                          |repeat first
                             [apply elem_of_cons; left; reflexivity
                             |apply elem_of_cons; right]]|]
               end.
        by cbn. }
      split; [done|]. intros Hu. apply Hdef.
      unfold copiedFields in Hin.
      repeat (apply elem_of_cons in Hin as [->|Hin]; [exact Hu|]).
      by apply elem_of_nil in Hin.
    - intros [->|[Hin Hdef]]; [exact Hp|].
      unfold copiedFields in Hin.
      repeat (apply elem_of_cons in Hin as [->|Hin]; [exact Hdef|]).
      by apply elem_of_nil in Hin. }
  rewrite !field_stringify by first [exact Hcd|exact Hpi].
  by repeat split.
Qed.


End RouteProperties.

(** Concrete runs: two failures, a success, and a success whose rounded
    price is not a number. *)
Example route_runs :
  randomListingRoute plainRuntime unavailable
  = mkResponse 500
      (JObj [ ("error", JStr "Failed to fetch listing");
              ("details", JStr "RapidAPI responded with status: 503") ]%string)
  /\ status (randomListingRoute plainRuntime oneHouse) = 200
  /\ field (field (body (randomListingRoute plainRuntime oneHouse))
              "contractData") "displayedPrice" = JNum 450000
  /\ field (body (randomListingRoute plainRuntime oneHouse)) "listing"
     = JObj [ ("zpid", JNum 2077); ("address", JStr "1 Main St");
              ("price", JNum 450000) ]%string
  /\ status (randomListingRoute plainRuntime textPrice) = 200
  /\ field (field (body (randomListingRoute plainRuntime textPrice))
              "contractData") "displayedPrice" = JNull.
Proof. vm_compute. repeat split. Qed.



(** * Further properties of the game contract *)

Import Lifecycle.

Lemma gameStep_timestamp (g g' : Listing) :
  gameStep g g' -> timestamp g' = timestamp g.
Proof. by intros []. Qed.

Lemma stageFields_gameStep (g g' : Listing) :
  gameStep g g' -> stageFields g -> stageFields g'.
Proof.
  intros [g0 lid price Hst Hlid Hprice|g0 h Hst|g0 actual Hst Hact];
    unfold stageFields; rewrite Hst; cbn.
  - intros (_ & _ & ? & ? & ? & ?). done.
  - intros (? & ? & ? & _ & ? & ?). done.
  - intros (? & ? & _ & _ & _). done.
Qed.

Lemma stageFields_storeStep (s s' : Storage) :
  storeStep s s' ->
  (forall id, stageFields (gameAt s id)) ->
  forall id, stageFields (gameAt s' id).
Proof.
  intros [s0 s1 [s2|s2 j g' Hj Hg|s2 o]|s0 sender now Hfit] Hall id.
  - apply Hall.
  - rewrite gameAt_sync_set. destruct (decide (j = id)) as [->|]; [|apply Hall].
    eapply stageFields_gameStep; [exact Hg|apply Hall].
  - apply Hall.
  - rewrite gameAt_addSlots. destruct (decide _); [|apply Hall].
    by unfold stageFields.
Qed.

Lemma batchRanges_app (l1 l2 : list Event) :
  batchRanges (l1 ++ l2) = batchRanges l1 ++ batchRanges l2.
Proof.
  induction l1 as [|e l1 IH]; [done|].
  destruct e; cbn [batchRanges app]; by rewrite ?IH.
Qed.

Lemma countStage_total (l : list Listing) :
  countStage NotStarted l + countStage Initialized l
  + countStage GuessSubmitted l + countStage Settled l
  = Z.of_nat (length l).
Proof.
  induction l as [|x l IH]; [done|].
  cbn [countStage length]. rewrite Nat2Z.inj_succ.
  destruct (stage x); repeat case_decide; first [congruence|lia].
Qed.

Section MoreProperties.

Context {T : Type} `{Tok : IERC20 T}.
Variable self : address.

(** X1.  [makeGuess] succeeds exactly when the id is that of a created
    game, the caller is the game's player and the stage is Initialized.
    It then stores the guess and the stage GuessSubmitted, keeps every
    other field of the record, every other record, the counter, the owner
    and the token ledger, and logs one [GuessMade] event. *)
Theorem makeGuess_spec (sender id : Z) (isHigher : bool) (w : @World T) :
  let g := gameAt (store w) id in
  ((exists w', makeGuess sender id isHigher w = Ok (tt, w')) <->
     0 < id < nextGameId (store w) /\ player g = sender
     /\ stage g = Initialized)
  /\ (forall w', makeGuess sender id isHigher w = Ok (tt, w') ->
        let g' := gameAt (store w') id in
        higherOrLower g' = isHigher /\ stage g' = GuessSubmitted
        /\ gameId g' = gameId g /\ player g' = player g
        /\ timestamp g' = timestamp g /\ listingId g' = listingId g
        /\ displayedPrice g' = displayedPrice g
        /\ actualPrice g' = actualPrice g /\ won g' = won g
        /\ payout g' = payout g
        /\ (forall j, j <> id -> gameAt (store w') j = gameAt (store w) j)
        /\ nextGameId (store w') = nextGameId (store w)
        /\ owner (store w') = owner (store w)
        /\ token w' = token w
        /\ events w' = events w ++ [GuessMade id sender isHigher]).
Proof.
  cbn zeta. rewrite makeGuess_run. cbn zeta. repeat apply conj.
  - intros [w' Hok].
    destruct (Z.ltb_spec 0 id); [|done].
    destruct (Z.ltb_spec id (nextGameId (store w))); [|done].
    cbn [andb] in Hok.
    destruct (bool_decide (player _ = _)) eqn:Hp; [|done].
    destruct (bool_decide (stage _ = _)) eqn:Hst; [|done].
    apply bool_decide_eq_true in Hp, Hst. done.
  - intros (Hid & Hp & Hst).
    destruct (Z.ltb_spec 0 id); [|lia].
    destruct (Z.ltb_spec id (nextGameId (store w))); [|lia].
    cbn [andb]. rewrite !bool_decide_eq_true_2 by done. eauto.
  - intros w' Hok.
    destruct (andb _ _); [|done].
    destruct (bool_decide (player _ = _)); [|done].
    destruct (bool_decide (stage _ = _)); [|done].
    injection Hok as <-. cbn [store token events].
    rewrite gameAt_sync_set, decide_True by done.
    do 10 (split; [done|]). split; [|done].
    intros j Hj. by rewrite gameAt_sync_set, decide_False.
Qed.

(** X2.  [settleBet] succeeds exactly when the caller is the owner, the id
    is that of a created game, the actual price is positive, the stage is
    GuessSubmitted and, if the player has won, the token's transfer of
    twice [GAME_COST] to the player returns [true].  It then keeps the
    identity, listing, displayed price and guess of the record, every
    other record, the counter and the owner, and logs one [BetSettled]
    event that carries the stored outcome. *)
Theorem settleBet_spec (sender id actual : Z) (w : @World T) :
  let g := gameAt (store w) id in
  let win := playerWon (higherOrLower g) actual (displayedPrice g) in
  ((exists w', settleBet self sender id actual w = Ok (tt, w')) <->
     owner (store w) = sender /\ 0 < id < nextGameId (store w)
     /\ 0 < actual /\ stage g = GuessSubmitted
     /\ (win = true ->
         exists t', transfer self (player g) (GAME_COST * 2) (token w)
                    = Some (true, t')))
  /\ (forall w', settleBet self sender id actual w = Ok (tt, w') ->
        let g' := gameAt (store w') id in
        gameId g' = gameId g /\ player g' = player g
        /\ timestamp g' = timestamp g /\ listingId g' = listingId g
        /\ displayedPrice g' = displayedPrice g
        /\ higherOrLower g' = higherOrLower g
        /\ (forall j, j <> id -> gameAt (store w') j = gameAt (store w) j)
        /\ nextGameId (store w') = nextGameId (store w)
        /\ owner (store w') = owner (store w)
        /\ events w' = events w ++
             [BetSettled id (player g') (displayedPrice g') (actualPrice g')
                (higherOrLower g') (won g') (payout g')]).
Proof.
  cbn zeta. rewrite settleBet_run. cbn zeta. repeat apply conj.
  - intros [w' Hok].
    destruct (decide _) as [Ho|]; [|done].
    destruct (Z.ltb_spec 0 id); [|done].
    destruct (Z.ltb_spec id (nextGameId (store w))); [|done].
    cbn [andb] in Hok.
    destruct (Z.ltb_spec 0 actual); [|done].
    destruct (bool_decide (stage _ = _)) eqn:Hst; [|done].
    apply bool_decide_eq_true in Hst. do 4 (split; [done|]).
    intros Hw. rewrite Hw in Hok.
    destruct (transfer _ _ _ _) as [[[] t']|]; [by eauto|done..].
  - intros (Ho & Hid & Hact & Hst & Htr).
    rewrite decide_True by done.
    destruct (Z.ltb_spec 0 id); [|lia].
    destruct (Z.ltb_spec id (nextGameId (store w))); [|lia].
    destruct (Z.ltb_spec 0 actual); [|lia].
    cbn [andb]. rewrite bool_decide_eq_true_2 by done.
    destruct (playerWon _ _ _); [|by eauto].
    destruct Htr as [t' ->]; [done|]. eauto.
  - intros w' Hok.
    destruct (decide _); [|done]. destruct (andb _ _); [|done].
    destruct (0 <? actual); [|done].
    destruct (bool_decide (stage _ = _)); [|done].
    destruct (playerWon _ _ _) eqn:Hw.
    + destruct (transfer _ _ _ _) as [[[] t']|]; [|done..].
      injection Hok as <-. cbn [store token events].
      rewrite gameAt_sync_set, decide_True by done.
      do 6 (split; [done|]). split.
      { intros j Hj. by rewrite gameAt_sync_set, decide_False. }
      unfold settleGame. rewrite Hw. by cbn.
    + injection Hok as <-. cbn [store token events].
      rewrite gameAt_sync_set, decide_True by done.
      do 6 (split; [done|]). split.
      { intros j Hj. by rewrite gameAt_sync_set, decide_False. }
      unfold settleGame. rewrite Hw. by cbn.
Qed.

Lemma withdrawFunds_ok (sender amount : Z) (w w' : @World T) :
  withdrawFunds self sender amount w = Ok (tt, w') ->
  owner (store w) = sender /\ amount <= balanceOf self (token w)
  /\ store w' = store w /\ events w' = events w
  /\ transfer self sender amount (token w) = Some (true, token w').
Proof.
  unfold withdrawFunds, onlyOwner, callBalanceOf, callTransfer, require,
    getStore, revert, bind, ret. cbn [store token events]. intros Hok.
  destruct (decide _); [|done].
  destruct (Z.leb_spec amount (balanceOf self (token w))); [|done].
  destruct (transfer _ _ _ _) as [[[] t']|]; [|done..].
  by injection Hok as <-.
Qed.

(** X3.  [withdrawFunds] succeeds exactly when the caller is the owner,
    the amount is at most the contract's token balance and the token's
    transfer to the caller returns [true]; it touches no game data and
    logs nothing. *)
Theorem withdrawFunds_spec (sender amount : Z) (w : @World T) :
  ((exists w', withdrawFunds self sender amount w = Ok (tt, w')) <->
     owner (store w) = sender /\ amount <= balanceOf self (token w)
     /\ exists t', transfer self sender amount (token w) = Some (true, t'))
  /\ (forall w', withdrawFunds self sender amount w = Ok (tt, w') ->
        store w' = store w /\ events w' = events w
        /\ transfer self sender amount (token w) = Some (true, token w')).
Proof.
  repeat apply conj.
  - intros [w' Hok].
    destruct (withdrawFunds_ok _ _ _ _ Hok) as (? & ? & _ & _ & ?). eauto.
  - intros (Ho & Hle & t' & Htr).
    unfold withdrawFunds, onlyOwner, callBalanceOf, callTransfer, require,
      getStore, revert, bind, ret. cbn [store token events].
    rewrite decide_True by done.
    destruct (Z.leb_spec amount (balanceOf self (token w))); [|lia].
    rewrite Htr. eauto.
  - intros w' Hok.
    by destruct (withdrawFunds_ok _ _ _ _ Hok) as (_ & _ & ? & ? & ?).
Qed.

(** X4.  In every reachable state the fields of every record fit its
    stage: before initialization the listing id and all prices are zero;
    from Initialized on the displayed price is positive and the listing id
    is not zero; before settlement the actual price and the payout are
    zero and [won] is false; a settled record has a positive actual
    price, a [won] that is the outcome rule applied to its own stored
    guess and prices, and the matching payout. *)
Theorem record_fields_by_stage (w : @World T) (id : Z) :
  reachable self w ->
  let g := gameAt (store w) id in
  match stage g with
  | NotStarted =>
      displayedPrice g = 0 /\ listingId g = 0 /\ actualPrice g = 0
      /\ higherOrLower g = false /\ won g = false /\ payout g = 0
  | Initialized =>
      0 < displayedPrice g /\ listingId g <> 0 /\ actualPrice g = 0
      /\ higherOrLower g = false /\ won g = false /\ payout g = 0
  | GuessSubmitted =>
      0 < displayedPrice g /\ listingId g <> 0 /\ actualPrice g = 0
      /\ won g = false /\ payout g = 0
  | Settled =>
      0 < displayedPrice g /\ listingId g <> 0 /\ 0 < actualPrice g
      /\ won g = playerWon (higherOrLower g) (actualPrice g) (displayedPrice g)
      /\ payout g = (if won g then GAME_COST * 2 else 0)
  end.
Proof.
  intros Hreach. cbn zeta. change (stageFields (gameAt (store w) id)).
  revert id. destruct Hreach as (deployer & t0 & Hsteps). revert w Hsteps.
  apply (rtc_ind_r (fun w : @World T => forall id, stageFields (gameAt (store w) id))).
  - intros id. unfold gameAt. simpl. rewrite lookup_empty. by unfold stageFields.
  - intros w1 w2 _ Hstep IH.
    eapply stageFields_storeStep; [by apply (step_storeStep self)|done].
Qed.

(** X5.  The identity of a created game never changes: over any run its
    [gameId], [player] and [timestamp] stay what they were. *)
Theorem identity_immutable (w w' : @World T) (id : Z) :
  id < nextGameId (store w) ->
  rtc (step self) w w' ->
  let g := gameAt (store w) id in
  let g' := gameAt (store w') id in
  gameId g' = gameId g /\ player g' = player g /\ timestamp g' = timestamp g.
Proof.
  intros Hid Hsteps. cbn zeta.
  cut (id < nextGameId (store w')
       /\ gameId (gameAt (store w') id) = gameId (gameAt (store w) id)
       /\ player (gameAt (store w') id) = player (gameAt (store w) id)
       /\ timestamp (gameAt (store w') id) = timestamp (gameAt (store w) id));
    [tauto|].
  revert w' Hsteps. apply rtc_ind_r; [done|].
  intros w1 w2 _ Hstep (Hid1 & Hg & Hp & Ht).
  apply (step_storeStep self) in Hstep.
  pose proof (storeStep_next _ _ Hstep) as Hn. unfold BATCH_SIZE in Hn.
  split; [lia|].
  destruct (storeStep_existing _ _ id Hstep Hid1) as [->|Hgs]; [done|].
  rewrite (gameStep_gameId _ _ Hgs), (gameStep_player _ _ Hgs),
    (gameStep_timestamp _ _ Hgs). done.
Qed.

Lemma transact_startGame (sender now : Z) (w : @World T) :
  transact self CStartGame sender now w = commit (startGame self sender now) w.
Proof.
  unfold transact, commit. cbn [dispatch]. unfold bind, ret.
  by destruct (startGame self sender now w) as [[r w']|e].
Qed.

(** What one transaction does to the counter and to the event log. *)
Lemma transact_log (c : Call) (sender now : Z) (w : @World T) :
  let w' := transact self c sender now w in
  let n := nextGameId (store w) in
  (nextGameId (store w') = n
   /\ batchRanges (events w') = batchRanges (events w))
  \/ (nextGameId (store w') = n + BATCH_SIZE
      /\ batchRanges (events w') =
           batchRanges (events w) ++ [(n, n + BATCH_SIZE - 1)]).
Proof.
  cbn zeta.
  destruct c as [|id lid price|id h|id actual|amount|o|];
    [rewrite transact_startGame|unfold transact..]; unfold commit;
    cbn [dispatch].
  - rewrite startGame_run. cbn zeta.
    destruct (transferFrom _ _ _ _ _) as [[[] t']|]; [|by left..].
    destruct (batchFits _); [|by left].
    right. cbn [store events].
    rewrite nextGameId_addSlots, batchRanges_app. split; [|done].
    change (Z.of_nat (Z.to_nat BATCH_SIZE)) with BATCH_SIZE. done.
  - left. rewrite initializeGame_run. cbn zeta.
    repeat case_match; simplify_eq; try done; cbn [store events];
      rewrite batchRanges_app; cbn; by rewrite app_nil_r.
  - left. rewrite makeGuess_run. cbn zeta.
    repeat case_match; simplify_eq; try done; cbn [store events];
      rewrite batchRanges_app; cbn; by rewrite app_nil_r.
  - left. rewrite settleBet_run. cbn zeta.
    repeat case_match; simplify_eq; try done; cbn [store events];
      rewrite batchRanges_app; cbn; by rewrite app_nil_r.
  - left. unfold withdrawFunds, onlyOwner, callBalanceOf, callTransfer, require,
      getStore, revert, bind, ret. cbn [store token events].
    by repeat case_match; simplify_eq.
  - left. unfold transferOwnership, onlyOwner, setOwner, getStore, putStore,
      revert, bind, ret. cbn [store token events].
    by repeat case_match; simplify_eq.
  - left. unfold renounceOwnership, onlyOwner, setOwner, getStore, putStore,
      revert, bind, ret. cbn [store token events].
    by repeat case_match; simplify_eq.
Qed.

(** X6.  Games exist in whole batches, and the log says which: in every
    reachable state, with [m] the number of [BatchGamesCreated] events
    logged so far, the counter is [1 + 10 m], [getTotalGames] returns
    [10 m], and the ranges announced by those events are, in order,
    (1, 10), (11, 20), ..., without gap or overlap. *)
Theorem games_in_batches (w : @World T) :
  reachable self w ->
  let m := Z.of_nat (length (batchRanges (events w))) in
  nextGameId (store w) = 1 + BATCH_SIZE * m
  /\ getTotalGames w = Ok (BATCH_SIZE * m, w)
  /\ batchRanges (events w) = nthRange <$> seqZ 0 m.
Proof.
  intros Hreach. cbn zeta.
  assert (Hinv : nextGameId (store w)
                 = 1 + BATCH_SIZE * Z.of_nat (length (batchRanges (events w)))
                 /\ batchRanges (events w)
                    = nthRange <$> seqZ 0 (Z.of_nat (length (batchRanges (events w))))).
  { destruct Hreach as (deployer & t0 & Hsteps). revert w Hsteps.
    apply rtc_ind_r; [done|].
    intros w1 w2 _ Hstep [Hn Hr].
    destruct Hstep as [c sender now w1|w1 t']; [|done].
    destruct (transact_log c sender now w1) as [[Hn' Hr']|[Hn' Hr']];
      rewrite Hn', Hr'.
    - done.
    - rewrite length_app. cbn [length].
      rewrite Nat.add_1_r, seqZ_S, fmap_app, <- Hr. split; [lia|].
      cbn. unfold nthRange. do 3 f_equal; lia. }
  destruct Hinv as [Hn Hr]. split; [done|]. split; [|done].
  apply reachable_consistent in Hreach as Hc.
  pose proof (cons_next _ Hc) as Hrange.
  unfold getTotalGames, getStore, bind, ret.
  rewrite (cons_all _ Hc), length_fmap, length_seqZ.
  do 2 f_equal. lia.
Qed.

(** X7.  For any player the four stage counts of
    [getPlayerGamesByStage] add up to the length of
    [getPlayerListings]. *)
Theorem stage_counts_total (p : Z) (w : @World T) :
  exists (a b c d : Z) (l : list Listing),
    getPlayerGamesByStage p NotStarted w = Ok (a, w)
    /\ getPlayerGamesByStage p Initialized w = Ok (b, w)
    /\ getPlayerGamesByStage p GuessSubmitted w = Ok (c, w)
    /\ getPlayerGamesByStage p Settled w = Ok (d, w)
    /\ getPlayerListings p w = Ok (l, w)
    /\ a + b + c + d = Z.of_nat (length l).
Proof.
  unfold getPlayerGamesByStage, getPlayerListings, getStore, bind, ret.
  eexists _, _, _, _, _. do 5 (split; [reflexivity|]).
  apply countStage_total.
Qed.

(** X8.  The contract moves tokens in three ways only: [startGame] pulls
    [BATCH_COST] from the caller, a winning [settleBet] by the owner on a
    game in stage GuessSubmitted sends twice [GAME_COST] to that game's
    player, and [withdrawFunds] by the owner sends the amount to the
    owner.  Every other transaction, and every reverted one, leaves the
    token ledger as it was. *)
Theorem token_calls (c : Call) (sender now : Z) (w : @World T) :
  let w' := transact self c sender now w in
  token w' = token w
  \/ (c = CStartGame
      /\ transferFrom self sender self BATCH_COST (token w)
         = Some (true, token w'))
  \/ (exists id actual,
        c = CSettleBet id actual /\ sender = owner (store w)
        /\ stage (gameAt (store w) id) = GuessSubmitted
        /\ stage (gameAt (store w') id) = Settled
        /\ won (gameAt (store w') id) = true
        /\ transfer self (player (gameAt (store w) id)) (GAME_COST * 2)
             (token w) = Some (true, token w'))
  \/ (exists amount,
        c = CWithdrawFunds amount /\ sender = owner (store w)
        /\ transfer self sender amount (token w) = Some (true, token w')).
Proof.
  cbn zeta.
  destruct c as [|id lid price|id h|id actual|amount|o|];
    [rewrite transact_startGame|unfold transact..]; unfold commit;
    cbn [dispatch].
  - rewrite startGame_run. cbn zeta.
    destruct (transferFrom _ _ _ _ _) as [[[] t']|]; [|by left..].
    destruct (batchFits _); [|by left].
    right; left. done.
  - left. rewrite initializeGame_run. cbn zeta.
    by repeat case_match; simplify_eq.
  - left. rewrite makeGuess_run. cbn zeta.
    by repeat case_match; simplify_eq.
  - destruct (settleBet self sender id actual w) as [[[] w']|e] eqn:Hrun;
      [|by left].
    destruct (settleBet_ok self _ _ _ _ _ Hrun)
      as (Ho & Hid & Hact & Hst & Hs & Htok).
    destruct (playerWon _ _ _) eqn:Hw; [|by left].
    right; right; left. exists id, actual.
    rewrite Hs, gameAt_sync_set, decide_True by done.
    unfold settleGame. rewrite Hw. done.
  - destruct (withdrawFunds self sender amount w) as [[[] w']|e] eqn:Hrun;
      [|by left].
    destruct (withdrawFunds_ok _ _ _ _ Hrun) as (Ho & _ & _ & _ & Htr).
    right; right; right. by exists amount.
  - left. unfold transferOwnership, onlyOwner, setOwner, getStore, putStore,
      revert, bind, ret. cbn [store token events].
    by repeat case_match; simplify_eq.
  - left. unfold renounceOwnership, onlyOwner, setOwner, getStore, putStore,
      revert, bind, ret. cbn [store token events].
    by repeat case_match; simplify_eq.
Qed.

End MoreProperties.

(** * Properties of the HOBO token *)

Section HoboSupply.

Import Hobo HoboToken.

Lemma sumBalances_insert (m : gmap Z Z) (k v : Z) :
  sumBalances (<[k := v]> m) = sumBalances m - default 0 (m !! k) + v.
Proof.
  unfold sumBalances. destruct (m !! k) as [x|] eqn:Hk; simpl.
  - rewrite <- insert_delete_eq.
    rewrite map_fold_insert_L; [|intros; lia|apply lookup_delete_eq].
    rewrite (map_fold_delete_L _ _ k x m); [lia|intros; lia|done].
  - rewrite map_fold_insert_L; [lia|intros; lia|done].
Qed.

Lemma sumBalances_lookup (m : gmap Z Z) (k v : Z) :
  (forall a x, m !! a = Some x -> 0 <= x) ->
  m !! k = Some v -> v <= sumBalances m.
Proof.
  intros Hpos Hk. unfold sumBalances.
  rewrite (map_fold_delete_L _ _ k v m); [|intros; lia|done].
  assert (0 <= map_fold (fun _ v acc => v + acc) 0 (delete k m)); [|lia].
  assert (Hpos' : forall a x, delete k m !! a = Some x -> 0 <= x).
  { intros a x Hx. apply lookup_delete_Some in Hx as [_ Hx]. eauto. }
  revert Hpos'. generalize (delete k m). intros m'.
  apply (map_fold_weak_ind (fun r m0 =>
           (forall a x, m0 !! a = Some x -> 0 <= x) -> 0 <= r)).
  - intros _. lia.
  - intros i x m0 r Hi IH Hall.
    assert (0 <= x) by (apply (Hall i); by rewrite lookup_insert_eq).
    assert (0 <= r); [|lia]. apply IH. intros a y Hy. apply (Hall a).
    rewrite lookup_insert_ne; [done|]. intros ->. congruence.
Qed.

Lemma supplyOk_move (from to : address) (amount : Z) (st : State) (t : Ledger) :
  0 <= amount -> supplyOk st ->
  move from to amount (ledger st) = Some t ->
  supplyOk (mkState t (totalSupply st) (tokenOwner st)).
Proof.
  intros Ha [Hsum Hpos Hcap]. unfold move.
  destruct (decide (from = 0)); [done|]. destruct (decide (to = 0)); [done|].
  destruct (Z.ltb_spec (balance from (ledger st)) amount); [done|].
  intros [= <-]. split; cbn [ledger totalSupply balances].
  - rewrite !sumBalances_insert. unfold balance in *.
    destruct (decide (from = to)) as [->|Hne].
    + rewrite lookup_insert_eq. cbn. lia.
    + rewrite lookup_insert_ne by done. lia.
  - intros a x. unfold balance in *.
    destruct (decide (to = a)) as [->|Hta].
    + rewrite lookup_insert_eq. intros [= <-].
      destruct (decide (from = a)) as [->|Hfa].
      * rewrite lookup_insert_eq. cbn. lia.
      * rewrite lookup_insert_ne by done.
        destruct (balances (ledger st) !! a) as [y|] eqn:Hy; cbn; [|lia].
        pose proof (Hpos a y Hy). lia.
    + rewrite lookup_insert_ne by done.
      destruct (decide (from = a)) as [->|Hfa].
      * rewrite lookup_insert_eq. intros [= <-]. lia.
      * rewrite lookup_insert_ne by done. apply Hpos.
  - done.
Qed.

Lemma supplyOk_mintBase (to : address) (amount : Z) (st st' : State) :
  0 <= amount -> supplyOk st ->
  totalSupply st + amount <= MAX_SUPPLY ->
  mintBase to amount st = Done st' -> supplyOk st'.
Proof.
  intros Ha [Hsum Hpos Hcap] Hle. unfold mintBase.
  destruct (decide (to = 0)); [done|].
  destruct (_ <=? _); [|done]. intros [= <-].
  split; cbn [ledger totalSupply balances].
  - rewrite sumBalances_insert. unfold balance. lia.
  - intros a x. unfold balance.
    destruct (decide (to = a)) as [->|Hta].
    + rewrite lookup_insert_eq. intros [= <-].
      destruct (balances (ledger st) !! a) as [y|] eqn:Hy; cbn; [|lia].
      pose proof (Hpos a y Hy). lia.
    + rewrite lookup_insert_ne by done. apply Hpos.
  - done.
Qed.

Lemma supplyOk_step (st st' : State) :
  step st st' -> supplyOk st -> supplyOk st'.
Proof.
  intros [c sender st0 Hamt] Hok. unfold run.
  destruct (exec c sender st0) as [st1|e] eqn:Hexec; [|done].
  destruct c as [to amount|from amount|to amount|from to amount
                |spender amount|newOwner|]; cbn [exec amountOf] in *.
  - unfold mint in Hexec. destruct (decide _); [|done].
    destruct (_ <=? MAX_UINT256); [|done].
    destruct (Z.leb_spec (totalSupply st0 + amount) MAX_SUPPLY); [|done].
    eapply supplyOk_mintBase; [|done|done|done]. lia.
  - unfold burn, burnBase in Hexec. destruct (decide _); [|done].
    destruct (decide (from = 0)); [done|].
    destruct (Z.ltb_spec (balance from (ledger st0)) amount); [done|].
    injection Hexec as <-. destruct Hok as [Hsum Hpos Hcap].
    split; cbn [ledger totalSupply balances].
    + rewrite sumBalances_insert. unfold balance. lia.
    + intros a x. destruct (decide (from = a)) as [->|Hfa].
      * rewrite lookup_insert_eq. intros [= <-]. lia.
      * rewrite lookup_insert_ne by done. apply Hpos.
    + lia.
  - cbn in Hexec. destruct (move sender to amount (ledger st0)) as [t|] eqn:Hm;
      [|done].
    injection Hexec as <-. eapply supplyOk_move; [|done|done]. lia.
  - cbn in Hexec.
    destruct (spendAllowance from sender amount (ledger st0)) as [t1|] eqn:Hsp;
      [|done].
    destruct (move from to amount t1) as [t2|] eqn:Hm; [|done].
    injection Hexec as <-.
    assert (Hb : balances t1 = balances (ledger st0)).
    { unfold spendAllowance in Hsp. repeat case_match; by simplify_eq. }
    apply (supplyOk_move from to amount
             (mkState t1 (totalSupply st0) (tokenOwner st0))); [lia| |done].
    destruct Hok as [Hsum Hpos Hcap].
    split; cbn [ledger totalSupply]; rewrite ?Hb; done.
  - unfold onLedger, approveBase in Hexec.
    destruct (decide (sender = 0)); [done|].
    destruct (decide (spender = 0)); [done|].
    injection Hexec as <-. by destruct Hok.
  - destruct (decide _); [|done]. destruct (decide (newOwner = 0)); [done|].
    injection Hexec as <-. by destruct Hok.
  - destruct (decide _); [|done]. injection Hexec as <-. by destruct Hok.
Qed.

Lemma reachable_supplyOk (st : State) : reachable st -> supplyOk st.
Proof.
  intros (deployer & initialSupply & st0 & Hinit & Hdeploy & Hsteps).
  revert st Hsteps. apply rtc_ind_r.
  - unfold deploy in Hdeploy. destruct (decide (deployer = 0)); [done|].
    destruct (Z.leb_spec initialSupply MAX_SUPPLY); [|done].
    apply (supplyOk_mintBase deployer initialSupply
             (mkState (mkLedger ∅ ∅) 0 deployer) st0);
      [lia| |cbn; lia|exact Hdeploy].
    split; cbn; [done| |unfold MAX_SUPPLY; lia].
    intros a x. by rewrite lookup_empty.
  - intros st1 st2 _ Hstep IH. by eapply supplyOk_step.
Qed.

(** X9.  The supply cap of the token holds in every reachable state: the
    total supply is the sum of all balances and never exceeds
    [MAX_SUPPLY] (100,000,000 HOBO), and every balance lies between zero
    and the total supply. *)
Theorem hobo_supply_cap (st : State) (a : address) :
  reachable st ->
  totalSupply st = sumBalances (balances (ledger st))
  /\ 0 <= balance a (ledger st) <= totalSupply st
  /\ totalSupply st <= MAX_SUPPLY.
Proof.
  intros Hreach. destruct (reachable_supplyOk st Hreach) as [Hsum Hpos Hcap].
  split; [done|]. split; [|done]. unfold balance.
  destruct (balances (ledger st) !! a) as [x|] eqn:Hx; cbn.
  - split; [by eapply Hpos|]. rewrite Hsum. by eapply sumBalances_lookup.
  - split; [lia|]. rewrite Hsum. unfold sumBalances.
    apply (map_fold_weak_ind (fun r m0 =>
             (forall b y, m0 !! b = Some y -> 0 <= y) -> 0 <= r)); [lia| |done].
    intros i y m0 r Hi IH Hall.
    assert (0 <= y) by (apply (Hall i); by rewrite lookup_insert_eq).
    assert (0 <= r); [|lia]. apply IH. intros b z Hz. apply (Hall b).
    rewrite lookup_insert_ne; [done|]. intros ->. congruence.
Qed.

(** X10.  Minting and burning, in full.  A mint succeeds exactly when
    the sender is the token's owner, the receiver is not the zero address
    and the new total is within [MAX_SUPPLY]; a burn succeeds exactly
    when the sender is the owner, the account is not the zero address and
    its balance covers the amount.  A successful mint or burn changes the
    total supply and the account's balance by exactly the amount and
    leaves every other balance, the allowances and the owner as they
    were.  A burn asks for no allowance: its success does not depend on
    the allowances, so it goes through for an account that has approved
    nothing.  A mint that would take the total above [MAX_SUPPLY] fails
    with the message of the source when the sum still fits a [uint256]
    and with an arithmetic panic otherwise, and anyone but the owner is
    refused. *)
Theorem hobo_mint_burn (sender account : address) (amount : Z) (st : State) :
  ((exists st', mint sender account amount st = Done st')
   <-> tokenOwner st = sender /\ account <> 0
       /\ totalSupply st + amount <= MAX_SUPPLY)
  /\ (forall st', mint sender account amount st = Done st' ->
        totalSupply st' = totalSupply st + amount
        /\ balance account (ledger st')
           = balance account (ledger st) + amount
        /\ (forall other, other <> account ->
              balance other (ledger st') = balance other (ledger st))
        /\ allowances (ledger st') = allowances (ledger st)
        /\ tokenOwner st' = tokenOwner st)
  /\ ((exists st', burn sender account amount st = Done st')
      <-> tokenOwner st = sender /\ account <> 0
          /\ amount <= balance account (ledger st))
  /\ (forall st', burn sender account amount st = Done st' ->
        totalSupply st' = totalSupply st - amount
        /\ balance account (ledger st')
           = balance account (ledger st) - amount
        /\ (forall other, other <> account ->
              balance other (ledger st') = balance other (ledger st))
        /\ allowances (ledger st') = allowances (ledger st)
        /\ tokenOwner st' = tokenOwner st)
  /\ (forall approved : gmap (Z * Z) Z,
        (exists st',
           burn sender account amount
             (mkState (mkLedger (balances (ledger st)) approved)
                (totalSupply st) (tokenOwner st)) = Done st')
        <-> (exists st', burn sender account amount st = Done st'))
  /\ (tokenOwner st <> sender ->
        mint sender account amount st = Failed (Unauthorized sender)
        /\ burn sender account amount st = Failed (Unauthorized sender))
  /\ (tokenOwner st = sender -> MAX_SUPPLY < totalSupply st + amount ->
        mint sender account amount st
        = Failed (if totalSupply st + amount <=? MAX_UINT256
                  then RequireFailed "Minting would exceed max supply"
                  else ArithmeticPanic)).
Proof.
  assert (Hcap : MAX_SUPPLY <= MAX_UINT256) by (vm_compute; discriminate).
  assert (Hburn : forall s : State,
            (exists st', burn sender account amount s = Done st')
            <-> tokenOwner s = sender /\ account <> 0
                /\ amount <= balance account (ledger s)).
  { intros s. unfold burn, burnBase. split.
    - intros [st' Hb]. repeat case_match; simplify_eq.
      split; [done|]. split; [done|]. lia.
    - intros (Ho & Ha & Hbal). rewrite decide_True by done.
      rewrite decide_False by done.
      destruct (Z.ltb_spec (balance account (ledger s)) amount); [lia|].
      by eexists. }
  split; [|split; [|split; [|split; [|split; [|split]]]]].
  - unfold mint, mintBase. split.
    + intros [st' Hm]. repeat case_match; simplify_eq.
      split; [done|]. split; [done|]. lia.
    + intros (Ho & Ha & Htot). rewrite decide_True by done.
      destruct (Z.leb_spec (totalSupply st + amount) MAX_UINT256); [|lia].
      destruct (Z.leb_spec (totalSupply st + amount) MAX_SUPPLY); [|lia].
      rewrite decide_False by done. by eexists.
  - unfold mint, mintBase. intros st' Hm. repeat case_match; simplify_eq.
    cbn [totalSupply ledger tokenOwner allowances]. split; [done|].
    split; [unfold balance at 1; cbn [balances]; by rewrite lookup_insert_eq|].
    split; [|done]. intros other Ho.
    unfold balance at 1. cbn [balances]. by rewrite lookup_insert_ne.
  - apply Hburn.
  - unfold burn, burnBase. intros st' Hb. repeat case_match; simplify_eq.
    cbn [totalSupply ledger tokenOwner allowances]. split; [done|].
    split; [unfold balance at 1; cbn [balances]; by rewrite lookup_insert_eq|].
    split; [|done]. intros other Ho.
    unfold balance at 1. cbn [balances]. by rewrite lookup_insert_ne.
  - intros approved. rewrite !Hburn. reflexivity.
  - unfold mint, burn. intros Hne. by rewrite !decide_False.
  - unfold mint. intros Ho Hgt. rewrite decide_True by done.
    destruct (Z.leb_spec (totalSupply st + amount) MAX_UINT256); [|done].
    by destruct (Z.leb_spec (totalSupply st + amount) MAX_SUPPLY); [lia|].
Qed.

End HoboSupply.

(** * The game contract on the reference ledger *)

Section OnLedger.

Import Hobo.

Lemma ledger_move_balances (from to : address) (amount : Z) (t t' : Ledger) :
  move from to amount t = Some t' ->
  from <> 0 /\ to <> 0 /\ amount <= balance from t
  /\ allowances t' = allowances t
  /\ (from <> to ->
      balance from t' = balance from t - amount
      /\ balance to t' = balance to t + amount)
  /\ (forall a, a <> from -> a <> to -> balance a t' = balance a t).
Proof.
  unfold move. destruct (decide (from = 0)); [done|].
  destruct (decide (to = 0)); [done|].
  destruct (Z.ltb_spec (balance from t) amount); [done|].
  intros [= <-]. do 4 (split; [done || lia|]). unfold balance. cbn [balances].
  split.
  - intros Hne. rewrite lookup_insert_eq.
    rewrite (lookup_insert_ne _ to from) by done.
    rewrite lookup_insert_eq, lookup_insert_ne by done. done.
  - intros a Haf Hat. by rewrite !lookup_insert_ne.
Qed.

Lemma ledger_move_ok (from to : address) (amount : Z) (t : Ledger) :
  from <> 0 -> to <> 0 -> amount <= balance from t ->
  exists t', move from to amount t = Some t'.
Proof.
  intros Hf Ht Hle. unfold move. rewrite !decide_False by done.
  destruct (Z.ltb_spec (balance from t) amount); [lia|]. eauto.
Qed.

Lemma ledger_spend_balances (holder spender : address) (amount : Z)
    (t t' : Ledger) :
  spendAllowance holder spender amount t = Some t' ->
  balances t' = balances t
  /\ (allowance holder spender t = MAX_UINT256
      \/ amount <= allowance holder spender t).
Proof.
  unfold spendAllowance.
  destruct (Z.eqb_spec (allowance holder spender t) MAX_UINT256).
  - intros [= <-]. by eauto.
  - destruct (Z.ltb_spec (allowance holder spender t) amount); [done|].
    intros [= <-]. by eauto.
Qed.

Lemma ledger_spend_ok (holder spender : address) (amount : Z) (t : Ledger) :
  allowance holder spender t = MAX_UINT256
  \/ amount <= allowance holder spender t ->
  exists t', spendAllowance holder spender amount t = Some t'.
Proof.
  intros Ha. unfold spendAllowance.
  destruct (Z.eqb_spec (allowance holder spender t) MAX_UINT256); [by eauto|].
  destruct (Z.ltb_spec (allowance holder spender t) amount); [lia|]. eauto.
Qed.

Lemma ledger_transferFrom_inv (spender from to : address) (amount : Z)
    (t t' : Ledger) (b : bool) :
  transferFrom spender from to amount t = Some (b, t') ->
  b = true /\ from <> 0 /\ to <> 0 /\ amount <= balance from t
  /\ (allowance from spender t = MAX_UINT256
      \/ amount <= allowance from spender t)
  /\ (from <> to ->
      balance from t' = balance from t - amount
      /\ balance to t' = balance to t + amount)
  /\ (forall a, a <> from -> a <> to -> balance a t' = balance a t).
Proof.
  cbn. destruct (spendAllowance from spender amount t) as [t1|] eqn:Hsp; [|done].
  destruct (move from to amount t1) as [t2|] eqn:Hm; [|done].
  intros [= <- <-].
  destruct (ledger_spend_balances _ _ _ _ _ Hsp) as [Hb Ha].
  destruct (ledger_move_balances _ _ _ _ _ Hm) as (? & ? & ? & _ & Hft & Hoth).
  unfold balance in *. rewrite Hb in *. done.
Qed.

Lemma ledger_transferFrom_ok (spender from to : address) (amount : Z)
    (t : Ledger) :
  from <> 0 -> to <> 0 -> amount <= balance from t ->
  allowance from spender t = MAX_UINT256
  \/ amount <= allowance from spender t ->
  exists t', transferFrom spender from to amount t = Some (true, t').
Proof.
  intros Hf Ht Hle Ha. cbn.
  destruct (ledger_spend_ok from spender amount t Ha) as [t1 Hsp].
  rewrite Hsp.
  destruct (ledger_spend_balances _ _ _ _ _ Hsp) as [Hb _].
  destruct (ledger_move_ok from to amount t1) as [t2 ->]; [done|done| |by eauto].
  unfold balance in *. by rewrite Hb.
Qed.

(** X11.  On the reference ledger [startGame] succeeds exactly when the
    caller and the contract are not the zero address, the caller holds at
    least [BATCH_COST], the caller's allowance to the contract is
    unlimited or at least [BATCH_COST], and the id counter has room for
    ten more games.  It then moves exactly [BATCH_COST] from the caller to
    the contract and touches no other balance. *)
Theorem startGame_on_ledger (self sender now : Z) (w : @World Ledger) :
  ((exists r w', startGame self sender now w = Ok (r, w')) <->
     sender <> 0 /\ self <> 0
     /\ BATCH_COST <= balance sender (token w)
     /\ (allowance sender self (token w) = MAX_UINT256
         \/ BATCH_COST <= allowance sender self (token w))
     /\ batchFits (nextGameId (store w)) = true)
  /\ (forall r w', startGame self sender now w = Ok (r, w') ->
        sender <> self ->
        balance sender (token w') = balance sender (token w) - BATCH_COST
        /\ balance self (token w') = balance self (token w) + BATCH_COST
        /\ forall a, a <> sender -> a <> self ->
             balance a (token w') = balance a (token w)).
Proof.
  rewrite startGame_run. cbn zeta. repeat apply conj.
  - intros (r & w' & Hok).
    destruct (transferFrom self sender self BATCH_COST (token w))
      as [[b t']|] eqn:Htf; [|done].
    destruct (ledger_transferFrom_inv _ _ _ _ _ _ _ Htf)
      as (-> & ? & ? & ? & ? & _).
    by destruct (batchFits _).
  - intros (Hs & Hself & Hbal & Hall & Hfit).
    destruct (ledger_transferFrom_ok self sender self BATCH_COST (token w))
      as [t' ->]; [done..|].
    rewrite Hfit. eauto.
  - intros r w' Hok Hne.
    destruct (transferFrom self sender self BATCH_COST (token w))
      as [[b t']|] eqn:Htf; [|done].
    destruct (ledger_transferFrom_inv _ _ _ _ _ _ _ Htf)
      as (-> & _ & _ & _ & _ & Hft & Hoth).
    destruct (batchFits _); [|done]. injection Hok as <- <-.
    cbn [token]. destruct (Hft Hne) as [? ?]. done.
Qed.

(** X12.  On the reference ledger a winning settlement needs the
    contract to hold the payout: for a game in stage GuessSubmitted that
    the player has won, [settleBet] by the owner succeeds exactly when the
    contract and the player are not the zero address and the contract's
    balance is at least twice [GAME_COST]; otherwise the transaction
    reverts and the game stays in GuessSubmitted.  On success the payout
    moves from the contract to the player. *)
Theorem settleBet_on_ledger (self sender now id actual : Z) (w : @World Ledger) :
  let g := gameAt (store w) id in
  owner (store w) = sender -> 0 < id < nextGameId (store w) -> 0 < actual ->
  stage g = GuessSubmitted ->
  playerWon (higherOrLower g) actual (displayedPrice g) = true ->
  ((exists w', settleBet self sender id actual w = Ok (tt, w')) <->
     self <> 0 /\ player g <> 0 /\ GAME_COST * 2 <= balance self (token w))
  /\ (balance self (token w) < GAME_COST * 2 ->
        settleBet self sender id actual w = Revert CalleeReverted
        /\ transact self (CSettleBet id actual) sender now w = w)
  /\ (forall w', settleBet self sender id actual w = Ok (tt, w') ->
        player g <> self ->
        balance (player g) (token w')
        = balance (player g) (token w) + GAME_COST * 2
        /\ balance self (token w') = balance self (token w) - GAME_COST * 2).
Proof.
  intros g Ho Hid Hact Hst Hwin. subst g.
  assert (Hrun : settleBet self sender id actual w =
    match transfer self (player (gameAt (store w) id)) (GAME_COST * 2) (token w) with
    | Some (true, t') =>
        Ok (tt, mkWorld
                  (syncArrays id (setGame id (settleGame actual (gameAt (store w) id))
                                    (store w))) t'
                  (events w ++
                   [BetSettled id (player (gameAt (store w) id))
                      (displayedPrice (gameAt (store w) id)) actual
                      (higherOrLower (gameAt (store w) id)) true (GAME_COST * 2)]))
    | Some (false, _) => Revert (RequireFailed "Payout failed")
    | None => Revert CalleeReverted
    end).
  { rewrite settleBet_run. cbn zeta. rewrite decide_True by done.
    destruct (Z.ltb_spec 0 id); [|lia].
    destruct (Z.ltb_spec id (nextGameId (store w))); [|lia].
    destruct (Z.ltb_spec 0 actual); [|lia].
    cbn [andb]. rewrite bool_decide_eq_true_2 by done. by rewrite Hwin. }
  rewrite Hrun. cbn [transfer Ledger_IERC20]. repeat apply conj.
  - intros [w' Hok].
    destruct (move self _ _ _) as [t1|] eqn:Hm; [|done].
    by destruct (ledger_move_balances _ _ _ _ _ Hm) as (? & ? & ? & _).
  - intros (Hs & Hp & Hbal).
    destruct (ledger_move_ok self (player (gameAt (store w) id)) (GAME_COST * 2)
                (token w)) as [t1 ->]; [done..|]. eauto.
  - intros Hlt.
    assert (move self (player (gameAt (store w) id)) (GAME_COST * 2) (token w)
            = None) as Hm.
    { destruct (move self _ _ _) as [t1|] eqn:Hm; [|done].
      destruct (ledger_move_balances _ _ _ _ _ Hm) as (_ & _ & ? & _). lia. }
    rewrite Hm. split; [done|].
    unfold transact. cbn [dispatch]. eapply commit_revert.
    rewrite Hrun. cbn [transfer Ledger_IERC20]. by rewrite Hm.
  - intros w' Hok Hne.
    destruct (move self _ _ _) as [t1|] eqn:Hm; [|done].
    injection Hok as <-. cbn [token].
    destruct (ledger_move_balances _ _ _ _ _ Hm) as (_ & _ & _ & _ & Hft & _).
    destruct Hft as [? ?]; [done|]. done.
Qed.

End OnLedger.

(** * The start script *)

Section Script.

Import Hobo StartScript.

Lemma readGames_ok (ids : list Z) (w : @World Ledger) :
  (forall i, i ∈ ids -> 0 < i < nextGameId (store w)) ->
  readGames ids w = Some (gameAt (store w) <$> ids).
Proof.
  induction ids as [|i r IH]; intros Hids; [done|].
  cbn [readGames]. unfold getGame, requireValidId, getNextGameId, readGame,
    require, getStore, bind, ret.
  destruct (Hids i) as [H1 H2]; [apply list_elem_of_here|].
  destruct (Z.ltb_spec 0 i); [|lia].
  destruct (Z.ltb_spec i (nextGameId (store w))); [|lia].
  cbn [andb]. rewrite IH; [done|]. intros j Hj. apply Hids.
  by apply list_elem_of_further.
Qed.

Lemma approveStep_ok (zillopoly player : Z) (w : @World Ledger) :
  player <> 0 -> zillopoly <> 0 ->
  exists w1, approveStep zillopoly player w = Some w1
    /\ store w1 = store w /\ events w1 = events w
    /\ balances (token w1) = balances (token w)
    /\ (allowance player zillopoly (token w1) = MAX_UINT256
        \/ BATCH_COST <= allowance player zillopoly (token w1)).
Proof.
  intros Hp Hz. unfold approveStep, HoboToken.approveBase.
  destruct (Z.ltb_spec (allowance player zillopoly (token w)) TEN_THOUSAND).
  - rewrite !decide_False by done. eexists. split; [done|].
    cbn [store events token balances]. do 3 (split; [done|]). left.
    unfold allowance. cbn [allowances]. by rewrite lookup_insert_eq.
  - exists w. do 4 (split; [done|]). right. done.
Qed.

(** X13.  The start script on the reference ledger, for a player and a
    contract that are distinct non-zero addresses and a counter with room
    for a batch: if the player holds at least 10,000 HOBO the script
    succeeds whatever the allowance was, reports the range
    [(n, n + 9)], reads back ten games that are all NotStarted with a
    zero displayed price and the player as owner, and reports exactly
    10,000 HOBO spent; if the player holds less, [startGame] reverts and
    the script fails. *)
Theorem script_start (zillopoly player now : Z) (w : @World Ledger) :
  reachable zillopoly w ->
  player <> 0 -> zillopoly <> 0 -> player <> zillopoly ->
  nextGameId (store w) + BATCH_SIZE <= MAX_UINT256 ->
  let n := nextGameId (store w) in
  (BATCH_COST <= balance player (token w) ->
     exists rep, playerStartGame zillopoly player now w = Some rep
       /\ startGameId rep = n /\ endGameId rep = n + 9
       /\ games rep = batch n BATCH_SIZE player now
       /\ Forall (fun g => stage g = NotStarted /\ displayedPrice g = 0
                            /\ Zillopoly.player g = player) (games rep)
       /\ length (games rep) = 10%nat
       /\ spent rep = 10000 * 10 ^ 18)
  /\ (balance player (token w) < BATCH_COST ->
        playerStartGame zillopoly player now w = None).
Proof.
  intros Hreach Hp Hz Hne Hroom n.
  apply reachable_consistent in Hreach as Hc.
  pose proof (cons_next _ Hc) as Hn. fold n in Hn, Hroom.
  destruct (approveStep_ok zillopoly player w Hp Hz)
    as (w1 & Happ & Hs1 & He1 & Hb1 & Hall1).
  unfold playerStartGame. rewrite Happ, startGame_run. cbn zeta. rewrite Hs1.
  fold n.
  assert (Hbal1 : balance player (token w1) = balance player (token w)).
  { unfold balance. by rewrite Hb1. }
  assert (Hfit : batchFits n = true).
  { unfold batchFits. destruct (Z.leb_spec (n + BATCH_SIZE) MAX_UINT256); [|lia].
    destruct (Z.leb_spec 1 (n + BATCH_SIZE)); [done|].
    unfold BATCH_SIZE in *. lia. }
  split.
  - intros Hbal.
    destruct (ledger_transferFrom_ok zillopoly player zillopoly BATCH_COST
                (token w1)) as [t' Htf]; [done|done|lia|done|].
    rewrite Htf, Hfit.
    destruct (ledger_transferFrom_inv _ _ _ _ _ _ _ Htf)
      as (_ & _ & _ & _ & _ & Hft & _).
    destruct (Hft Hne) as [Hdebit _].
    set (s2 := addSlots (Z.to_nat BATCH_SIZE) player now (store w)).
    assert (Hids : n + BATCH_SIZE - 1 - n + 1 = BATCH_SIZE) by lia.
    rewrite Hids, readGames_ok.
    + cbn [store token].
      assert (Hgames : gameAt s2 <$> seqZ n BATCH_SIZE
                       = batch n BATCH_SIZE player now).
      { unfold batch. apply list_fmap_ext. intros i x Hx.
        apply list_elem_of_lookup_2, elem_of_seqZ in Hx.
        unfold s2. rewrite gameAt_addSlots. fold n.
        rewrite decide_True; [done|].
        change (Z.of_nat (Z.to_nat BATCH_SIZE)) with BATCH_SIZE. lia. }
      eexists. split; [reflexivity|]. cbn [startGameId endGameId games spent].
      rewrite Hgames. split; [done|]. split; [unfold BATCH_SIZE; lia|].
      split; [done|]. split.
      { unfold batch. apply Forall_fmap, Forall_forall. by intros. }
      split; [unfold batch; by rewrite length_fmap, length_seqZ|].
      rewrite Hdebit, Hbal1. unfold BATCH_COST, GAME_COST, BATCH_SIZE. lia.
    + intros i Hi. apply elem_of_seqZ in Hi. cbn [store]. unfold s2.
      rewrite nextGameId_addSlots. fold n.
      change (Z.of_nat (Z.to_nat BATCH_SIZE)) with BATCH_SIZE. lia.
  - intros Hlt.
    destruct (transferFrom zillopoly player zillopoly BATCH_COST (token w1))
      as [[b t']|] eqn:Htf; [|done].
    destruct (ledger_transferFrom_inv _ _ _ _ _ _ _ Htf)
      as (_ & _ & _ & Hle & _). lia.
Qed.

End Script.

(** * The installer *)

Section InstallerProperties.

Import Installer.

Lemma pow2_step (a b : nat) :
  (a < b)%nat -> 2 ^ Z.of_nat (b - a) = 2 * 2 ^ Z.of_nat (b - S a).
Proof.
  intros Hlt. replace (b - a)%nat with (S (b - S a)) by lia.
  rewrite Nat2Z.inj_succ, Z.pow_succ_r; lia.
Qed.

(** The loop from attempt [i] on, when [k] attempts are left. *)
Lemma attempts_seq (k i made : nat) (d s : Z) (install : nat -> bool) :
  (i + k = 6)%nat -> (1 <= k)%nat ->
  let r := attempts (seq i k) made d s install in
  (exists j, (i <= j < i + k)%nat /\ install j = true
     /\ (forall j', (i <= j' < j)%nat -> install j' = false)
     /\ r = mkExit 0 j (s + d * (2 ^ Z.of_nat (j - i) - 1)))
  \/ ((forall j', (i <= j' < i + k)%nat -> install j' = false)
      /\ r = mkExit 1 5 (s + d * (2 ^ Z.of_nat (k - 1) - 1))).
Proof.
  revert i made d s. induction k as [|k IH]; intros i made d s Hik Hk; [lia|].
  cbn zeta. cbn [seq attempts]. destruct (install i) eqn:Hi.
  - left. exists i. split; [lia|]. split; [done|]. split; [intros; lia|].
    rewrite Nat.sub_diag. cbn. f_equal. lia.
  - unfold MAX_RETRIES. destruct (Nat.ltb_spec i 5) as [Hlt|Hge].
    + destruct (IH (S i) i (d * 2) (s + d)) as [(j & Hj & Hjt & Hjf & Hr)|[Hf Hr]];
        [lia|lia| |].
      * left. exists j. split; [lia|]. split; [done|]. split.
        { intros j' Hj'. destruct (decide (j' = i)) as [->|]; [done|].
          apply Hjf. lia. }
        rewrite Hr. f_equal. rewrite (pow2_step i j) by lia. lia.
      * right. split.
        { intros j' Hj'. destruct (decide (j' = i)) as [->|]; [done|].
          apply Hf. lia. }
        rewrite Hr. f_equal.
        replace (S k - 1)%nat with (k - 0)%nat by lia.
        rewrite (pow2_step 0 k) by lia. lia.
    + assert (i = 5%nat) as -> by lia. assert (k = 0%nat) as -> by lia.
      right. split.
      { intros j' Hj'. by assert (j' = 5%nat) as -> by lia. }
      cbn. f_equal. lia.
Qed.

(** X14.  The installer makes at most five attempts and stops at the
    first that succeeds: it exits with 0 exactly when one of the first five
    attempts succeeds and with 1 after five failures; before attempt [k]
    it has slept 10, 20, 40, ... seconds, [10 * (2^(k-1) - 1)] in all, so
    never more than 150 seconds, and it does not sleep after the last
    failure. *)
Theorem install_retry (install : nat -> bool) :
  let r := installCre install in
  (code r = 0 <-> exists i, (1 <= i <= 5)%nat /\ install i = true)
  /\ (code r = 0 \/ code r = 1)
  /\ (1 <= tries r <= 5)%nat
  /\ (forall j, (1 <= j < tries r)%nat -> install j = false)
  /\ (code r = 0 -> install (tries r) = true)
  /\ (code r = 1 -> tries r = 5%nat /\ install 5%nat = false)
  /\ waited r = 10 * (2 ^ Z.of_nat (tries r - 1) - 1)
  /\ waited r <= 150.
Proof.
  cbn zeta. unfold installCre.
  destruct (attempts_seq 5 1 0 10 0 install) as [(j & Hj & Hjt & Hjf & Hr)|[Hf Hr]];
    [lia|lia| |]; unfold MAX_RETRIES; rewrite Hr; cbn [code tries waited].
  - assert (Hpow : 2 ^ Z.of_nat (j - 1) <= 2 ^ 4).
    { apply Z.pow_le_mono_r; lia. }
    split; [split; [intros _; exists j; split; [lia|done]|done]|].
    split; [by left|]. split; [lia|]. split; [done|]. split; [done|].
    split; [done|]. split; [lia|]. change (2 ^ 4) with 16 in Hpow. lia.
  - split.
    { split; [done|]. intros (i & Hi & Hit). rewrite Hf in Hit by lia. done. }
    split; [by right|]. split; [lia|].
    split; [intros j Hj; apply Hf; lia|]. split; [done|].
    split; [intros _; split; [done|apply Hf; lia]|].
    cbn. split; lia.
Qed.

End InstallerProperties.

(** * More on the listing proxy *)

Section RouteEdges.

Import Api.

Variable rt : Runtime.

Lemma jsLength_zeros (n : nat) : jsLength (zeros n) = n.
Proof.
  induction n as [|n IH]; [done|].
  transitivity (S (jsLength (zeros n))); [reflexivity|by rewrite IH].
Qed.

Lemma jsLength_append (a b : string) :
  jsLength (String.append a b) = (jsLength a + jsLength b)%nat.
Proof.
  induction a as [|c a IH]; [done|].
  change (jsLength (String.append (String c a) b))
    with (utf16Units c + jsLength (String.append a b))%nat.
  change (jsLength (String c a)) with (utf16Units c + jsLength a)%nat.
  rewrite IH. lia.
Qed.

(** Two texts that do not start with the digit 0 are equal when their
    paddings with zeros are. *)
Lemma zeros_append_inj (k1 k2 : nat) (z1 z2 : string) :
  noLeadingZero z1 -> noLeadingZero z2 ->
  String.append (zeros k1) z1 = String.append (zeros k2) z2 ->
  z1 = z2.
Proof.
  intros H1 H2. revert k2.
  induction k1 as [|k1 IH]; intros [|k2] Heq; cbn in Heq.
  - exact Heq.
  - by destruct (H1 (String.append (zeros k2) z2)).
  - by destruct (H2 (String.append (zeros k1) z1)).
  - injection Heq as Heq. by apply (IH k2).
Qed.

(** X15.  When a listing is returned, [contractData.listingId], in the
    object and in the body that is sent, is "0x" followed by the text of
    the listing's [zpid] padded on the left with zeros: the padded text
    ends with the [zpid] text, has 64 UTF-16 code units when the [zpid]
    text has at most 64 and is the unchanged [zpid] text when it is
    longer (nothing is cut off).  The listing id determines the [zpid]
    text among the texts that do not start with the digit 0: two returned
    listings with the same [listingId] have the same [zpid] text. *)
Theorem listingId_padded (e : Env rt) (v : JsVal) :
  tryFetch rt e = Returned v ->
  exists z,
    callToString rt (field (field v "listing") "zpid") = Some z
    /\ field (field v "contractData") "listingId"
       = JStr (String.append "0x" (padStart64 z))
    /\ field (field (body (randomListingRoute rt e)) "contractData")
         "listingId"
       = JStr (String.append "0x" (padStart64 z))
    /\ (exists k, padStart64 z = String.append (zeros k) z)
    /\ jsLength (padStart64 z) = Nat.max 64 (jsLength z)
    /\ (forall (e' : Env rt) (v' : JsVal) (z' : string),
          tryFetch rt e' = Returned v' ->
          callToString rt (field (field v' "listing") "zpid") = Some z' ->
          field (field v' "contractData") "listingId"
          = field (field v "contractData") "listingId" ->
          noLeadingZero z -> noLeadingZero z' -> z' = z).
Proof.
  intros Hv. destruct (tryFetch_inv rt e v Hv) as (x & r & _ & Hf).
  destruct (formatListing_inv rt e _ v Hf) as (z & Hz & _ & _ & _ & Hobj).
  exists z. split; [by subst v|]. split; [by subst v|].
  split.
  { rewrite Hobj in Hv. rewrite (route_returned rt e _ z Hv). cbn [body].
    by destruct (successObject_body rt e
                   (default JUndefined ((x :: r) !! listingIndex e)) z)
      as (_ & _ & _ & _ & _ & Hid & _). }
  split; [by eexists|].
  split.
  { unfold padStart64. rewrite jsLength_append, jsLength_zeros. lia. }
  intros e' v' z' Hv' Hz' Hid Hnz Hnz'.
  destruct (tryFetch_inv rt e' v' Hv') as (x' & r' & _ & Hf').
  destruct (formatListing_inv rt e' _ v' Hf')
    as (z2 & Hz2 & _ & _ & _ & Hobj').
  subst v v'. cbn in Hz', Hid. rewrite Hz2 in Hz'.
  injection Hz' as <-. injection Hid as Hid.
  by eapply zeros_append_inj.
Qed.

(** X16.  An upstream answer with listings is not enough for a 200: when
    the picked entry is [undefined] or [null], or its [zpid] is, the
    route answers 500 without listing data. *)
Theorem missing_zpid_is_failure (e : Env rt) (x : JsVal) (r : list JsVal) :
  upstream e = Body (Some (x :: r)) ->
  let picked := default JUndefined ((x :: r) !! listingIndex e) in
  picked = JUndefined \/ picked = JNull
  \/ field picked "zpid" = JUndefined \/ field picked "zpid" = JNull ->
  status (randomListingRoute rt e) = 500
  /\ field (body (randomListingRoute rt e)) "listing" = JUndefined
  /\ field (body (randomListingRoute rt e)) "contractData" = JUndefined
  /\ exists m, tryFetch rt e = Thrown m.
Proof.
  intros Hup picked Hbad.
  assert (exists m, tryFetch rt e = Thrown m) as [m Hm].
  { unfold tryFetch. rewrite Hup. fold picked. unfold formatListing.
    destruct Hbad as [->|[->|Hz]]; [by eauto|by eauto|].
    destruct picked; try (by eauto);
      destruct (toLocaleStringOf rt _); try (by eauto);
      destruct Hz as [->| ->]; cbn; by eauto. }
  rewrite (route_thrown rt e m Hm). cbn. eauto.
Qed.


End RouteEdges.

(** * Properties of the single-game variant *)

Section SingleProperties.

Import ZillopolySingle.

Lemma single_gameAt_push (g : Listing) (s : Storage) (j : Z) :
  gameAt (pushGame g s) j = if decide (nextGameId s = j) then g else gameAt s j.
Proof.
  unfold gameAt, pushGame. cbn [gameById].
  destruct (decide (nextGameId s = j)) as [->|Hne].
  - by rewrite lookup_insert_eq.
  - by rewrite lookup_insert_ne.
Qed.

Lemma single_consistent_push (g : Listing) (s : Storage) :
  consistent s ->
  nextGameId s + 1 <= MAX_UINT256 ->
  gameId g = nextGameId s ->
  consistent (pushGame g s).
Proof.
  intros [Hn Hall Hid Hfresh Hpl] Hle Hg.
  set (n := nextGameId s) in *.
  assert (Hold : forall j, j <> n -> gameAt (pushGame g s) j = gameAt s j).
  { intros j Hj. rewrite single_gameAt_push. fold n. by rewrite decide_False. }
  assert (Hnew : gameAt (pushGame g s) n = g).
  { rewrite single_gameAt_push. fold n. by rewrite decide_True. }
  split.
  - simpl. lia.
  - simpl. fold n. rewrite Hall.
    replace (n + 1 - 1) with ((n - 1) + 1) by lia.
    rewrite seqZ_app by lia. rewrite fmap_app.
    replace (1 + (n - 1)) with n by lia.
    rewrite (seqZ_cons n 1) by lia. rewrite (seqZ_nil (Z.succ n)) by lia.
    rewrite fmap_cons, fmap_nil, Hnew. f_equal.
    apply list_fmap_ext. intros i x Hx. symmetry. apply Hold.
    apply list_elem_of_lookup_2, elem_of_seqZ in Hx. lia.
  - simpl. fold n. intros j Hj. destruct (decide (j = n)) as [->|Hne].
    + by rewrite Hnew.
    + rewrite Hold by done. apply Hid. fold n. lia.
  - simpl. fold n. intros j Hj. rewrite lookup_insert_ne by lia.
    apply Hfresh. fold n. lia.
  - intros p. unfold listingsOf at 1. simpl.
    rewrite filter_app. destruct (decide (player g = p)) as [<-|Hne].
    + rewrite lookup_insert_eq. simpl. rewrite Hpl.
      by rewrite (filter_cons_True _ g).
    + rewrite lookup_insert_ne by done.
      rewrite (filter_cons_False _ g) by done.
      rewrite filter_nil, app_nil_r. apply Hpl.
Qed.

Lemma single_consistent_storeStep (s s' : Storage) :
  storeStep s s' -> consistent s -> consistent s'.
Proof.
  intros [s0 s1 Hq|s0 sender now lid price Hlid Hprice Hfit] Hc.
  - eapply consistent_storeStep; [by apply Zillopoly.ss_quiet|done].
  - by apply single_consistent_push.
Qed.

Lemma single_stageFields_storeStep (s s' : Storage) :
  storeStep s s' ->
  (forall id, stageFields (gameAt s id)) ->
  forall id, stageFields (gameAt s' id).
Proof.
  intros [s0 s1 Hq|s0 sender now lid price Hlid Hprice Hfit] Hall id.
  - eapply stageFields_storeStep; [by apply Zillopoly.ss_quiet|done].
  - rewrite single_gameAt_push. destruct (decide _); [|apply Hall].
    by unfold stageFields.
Qed.

(** Created games of this variant are never in stage NotStarted. *)
Lemma single_started_storeStep (s s' : Storage) :
  storeStep s s' ->
  (forall id, 0 < id < nextGameId s -> stage (gameAt s id) <> NotStarted) ->
  forall id, 0 < id < nextGameId s' -> stage (gameAt s' id) <> NotStarted.
Proof.
  intros [s0 s1 [s2|s2 j g' Hj Hg|s2 o]|s0 sender now lid price Hlid Hprice Hfit]
    Hall id Hid.
  - by apply Hall.
  - rewrite gameAt_sync_set. destruct (decide (j = id)) as [->|].
    + by eapply gameStep_started.
    + by apply Hall.
  - by apply Hall.
  - rewrite single_gameAt_push. destruct (decide _); [done|].
    apply Hall. cbn [pushGame nextGameId] in Hid. lia.
Qed.

Context {T : Type} `{Tok : IERC20 T}.
Variable self : address.

Lemma single_startGame_run (sender now lid price : Z) (w : @World T) :
  startGame self sender now lid price w =
  let s := store w in
  let g := mkListing (nextGameId s) price 0 false lid sender now
             Initialized false 0 in
  if negb (lid =? 0) then
    if 0 <? price then
      match transferFrom self sender self GAME_COST (token w) with
      | Some (true, t') =>
          if nextGameId s + 1 <=? MAX_UINT256 then
            Ok (nextGameId s,
                mkWorld (pushGame g s) t'
                  (events w ++ [GameStarted (nextGameId s) sender lid price now]))
          else Revert ArithmeticPanic
      | Some (false, _) => Revert (RequireFailed "Transfer failed")
      | None => Revert CalleeReverted
      end
    else Revert (RequireFailed "Displayed price must be > 0")
  else Revert (RequireFailed "Invalid listing ID").
Proof.
  unfold startGame, callTransferFrom, getNextGameId, pushPlayerListing,
    writeGame, pushAllGames, emit, checkedAdd, setNextGameId, require,
    getStore, putStore, revert, bind, ret. cbn [store token events].
  destruct (negb (lid =? 0)); [|done]. destruct (0 <? price); [|done].
  destruct (transferFrom _ _ _ _ _) as [[[] t']|]; [|done..].
  cbn [store token events setGame nextGameId owner playerListings gameById
         allGames].
  by destruct (nextGameId (store w) + 1 <=? MAX_UINT256).
Qed.

Lemma single_makeGuess_run (sender id : Z) (isHigher : bool) (w : @World T) :
  makeGuess sender id isHigher w =
  let s := store w in
  let g := gameAt s id in
  if (0 <? id) && (id <? nextGameId s) then
    if bool_decide (player g = sender) then
      if bool_decide (stage g = Initialized) then
        Ok (tt, mkWorld (syncArrays id (setGame id (guessGame isHigher g) s))
                  (token w)
                  (events w ++ [GuessMade id sender isHigher]))
      else Revert (RequireFailed "Game not in guess stage")
    else Revert (RequireFailed "Not your game")
  else Revert (RequireFailed "Invalid game ID").
Proof.
  unfold makeGuess, requireValidId, getNextGameId, readGame,
    modifyGame, readGame, writeGame, _updateListingInArrays, emit, require,
    getStore, putStore, revert, bind, ret; simpl.
  destruct ((0 <? id) && (id <? nextGameId (store w))); simpl; [|done].
  destruct (bool_decide (player (gameAt (store w) id) = sender)); simpl; [|done].
  destruct (bool_decide (stage (gameAt (store w) id) = Initialized)); simpl; [|done].
  rewrite !gameAt_setGame_eq, !setGame_setGame.
  reflexivity.
Qed.

Lemma single_settleBet_run (sender id actual : Z) (w : @World T) :
  settleBet self sender id actual w =
  let s := store w in
  let g := gameAt s id in
  let s' := syncArrays id (setGame id (settleGame actual g) s) in
  if decide (owner s = sender) then
    if (0 <? id) && (id <? nextGameId s) then
      if 0 <? actual then
        if bool_decide (stage g = GuessSubmitted) then
          if playerWon (higherOrLower g) actual (displayedPrice g) then
            match transfer self (player g) (GAME_COST * 2) (token w) with
            | Some (true, t') =>
                Ok (tt, mkWorld s' t'
                          (events w ++
                           [BetSettled id (player g) (displayedPrice g) actual
                              (higherOrLower g) true (GAME_COST * 2)]))
            | Some (false, _) => Revert (RequireFailed "Payout failed")
            | None => Revert CalleeReverted
            end
          else
            Ok (tt, mkWorld s' (token w)
                      (events w ++
                       [BetSettled id (player g) (displayedPrice g) actual
                          (higherOrLower g) false 0]))
        else Revert (RequireFailed "Game not ready for settlement")
      else Revert (RequireFailed "Actual price must be > 0")
    else Revert (RequireFailed "Invalid game ID")
  else Revert (OwnableUnauthorizedAccount sender).
Proof.
  unfold settleBet, onlyOwner, requireValidId, getNextGameId, readGame,
    modifyGame, readGame, writeGame, _updateListingInArrays, emit, require,
    callTransfer, getStore, putStore, revert, bind, ret; simpl.
  destruct (decide (owner (store w) = sender)); simpl; [|done].
  destruct ((0 <? id) && (id <? nextGameId (store w))); simpl; [|done].
  destruct (0 <? actual); simpl; [|done].
  destruct (bool_decide (stage (gameAt (store w) id) = GuessSubmitted)); simpl; [|done].
  rewrite !gameAt_setGame_eq, !setGame_setGame. simpl.
  unfold settleGame.
  destruct (playerWon _ _ _) eqn:Hw; simpl.
  - rewrite !gameAt_setGame_eq, !setGame_setGame. simpl.
    destruct (transfer _ _ _ _) as [[[] t']|]; simpl; try done.
    by rewrite gameAt_syncArrays, gameAt_setGame_eq.
  - rewrite !gameAt_setGame_eq, !setGame_setGame. simpl.
    by rewrite gameAt_syncArrays, gameAt_setGame_eq.
Qed.

Lemma single_transact_storeStep (c : Call) (sender now : Z) (w : @World T) :
  storeStep (store w) (store (transact self c sender now w)).
Proof.
  unfold transact.
  destruct c as [lid price|id h|id actual|amount|o|]; cbn [dispatch].
  - unfold bind at 1. rewrite single_startGame_run. cbn zeta.
    destruct (negb _) eqn:Hlid; [|apply ss_quiet, qs_same].
    destruct (Z.ltb_spec 0 price); [|apply ss_quiet, qs_same].
    destruct (transferFrom _ _ _ _ _) as [[[] t']|];
      try apply ss_quiet, qs_same.
    destruct (Z.leb_spec (nextGameId (store w) + 1) MAX_UINT256);
      [|apply ss_quiet, qs_same].
    apply negb_true_iff, Z.eqb_neq in Hlid.
    cbn [ret store]. by apply ss_start.
  - apply ss_quiet. rewrite single_makeGuess_run. cbn zeta.
    destruct (andb _ _) eqn:Hid; [|apply qs_same].
    destruct (bool_decide (player _ = _)); [|apply qs_same].
    destruct (bool_decide _) eqn:Hst; [|apply qs_same].
    apply bool_decide_eq_true in Hst. apply andb_true_iff in Hid as [H1 H2].
    apply Z.ltb_lt in H1, H2.
    cbn [store]. apply qs_game; [lia|]. by apply gs_guess.
  - apply ss_quiet. rewrite single_settleBet_run. cbn zeta.
    destruct (decide _); [|apply qs_same].
    destruct (andb _ _) eqn:Hid; [|apply qs_same].
    destruct (Z.ltb_spec 0 actual); [|apply qs_same].
    destruct (bool_decide _) eqn:Hst; [|apply qs_same].
    apply bool_decide_eq_true in Hst. apply andb_true_iff in Hid as [H1 H2].
    apply Z.ltb_lt in H1, H2.
    assert (quietStep (store w)
              (syncArrays id (setGame id (settleGame actual (gameAt (store w) id))
                                (store w)))) as Hss.
    { apply qs_game; [lia|]. by apply gs_settle. }
    destruct (playerWon _ _ _); [|done].
    destruct (transfer _ _ _ _) as [[[] t']|]; first [done|apply qs_same].
  - apply ss_quiet.
    unfold withdrawFunds, onlyOwner, callBalanceOf, callTransfer, require,
      getStore, revert, bind, ret. cbn [store token events].
    destruct (decide _); [|apply qs_same].
    destruct (amount <=? _); [|apply qs_same].
    destruct (transfer _ _ _ _) as [[[] t']|]; apply qs_same.
  - apply ss_quiet.
    unfold transferOwnership, onlyOwner, setOwner, getStore, putStore, revert,
      bind, ret. cbn [store token events].
    destruct (decide (owner _ = _)); [|apply qs_same].
    destruct (decide (o = 0)); [apply qs_same|apply qs_owner].
  - apply ss_quiet.
    unfold renounceOwnership, onlyOwner, setOwner, getStore, putStore, revert,
      bind, ret. cbn [store token events].
    destruct (decide (owner _ = _)); [apply qs_owner|apply qs_same].
Qed.

Lemma single_step_storeStep (w w' : @World T) :
  step self w w' -> storeStep (store w) (store w').
Proof.
  intros [c sender now w0|w0 t'].
  - apply single_transact_storeStep.
  - apply ss_quiet, qs_same.
Qed.

(** X18.  [startGame(listingId, displayedPrice)] of the single-game
    variant succeeds exactly when the listing id is not zero, the price is
    positive, the token's [transferFrom] of [GAME_COST] from the caller
    returns [true] and the counter can be incremented.  Bad arguments are
    refused before the token is called.  On success the call returns the
    old counter as the new id, adds one to the counter, and stores under
    that id, at the end of [allGames] and at the end of the caller's
    array a record that is already Initialized with the given listing id
    and price; no other record changes. *)
Theorem single_startGame_spec (sender now lid price : Z) (w : @World T) :
  let n := nextGameId (store w) in
  let g := mkListing n price 0 false lid sender now Initialized false 0 in
  ((exists id w', startGame self sender now lid price w = Ok (id, w')) <->
     lid <> 0 /\ 0 < price
     /\ (exists t', transferFrom self sender self GAME_COST (token w)
                    = Some (true, t'))
     /\ n + 1 <= MAX_UINT256)
  /\ (lid = 0 ->
        startGame self sender now lid price w
        = Revert (RequireFailed "Invalid listing ID"))
  /\ (lid <> 0 -> price <= 0 ->
        startGame self sender now lid price w
        = Revert (RequireFailed "Displayed price must be > 0"))
  /\ (forall id w', startGame self sender now lid price w = Ok (id, w') ->
        id = n /\ nextGameId (store w') = n + 1
        /\ gameAt (store w') n = g
        /\ (forall j, j <> n -> gameAt (store w') j = gameAt (store w) j)
        /\ allGames (store w') = allGames (store w) ++ [g]
        /\ listingsOf (store w') sender = listingsOf (store w) sender ++ [g]
        /\ transferFrom self sender self GAME_COST (token w)
           = Some (true, token w')
        /\ events w' = events w ++ [GameStarted n sender lid price now]).
Proof.
  cbn zeta. rewrite single_startGame_run. cbn zeta. repeat apply conj.
  - intros (id & w' & Hok).
    destruct (Z.eqb_spec lid 0); [done|]. cbn [negb] in Hok.
    destruct (Z.ltb_spec 0 price); [|done].
    destruct (transferFrom _ _ _ _ _) as [[[] t']|]; [|done..].
    destruct (Z.leb_spec (nextGameId (store w) + 1) MAX_UINT256); [|done].
    by eauto.
  - intros (Hlid & Hprice & [t' ->] & Hfit).
    destruct (Z.eqb_spec lid 0); [done|]. cbn [negb].
    destruct (Z.ltb_spec 0 price); [|lia].
    destruct (Z.leb_spec (nextGameId (store w) + 1) MAX_UINT256); [|lia].
    eauto.
  - intros ->. done.
  - intros Hlid Hprice. destruct (Z.eqb_spec lid 0); [done|]. cbn [negb].
    by destruct (Z.ltb_spec 0 price); [lia|].
  - intros id w' Hok.
    destruct (negb _); [|done]. destruct (0 <? price); [|done].
    destruct (transferFrom _ _ _ _ _) as [[[] t']|]; [|done..].
    destruct (_ <=? _); [|done]. injection Hok as <- <-.
    cbn [store token events]. split; [done|]. split; [done|].
    split; [by rewrite single_gameAt_push, decide_True|].
    split; [intros j Hj; by rewrite single_gameAt_push, decide_False|].
    split; [done|]. split; [|done].
    unfold listingsOf at 1. cbn [pushGame playerListings player].
    by rewrite lookup_insert_eq.
Qed.

Lemma single_reachable_inv (w : @World T) :
  reachable self w ->
  consistent (store w)
  /\ (forall id, stageFields (gameAt (store w) id))
  /\ (forall id, 0 < id < nextGameId (store w) ->
        stage (gameAt (store w) id) <> NotStarted).
Proof.
  intros (deployer & t0 & Hsteps). revert w Hsteps. apply rtc_ind_r.
  - split; [|split].
    + split; cbn; [unfold MAX_UINT256; lia|done|lia| |].
      * intros. apply lookup_empty.
      * intros p. unfold listingsOf. cbn. by rewrite lookup_empty.
    + intros id. unfold gameAt. cbn. rewrite lookup_empty. by unfold stageFields.
    + cbn. lia.
  - intros w1 w2 _ Hstep (Hc & Hf & Hs).
    apply single_step_storeStep in Hstep. split; [|split].
    + by eapply single_consistent_storeStep.
    + by eapply single_stageFields_storeStep.
    + by eapply single_started_storeStep.
Qed.

(** X19.  In every reachable state of the single-game variant the three
    storage copies agree: [allGames] is the ledger read over the ids 1 to
    [nextGameId - 1], each player's array is that player's sub-list of
    it, every created id holds a record with that id and no other id holds
    one, and [getTotalGames] returns [nextGameId - 1]. *)
Theorem single_storage_agrees (w : @World T) :
  reachable self w ->
  let s := store w in
  allGames s = gameAt s <$> seqZ 1 (nextGameId s - 1)
  /\ (forall p, listingsOf s p = filter (fun g => player g = p) (allGames s))
  /\ (forall id, 0 < id < nextGameId s ->
        gameById s !! id = Some (gameAt s id) /\ gameId (gameAt s id) = id)
  /\ (forall id, ~ (0 < id < nextGameId s) -> gameById s !! id = None)
  /\ getTotalGames w = Ok (nextGameId s - 1, w).
Proof.
  intros Hreach. destruct (single_reachable_inv w Hreach) as (Hc & _ & _).
  cbn zeta. pose proof (cons_next _ Hc) as Hn. repeat apply conj.
  - apply (cons_all _ Hc).
  - apply (cons_player _ Hc).
  - intros id Hid. split; [by apply consistent_lookup|].
    apply (cons_id _ Hc). lia.
  - intros id Hid. apply (cons_fresh _ Hc). lia.
  - unfold getTotalGames, getStore, bind, ret.
    rewrite (cons_all _ Hc), length_fmap, length_seqZ. do 2 f_equal. lia.
Qed.

(** X20.  In the single-game variant a created game is never in stage
    NotStarted: in every reachable state each created game has a positive
    displayed price and a non-zero listing id, its actual price and payout
    are zero until it is settled, and once settled its [won] is the
    outcome rule applied to its stored guess and prices, with the
    matching payout. *)
Theorem single_games_started (w : @World T) (id : Z) :
  reachable self w ->
  0 < id < nextGameId (store w) ->
  let g := gameAt (store w) id in
  stage g <> NotStarted
  /\ 0 < displayedPrice g /\ listingId g <> 0
  /\ (stage g <> Settled ->
        actualPrice g = 0 /\ won g = false /\ payout g = 0)
  /\ (stage g = Settled ->
        0 < actualPrice g
        /\ won g = playerWon (higherOrLower g) (actualPrice g) (displayedPrice g)
        /\ payout g = (if won g then GAME_COST * 2 else 0)).
Proof.
  intros Hreach Hid. destruct (single_reachable_inv w Hreach) as (_ & Hf & Hs).
  cbn zeta. specialize (Hf id). specialize (Hs id Hid).
  unfold stageFields in Hf.
  destruct (stage (gameAt (store w) id)) eqn:Hst; [done|..];
    repeat split; try tauto; try done; intros; tauto.
Qed.

End SingleProperties.

(** * The further properties on concrete runs *)

Section MoreWitnesses.

Import Scenario.

(** [record_fields_by_stage] on the settled game 3. *)
Lemma record_fields_by_stage_witness :
  reachable contract w7
  /\ won (gameAt (store w7) 3)
     = playerWon (higherOrLower (gameAt (store w7) 3))
         (actualPrice (gameAt (store w7) 3))
         (displayedPrice (gameAt (store w7) 3)).
Proof.
  split; [exact reachable_w7|].
  pose proof (record_fields_by_stage contract w7 3 reachable_w7) as H.
  cbn zeta in H.
  assert (Hst : stage (gameAt (store w7) 3) = Settled) by (vm_compute; reflexivity).
  rewrite Hst in H.
  destruct H as (_ & _ & _ & Hwon & _). exact Hwon.
Defined.

(** [identity_immutable] on game 3 between [w4] and [w7]. *)
Lemma identity_immutable_witness :
  3 < nextGameId (store w4)
  /\ rtc (step contract) w4 w7
  /\ player (gameAt (store w7) 3) = player (gameAt (store w4) 3).
Proof.
  assert (Hid : 3 < nextGameId (store w4)) by (vm_compute; reflexivity).
  split; [exact Hid|]. split; [exact steps_w4_w7|].
  destruct (identity_immutable contract w4 w7 3 Hid steps_w4_w7) as (_ & Hp & _).
  exact Hp.
Defined.

(** [games_in_batches] at the end of the run: one batch, ids 1 to 10. *)
Lemma games_in_batches_witness :
  reachable contract w7
  /\ nextGameId (store w7)
     = 1 + BATCH_SIZE * Z.of_nat (length (batchRanges (events w7))).
Proof.
  split; [exact reachable_w7|].
  destruct (games_in_batches contract w7 reachable_w7) as (Hn & _).
  exact Hn.
Defined.

(** [settleBet_on_ledger] on game 3 of [w3], which the player has won. *)
Lemma settleBet_on_ledger_witness :
  owner (store w3) = operator
  /\ 0 < 3 < nextGameId (store w3)
  /\ 0 < 600000
  /\ stage (gameAt (store w3) 3) = GuessSubmitted
  /\ playerWon (higherOrLower (gameAt (store w3) 3)) 600000
       (displayedPrice (gameAt (store w3) 3)) = true
  /\ exists w', settleBet contract operator 3 600000 w3 = Ok (tt, w').
Proof.
  assert (Ho : owner (store w3) = operator) by (vm_compute; reflexivity).
  assert (Hid : 0 < 3 < nextGameId (store w3)) by (vm_compute; split; reflexivity).
  assert (Hact : 0 < 600000) by (vm_compute; reflexivity).
  assert (Hst : stage (gameAt (store w3) 3) = GuessSubmitted) by (vm_compute; reflexivity).
  assert (Hwin : playerWon (higherOrLower (gameAt (store w3) 3)) 600000
                   (displayedPrice (gameAt (store w3) 3)) = true) by (vm_compute; reflexivity).
  do 5 (split; [assumption|]).
  destruct (settleBet_on_ledger contract operator 1003 3 600000 w3
              Ho Hid Hact Hst Hwin) as [[_ Hback] _].
  apply Hback. vm_compute. repeat split; discriminate.
Defined.

(** [script_start] for the player of the scenario on the fresh contract. *)
Lemma script_start_witness :
  reachable contract w0
  /\ gamer <> 0 /\ contract <> 0 /\ gamer <> contract
  /\ nextGameId (store w0) + BATCH_SIZE <= MAX_UINT256
  /\ BATCH_COST <= Hobo.balance gamer (token w0)
  /\ exists rep, StartScript.playerStartGame contract gamer 1000 w0 = Some rep
       /\ StartScript.spent rep = 10000 * 10 ^ 18.
Proof.
  assert (H1 : gamer <> 0) by discriminate.
  assert (H2 : contract <> 0) by discriminate.
  assert (H3 : gamer <> contract) by discriminate.
  assert (H4 : nextGameId (store w0) + BATCH_SIZE <= MAX_UINT256)
    by (vm_compute; discriminate).
  assert (H5 : BATCH_COST <= Hobo.balance gamer (token w0))
    by (vm_compute; discriminate).
  split; [exact reachable_w0|]. do 5 (split; [assumption|]).
  destruct (script_start contract gamer 1000 w0 reachable_w0 H1 H2 H3 H4)
    as [Hok _].
  destruct (Hok H5) as (rep & Hrep & _ & _ & _ & _ & _ & Hspent).
  exists rep. split; assumption.
Defined.

End MoreWitnesses.

Section TokenWitness.

Import HoboToken.

(** [hobo_supply_cap] on the sample token: 1,300 in circulation. *)
Lemma hobo_supply_cap_witness :
  reachable sample
  /\ totalSupply sample = sumBalances (Hobo.balances (ledger sample))
  /\ totalSupply sample <= MAX_SUPPLY.
Proof.
  assert (Hreach : reachable sample).
  { exists 1, 1000,
      (match deploy 1 1000 with
       | Done st => st
       | Failed _ => mkState (Hobo.mkLedger ∅ ∅) 0 0
       end).
    split; [vm_compute; split; discriminate|].
    split; [vm_compute; reflexivity|].
    eapply rtc_l;
      [apply (step_call (CMint 7 500) 1); vm_compute; split; discriminate|].
    eapply rtc_l;
      [apply (step_call (CBurn 7 200) 1); vm_compute; split; discriminate|].
    apply rtc_refl. }
  split; [exact Hreach|].
  destruct (hobo_supply_cap sample 7 Hreach) as (Hsum & _ & Hcap).
  split; assumption.
Defined.

(** [hobo_mint_burn] on the sample token: the owner mints 500 more to
    account [7] and burns 200 of its tokens, and account [7] has approved
    nothing. *)
Lemma hobo_mint_burn_witness :
  (exists st', mint 1 7 500 sample = Done st')
  /\ Hobo.allowance 7 1 (ledger sample) = 0
  /\ (exists st', burn 1 7 200 sample = Done st')
  /\ (forall st', burn 1 7 200 sample = Done st' ->
        Hobo.balance 7 (ledger st') = Hobo.balance 7 (ledger sample) - 200).
Proof.
  destruct (hobo_mint_burn 1 7 500 sample) as (Hmint & _).
  destruct (hobo_mint_burn 1 7 200 sample) as (_ & _ & Hburn & Hafter & _).
  split; [|split; [|split]].
  - apply Hmint. vm_compute. repeat split; discriminate.
  - vm_compute. reflexivity.
  - apply Hburn. vm_compute. repeat split; discriminate.
  - intros st' Hb. apply (Hafter st' Hb).
Defined.

End TokenWitness.

Section RouteWitnesses.

Import Api ApiSamples.

(** [listingId_padded] on the request with one house, [zpid] 2077. *)
Lemma listingId_padded_witness :
  tryFetch plainRuntime oneHouse
  = Returned (successObject plainRuntime oneHouse
                (JObj [ ("zpid", JNum 2077); ("price", JNum 450000);
                        ("address", JStr "1 Main St") ]%string) "2077")
  /\ exists z,
       field (field (body (randomListingRoute plainRuntime oneHouse))
                "contractData") "listingId"
       = JStr (String.append "0x" (padStart64 z))
       /\ jsLength (padStart64 z) = Nat.max 64 (jsLength z).
Proof.
  assert (Hrun : tryFetch plainRuntime oneHouse
                 = Returned (successObject plainRuntime oneHouse
                     (JObj [ ("zpid", JNum 2077); ("price", JNum 450000);
                             ("address", JStr "1 Main St") ]%string) "2077"))
    by (vm_compute; reflexivity).
  split; [exact Hrun|].
  destruct (listingId_padded plainRuntime oneHouse _ Hrun)
    as (z & _ & _ & Hid & _ & Hlen & _).
  exists z. split; assumption.
Defined.

(** [missing_zpid_is_failure] on a listing without [zpid]. *)
Lemma missing_zpid_is_failure_witness :
  upstream noZpid = Body (Some [ JObj [ ("price", JNum 450000) ]%string ])
  /\ field (JObj [ ("price", JNum 450000) ]%string) "zpid" = JUndefined
  /\ status (randomListingRoute plainRuntime noZpid) = 500.
Proof.
  assert (Hup : upstream noZpid
                = Body (Some [ JObj [ ("price", JNum 450000) ]%string ]))
    by (vm_compute; reflexivity).
  split; [exact Hup|]. split; [vm_compute; reflexivity|].
  destruct (missing_zpid_is_failure plainRuntime noZpid _ _ Hup) as [Hst _].
  - right; right; left. vm_compute. reflexivity.
  - exact Hst.
Defined.


End RouteWitnesses.

Section SingleWitnesses.

Import ZillopolySingle.

Lemma single_reachable_transact {T : Type} `{Tok : IERC20 T} (self : Z)
    (c : Call) (sender now : Z) (w : @World T) :
  reachable self w -> reachable self (transact self c sender now w).
Proof.
  intros (deployer & t0 & Hsteps). exists deployer, t0.
  eapply rtc_r; [exact Hsteps|apply step_call].
Qed.

Lemma single_reachable_v4 : reachable 99 v4.
Proof.
  do 4 apply single_reachable_transact. exists 1, (token v0). apply rtc_refl.
Qed.

(** [single_storage_agrees] after two games, one of them settled. *)
Lemma single_storage_agrees_witness :
  reachable 99 v4 /\ getTotalGames v4 = Ok (2, v4).
Proof.
  split; [exact single_reachable_v4|].
  destruct (single_storage_agrees 99 v4 single_reachable_v4)
    as (_ & _ & _ & _ & Htot).
  exact Htot.
Defined.

(** [single_games_started] on the second game, not yet guessed. *)
Lemma single_games_started_witness :
  reachable 99 v4 /\ 0 < 2 < nextGameId (store v4)
  /\ stage (gameAt (store v4) 2) <> NotStarted
  /\ 0 < displayedPrice (gameAt (store v4) 2).
Proof.
  assert (Hid : 0 < 2 < nextGameId (store v4)) by (vm_compute; split; reflexivity).
  split; [exact single_reachable_v4|]. split; [exact Hid|].
  destruct (single_games_started 99 v4 2 single_reachable_v4 Hid)
    as (Hst & Hd & _).
  split; assumption.
Defined.

End SingleWitnesses.
